(** * pycosat: the Python binding of the PicoSAT engine (pycosat.c)

    A shallow embedding of [pycosat.c].  The C functions of the binding are
    written as computations in a state monad over a [World]: the Python
    objects the caller can see and mutate, the interpreter's error indicator,
    the outcomes of coming host allocations, and the trace of the effects
    performed so far (engine life cycle, engine invocations, GIL hand-over,
    raw memory).  The engine itself ([picosat.c]) is outside the binding: its
    bookkeeping is modelled from its contract, and its search is an oracle
    the development is parameterised over. *)

From stdpp Require Import base numbers option list gmap strings.
From Stdlib Require Import ZArith Lia ssreflect.

Set Warnings "-rewrite-rw".

Local Open Scope Z_scope.

(** ** Python objects, errors and effects *)

(** The objects that can reach the binding through its arguments.  A list
    holds references, so that two lists may share an element and a list may
    be mutated behind the binding's back. *)
Inductive pyval :=
| PyLongV (z : Z)                (* int (and bool, a subclass of int) *)
| PyListV (items : list nat)     (* list of references *)
| PyOtherV.                      (* any object that is neither *)

Inductive pyexc_type :=
| PyExc_TypeError
| PyExc_ValueError
| PyExc_OverflowError
| PyExc_IndexError
| PyExc_MemoryError
| PyExc_SystemError.

Record pyexc := mkExc {
  exc_type : pyexc_type;
  exc_msg : string;
  exc_arg : option Z             (* the %d argument of PyErr_Format *)
}.

Inductive event :=
| Ev_minit (h : nat)                      (* picosat_minit, new handle h *)
| Ev_reset (h : nat)                      (* picosat_reset *)
| Ev_sat (h : nat) (res : Z)              (* picosat_sat and its result *)
| Ev_print (h : nat)                      (* picosat_print *)
| Ev_gil_release                          (* Py_BEGIN_ALLOW_THREADS *)
| Ev_gil_acquire                          (* Py_END_ALLOW_THREADS *)
| Ev_PyMem_Malloc (bytes : Z) (p : option nat)
| Ev_PyMem_Realloc (p : nat) (bytes : Z) (q : option nat)
| Ev_PyMem_Free (p : nat)
| Ev_PyList_New (n : Z) (ok : bool)
| Ev_PyUnicode_FromString (s : string) (ok : bool)
| Ev_GC_New (ok : bool)
| Ev_GC_Track
| Ev_GC_UnTrack
| Ev_GC_Del.

Global Instance event_eq_dec : EqDecision event.
Proof. solve_decision. Defined.

Record World := mkWorld {
  heap : gmap nat pyval;         (* the caller's objects, by address *)
  pyerr : option pyexc;          (* the error indicator *)
  oom : list bool;               (* coming host allocations: true = fails;
                                    once used up, every allocation succeeds *)
  trace : list event             (* effects so far, oldest first *)
}.

Definition set_heap (h : gmap nat pyval) (w : World) : World :=
  mkWorld h (pyerr w) (oom w) (trace w).

(** ** The state monad of the binding *)

Definition M (A : Type) : Type := World → A * World.

Global Instance M_ret : MRet M := λ A a w, (a, w).
Global Instance M_bind : MBind M :=
  λ A B k c w, let '(a, w') := c w in k a w'.

Definition log (e : event) : M unit :=
  λ w, (tt, mkWorld (heap w) (pyerr w) (oom w) (trace w ++ [e])).

(** An address no earlier allocation was given: the position in the trace
    of the event that is about to record the allocation. *)
Definition fresh_addr : M nat := λ w, (length (trace w), w).

(** The next host allocation: [true] when it succeeds. *)
Definition host_alloc : M bool :=
  λ w, match oom w with
       | [] => (true, w)
       | fails :: rest => (negb fails, mkWorld (heap w) (pyerr w) rest (trace w))
       end.

Definition PyErr_Set (ty : pyexc_type) (msg : string) (arg : option Z) : M unit :=
  λ w, (tt, mkWorld (heap w) (Some (mkExc ty msg arg)) (oom w) (trace w)).

Definition PyErr_SetString (ty : pyexc_type) (msg : string) : M unit :=
  PyErr_Set ty msg None.

Definition PyErr_Format (ty : pyexc_type) (msg : string) (arg : Z) : M unit :=
  PyErr_Set ty msg (Some arg).

Definition PyErr_NoMemory : M unit := PyErr_Set PyExc_MemoryError "" None.

Definition deref_obj (p : nat) : M (option pyval) := λ w, (heap w !! p, w).

Definition PyList_Check (p : nat) : M bool :=
  v ← deref_obj p;
  mret (match v with Some (PyListV _) => true | _ => false end).

Definition PyList_Size (p : nat) : M nat :=
  v ← deref_obj p;
  mret (match v with Some (PyListV items) => length items | _ => 0%nat end).

(** A borrowed reference to item [i], NULL when there is none. *)
Definition PyList_GetItem (p : nat) (i : nat) : M (option nat) :=
  v ← deref_obj p;
  mret (match v with Some (PyListV items) => items !! i | _ => None end).

Definition IS_INT (p : nat) : M bool :=
  v ← deref_obj p;
  mret (match v with Some (PyLongV _) => true | _ => false end).

(** ** C integers *)

Definition INT_MAX : Z := 2147483647.
Definition LONG_MAX : Z := 9223372036854775807.

(** Conversion of a [long] to [int]: the value modulo 2^32, signed. *)
Definition int_of_long (z : Z) : Z := (z + 2^31) mod 2^32 - 2^31.

Definition in_long (z : Z) : Prop := - LONG_MAX - 1 ≤ z ≤ LONG_MAX.

Global Instance in_long_dec z : Decision (in_long z).
Proof. unfold in_long. apply _. Defined.

(** [PyLong_AsLong]: the value when it fits a (64-bit) [long]; otherwise -1
    with OverflowError set. *)
Definition PyLong_AsLong (p : nat) : M Z :=
  v ← deref_obj p;
  match v with
  | Some (PyLongV z) =>
      if bool_decide (in_long z) then mret z
      else PyErr_SetString PyExc_OverflowError
             "Python int too large to convert to C long";; mret (-1)
  | _ => PyErr_SetString PyExc_TypeError "an integer is required";; mret (-1)
  end.

(** ** Raw memory and the allocator adapters *)

Definition PyMem_Malloc (bytes : Z) : M (option nat) :=
  ok ← host_alloc;
  if ok : bool then
    p ← fresh_addr;
    log (Ev_PyMem_Malloc bytes (Some p));; mret (Some p)
  else log (Ev_PyMem_Malloc bytes None);; mret None.

Definition PyMem_Realloc (p : nat) (bytes : Z) : M (option nat) :=
  ok ← host_alloc;
  if ok : bool then
    q ← fresh_addr;
    log (Ev_PyMem_Realloc p bytes (Some q));; mret (Some q)
  else log (Ev_PyMem_Realloc p bytes None);; mret None.

Definition PyMem_Free (p : nat) : M unit := log (Ev_PyMem_Free p).

(** The three adapters handed to [picosat_minit]; [mmgr] is the memory
    manager state the engine passes back, which they do not look at. *)
Definition py_malloc (mmgr : option nat) (bytes : Z) : M (option nat) :=
  PyMem_Malloc bytes.

Definition py_realloc (mmgr : option nat) (ptr : nat) (old new : Z) : M (option nat) :=
  PyMem_Realloc ptr new.

Definition py_free (mmgr : option nat) (ptr : nat) (bytes : Z) : M unit :=
  PyMem_Free ptr.

(** ** The engine *)

(** The allocator an engine instance is created with: the state and the
    three functions of [picosat_minit]'s arguments. *)
Record allocator := mkAllocator {
  mmgr : option nat;
  enew : option nat → Z → M (option nat);
  eresize : option nat → nat → Z → Z → M (option nat);
  edelete : option nat → nat → Z → M unit
}.

Definition PICOSAT_UNKNOWN : Z := 0.
Definition PICOSAT_SATISFIABLE : Z := 10.
Definition PICOSAT_UNSATISFIABLE : Z := 20.

(** Modelled from the spec: picosat.c and picosat.h are not part of the
    sources of the binding.  An engine instance keeps the clauses it was
    given (a clause is closed by the terminator 0), tracks the variable
    range 1..[max_var] it has seen or was asked to reserve, its verbosity
    and the propagation limit if one was installed, and, after a search, the
    value of every variable (1 true, -1 false). *)
Record PicoSAT := mkPicoSAT {
  handle : nat;                  (* identity of the instance *)
  max_var : Z;                   (* picosat_variables *)
  clauses : list (list Z);       (* terminated clauses, oldest first *)
  open_clause : list Z;          (* literals since the last terminator *)
  verbosity : Z;
  proplimit : option Z;          (* None: no limit installed *)
  vals : Z → Z;                  (* picosat_deref after the last search *)
  calls : nat;                   (* searches run so far *)
  mm : allocator                 (* the allocator it was created with *)
}.

(** Modelled from the spec: [new(allocator) -> handle].  The instance
    keeps the allocator it is given, the only one it has; the memory it
    asks of it is asked by the engine's own code. *)
Definition picosat_minit (mgr : option nat)
    (new : option nat → Z → M (option nat))
    (resize : option nat → nat → Z → Z → M (option nat))
    (delete : option nat → nat → Z → M unit) : M PicoSAT :=
  h ← fresh_addr;
  log (Ev_minit h);;
  mret (mkPicoSAT h 0 [] [] 0 None (λ _, 0) 0 (mkAllocator mgr new resize delete)).

(** Modelled from the spec: [set_verbosity(handle, level)]. *)
Definition picosat_set_verbosity (ps : PicoSAT) (level : Z) : PicoSAT :=
  mkPicoSAT (handle ps) (max_var ps) (clauses ps) (open_clause ps)
            level (proplimit ps) (vals ps) (calls ps) (mm ps).

(** Modelled from the spec: [reserve_variables(handle, n)] pre-sizes the
    variable table to [n] variables; it never shrinks it. *)
Definition picosat_adjust (ps : PicoSAT) (n : Z) : PicoSAT :=
  mkPicoSAT (handle ps) (Z.max (max_var ps) n) (clauses ps) (open_clause ps)
            (verbosity ps) (proplimit ps) (vals ps) (calls ps) (mm ps).

(** Modelled from the spec: [set_propagation_limit(handle, limit)]. *)
Definition picosat_set_propagation_limit (ps : PicoSAT) (l : Z) : PicoSAT :=
  mkPicoSAT (handle ps) (max_var ps) (clauses ps) (open_clause ps)
            (verbosity ps) (Some l) (vals ps) (calls ps) (mm ps).

(** Modelled from the spec: [add_literal(handle, int)] and
    [terminate_clause(handle)] ("add 0").  A literal extends the variable
    range to its index when that is new. *)
Definition picosat_add (ps : PicoSAT) (lit : Z) : PicoSAT :=
  if lit =? 0 then
    mkPicoSAT (handle ps) (max_var ps) (clauses ps ++ [open_clause ps]) []
              (verbosity ps) (proplimit ps) (vals ps) (calls ps) (mm ps)
  else
    mkPicoSAT (handle ps) (Z.max (max_var ps) (Z.abs lit)) (clauses ps)
              (open_clause ps ++ [lit])
              (verbosity ps) (proplimit ps) (vals ps) (calls ps) (mm ps).

(** Modelled from the spec: [variable_count(handle) -> int]. *)
Definition picosat_variables (ps : PicoSAT) : Z := max_var ps.

(** Modelled from the spec: [value_of(handle, var_index)]. *)
Definition picosat_deref (ps : PicoSAT) (i : Z) : Z := vals ps i.

(** Modelled from the spec: [reset(handle)] releases the instance.  The
    release is an event of the trace; the state of the instance is not
    touched, and what the engine does with an instance after its release is
    not part of its contract. *)
Definition picosat_reset (ps : PicoSAT) : M unit := log (Ev_reset (handle ps)).

(** Modelled from the spec: at verbosity 2 and above the binding has the
    engine write its clauses to stdout, which leaves the instance as it is. *)
Definition picosat_print (ps : PicoSAT) : M unit := log (Ev_print (handle ps)).

(** What an engine can ask of the allocator it holds: a block, a block
    resized, a block taken back. *)
Inductive mm_call :=
| Mm_new (bytes : Z)
| Mm_resize (ptr : nat) (old new : Z)
| Mm_delete (ptr : nat) (bytes : Z).

(** Modelled from the spec: the engine gets all its memory from the
    allocator it was created with (4.1).  The call [c] as the instance
    makes it, through the functions and the state it holds. *)
Definition engine_mm_call (ps : PicoSAT) (c : mm_call) : M unit :=
  let a := mm ps in
  match c with
  | Mm_new bytes => _ ← enew a (mmgr a) bytes; mret tt
  | Mm_resize ptr old new => _ ← eresize a (mmgr a) ptr old new; mret tt
  | Mm_delete ptr bytes => edelete a (mmgr a) ptr bytes
  end.

(** ** The binding *)

(** The arguments of [solve] and [itersolve] once parsed by
    [PyArg_ParseTupleAndKeywords] with format "O|iiK": [vars] and [verbose]
    are C ints, [prop_limit] an unsigned long long. *)
Record kwargs := mkArgs {
  arg_clauses : nat;
  arg_vars : Z;                  (* default -1 *)
  arg_verbose : Z;               (* default 0 *)
  arg_prop_limit : Z             (* default 0 *)
}.

(** Argument parsing is glue outside the binding's logic: [None] stands for
    arguments the parser refuses, which it reports by a TypeError. *)
Definition PyArg_ParseTupleAndKeywords (args : option kwargs) : M (option kwargs) :=
  match args with
  | Some a => mret (Some a)
  | None => PyErr_SetString PyExc_TypeError "(iter)solve: bad arguments";; mret None
  end.

(** A new list of [n] empty (NULL) slots, a slot being written 0 here. *)
Definition PyList_New (n : Z) : M (option (list Z)) :=
  if n <? 0 then
    PyErr_SetString PyExc_SystemError "bad argument to internal function";;
    mret None
  else
    ok ← host_alloc;
    log (Ev_PyList_New n ok);;
    if ok : bool then mret (Some (replicate (Z.to_nat n) 0))
    else PyErr_NoMemory;; mret None.

(** The preallocated ints of the interpreter, which [PyInt_FromLong] hands
    out without allocating. *)
Definition small_int (z : Z) : bool := (-5 <=? z) && (z <=? 256).

(** [PyInt_FromLong] ([PyLong_FromLong] on Python 3): a reference to the int
    object, NULL (None) with MemoryError when a new object cannot be
    allocated. *)
Definition PyInt_FromLong (z : Z) : M (option Z) :=
  if small_int z then mret (Some z)
  else
    ok ← host_alloc;
    if ok : bool then mret (Some z) else PyErr_NoMemory;; mret None.

(** [PyList_SetItem] stores the reference it is given, NULL included: the
    slot is then empty (0). *)
Definition PyList_SetItem (lst : list Z) (i : Z) (item : option Z) : M (Z * list Z) :=
  if bool_decide (0 ≤ i < Z.of_nat (length lst)) then
    mret (0, <[Z.to_nat i := default 0 item]> lst)
  else
    PyErr_SetString PyExc_IndexError "list assignment index out of range";;
    mret (-1, lst).

Definition PyUnicode_FromString (s : string) : M (option string) :=
  ok ← host_alloc;
  log (Ev_PyUnicode_FromString s ok);;
  if ok : bool then mret (Some s) else PyErr_NoMemory;; mret None.

Definition PyObject_GC_New : M bool :=
  ok ← host_alloc;
  log (Ev_GC_New ok);;
  if ok : bool then mret true else PyErr_NoMemory;; mret false.

(** What a function of the module hands back to the interpreter. *)
Inductive PyObject :=
| Py_NULL
| Py_List (items : list Z)
| Py_Unicode (s : string).

(** The polarity bytes of [blocksol]'s first loop: [mem[i]] for i = 1..max_idx. *)
Definition blocksol_fill (picosat : PicoSAT) (max_idx : Z) (mem : list Z) : list Z :=
  foldl (λ mem i, <[Z.to_nat i := if 0 <? picosat_deref picosat i then 1 else -1]> mem)
        mem (seqZ 1 max_idx).

(** The literals of [blocksol]'s second loop. *)
Definition blocksol_push (picosat : PicoSAT) (max_idx : Z) (mem : list Z) : PicoSAT :=
  foldl (λ picosat i, picosat_add picosat (if (mem !!! Z.to_nat i) <? 0 then i else - i))
        picosat (seqZ 1 max_idx).

(** [blocksol]: [mem] is the pointer argument, passed by value; the
    contents of the buffer are written and read within the call. *)
Definition blocksol (picosat : PicoSAT) (mem : option nat) : M (Z * PicoSAT) :=
  let max_idx := picosat_variables picosat in
  mem ← match mem with
        | None => PyMem_Malloc (max_idx + 1)
        | Some p => mret (Some p)
        end;
  match mem with
  | None => PyErr_NoMemory;; mret (-1, picosat)
  | Some _ =>
      let bytes := blocksol_fill picosat max_idx (replicate (Z.to_nat (max_idx + 1)) 0) in
      let picosat := blocksol_push picosat max_idx bytes in
      mret (0, picosat_add picosat 0)
  end.

(** The loop of [add_clause] over the indices [idx] of the clause; the
    status is -1 as soon as an iteration returns. *)
Fixpoint add_clause_loop (picosat : PicoSAT) (clause : nat) (idx : list nat)
  : M (Z * PicoSAT) :=
  match idx with
  | [] => mret (0, picosat)
  | i :: idx =>
      lit ← PyList_GetItem clause i;
      match lit with
      | None => mret (-1, picosat)
      | Some lit =>
          is_int ← IS_INT lit;
          if negb is_int then
            PyErr_SetString PyExc_TypeError "interger expected";;
            mret (-1, picosat)
          else
            v ← PyLong_AsLong lit;
            let v := int_of_long v in
            if v =? 0 then
              PyErr_SetString PyExc_ValueError "non-zero interger expected";;
              mret (-1, picosat)
            else add_clause_loop (picosat_add picosat v) clause idx
      end
  end.

Definition add_clause (picosat : PicoSAT) (clause : nat) : M (Z * PicoSAT) :=
  is_list ← PyList_Check clause;
  if negb is_list then
    PyErr_SetString PyExc_TypeError "list expected";; mret (-1, picosat)
  else
    n ← PyList_Size clause;
    '(st, picosat) ← add_clause_loop picosat clause (seq 0 n);
    if st <? 0 then mret (-1, picosat)
    else mret (0, picosat_add picosat 0).

Fixpoint add_clauses_loop (picosat : PicoSAT) (clauses : nat) (idx : list nat)
  : M (Z * PicoSAT) :=
  match idx with
  | [] => mret (0, picosat)
  | i :: idx =>
      item ← PyList_GetItem clauses i;
      match item with
      | None => mret (-1, picosat)
      | Some item =>
          '(st, picosat) ← add_clause picosat item;
          if st <? 0 then mret (-1, picosat)
          else add_clauses_loop picosat clauses idx
      end
  end.

Definition add_clauses (picosat : PicoSAT) (clauses : nat) : M (Z * PicoSAT) :=
  is_list ← PyList_Check clauses;
  if negb is_list then
    PyErr_SetString PyExc_TypeError "list expected";; mret (-1, picosat)
  else
    n ← PyList_Size clauses;
    add_clauses_loop picosat clauses (seq 0 n).

Definition setup_picosat (args : option kwargs) : M (option PicoSAT) :=
  parsed ← PyArg_ParseTupleAndKeywords args;
  match parsed with
  | None => mret None
  | Some a =>
      picosat ← picosat_minit None py_malloc py_realloc py_free;
      let picosat := picosat_set_verbosity picosat (arg_verbose a) in
      let picosat :=
        if arg_vars a =? -1 then picosat else picosat_adjust picosat (arg_vars a) in
      let picosat :=
        if arg_prop_limit a =? 0 then picosat
        else picosat_set_propagation_limit picosat (arg_prop_limit a) in
      '(st, picosat) ← add_clauses picosat (arg_clauses a);
      if st <? 0 then picosat_reset picosat;; mret None
      else
        (if 2 <=? arg_verbose a then picosat_print picosat else mret tt);;
        mret (Some picosat)
  end.

(** The loop of [get_solution]; the assertion on [v] is compiled out, and
    the result of [PyInt_FromLong] goes to [PyList_SetItem] unchecked. *)
Fixpoint get_solution_loop (picosat : PicoSAT) (idx : list Z) (lst : list Z)
  : M (option (list Z)) :=
  match idx with
  | [] => mret (Some lst)
  | i :: idx =>
      let v := picosat_deref picosat i in
      item ← PyInt_FromLong (v * i);
      '(st, lst) ← PyList_SetItem lst (i - 1) item;
      if st <? 0 then picosat_reset picosat;; mret None
      else get_solution_loop picosat idx lst
  end.

Definition get_solution (picosat : PicoSAT) : M (option (list Z)) :=
  let max_idx := picosat_variables picosat in
  lst ← PyList_New max_idx;
  match lst with
  | None => picosat_reset picosat;; mret None
  | Some lst => get_solution_loop picosat (seqZ 1 max_idx) lst
  end.

Definition of_list (r : option (list Z)) : PyObject :=
  match r with Some l => Py_List l | None => Py_NULL end.

Definition of_string (r : option string) : PyObject :=
  match r with Some s => Py_Unicode s | None => Py_NULL end.

(** The iterator object: its fields [picosat], the engine instance it owns,
    and [mem], the address of its temporary storage (None is NULL).  It has
    no other field. *)
Record soliterobject := mkIter {
  it_picosat : PicoSAT;
  it_mem : option nat
}.

(** [soliter_traverse] calls [visit] on nothing: the references the garbage
    collector learns of. *)
Definition soliter_traverse (it : soliterobject) : list nat * Z := ([], 0).

Definition soliter_dealloc (it : soliterobject) : M unit :=
  log Ev_GC_UnTrack;;
  match it_mem it with
  | Some p => PyMem_Free p
  | None => mret tt
  end;;
  picosat_reset (it_picosat it);;
  log Ev_GC_Del.

Section Binding.

(** The search of the engine: from the instance and the decision limit
    passed to [picosat_sat], the result code and the values of the
    variables.  The event [Ev_sat] stands for the whole call; the requests
    the engine makes of its allocator while it runs are described by
    [engine_mm_call]. *)
Variable engine_search : PicoSAT → Z → Z * (Z → Z).

Definition picosat_sat (ps : PicoSAT) (decision_limit : Z) : M (Z * PicoSAT) :=
  let '(res, v) := engine_search ps decision_limit in
  log (Ev_sat (handle ps) res);;
  mret (res, mkPicoSAT (handle ps) (max_var ps) (clauses ps) (open_clause ps)
                       (verbosity ps) (proplimit ps) v (S (calls ps)) (mm ps)).

Definition solve (args : option kwargs) : M PyObject :=
  picosat ← setup_picosat args;
  match picosat with
  | None => mret Py_NULL
  | Some picosat =>
      log Ev_gil_release;;
      '(res, picosat) ← picosat_sat picosat (-1);
      log Ev_gil_acquire;;
      result ←
        (if res =? PICOSAT_SATISFIABLE then
           r ← get_solution picosat; mret (of_list r)
         else if res =? PICOSAT_UNSATISFIABLE then
           r ← PyUnicode_FromString "UNSAT"; mret (of_string r)
         else if res =? PICOSAT_UNKNOWN then
           r ← PyUnicode_FromString "UNKNOWN"; mret (of_string r)
         else
           PyErr_Format PyExc_SystemError "picosat return value: %d" res;;
           mret Py_NULL);
      picosat_reset picosat;;
      mret result
  end.

Definition itersolve (args : option kwargs) : M (option soliterobject) :=
  it ← PyObject_GC_New;
  if negb it then mret None
  else
    picosat ← setup_picosat args;
    match picosat with
    | None => mret None
    | Some picosat =>
        log Ev_GC_Track;;
        mret (Some (mkIter picosat None))
    end.

(** [soliter_next]: the result (None is NULL) and the iterator as the call
    leaves it.  NULL without an error set ends the iteration. *)
Definition soliter_next (it : soliterobject) : M (option (list Z) * soliterobject) :=
  log Ev_gil_release;;
  '(res, picosat) ← picosat_sat (it_picosat it) (-1);
  log Ev_gil_acquire;;
  let it := mkIter picosat (it_mem it) in
  if res =? PICOSAT_SATISFIABLE then
    result ← get_solution (it_picosat it);
    match result with
    | None =>
        PyErr_SetString PyExc_SystemError "failed to create list";;
        mret (None, it)
    | Some result =>
        '(st, picosat) ← blocksol (it_picosat it) (it_mem it);
        let it := mkIter picosat (it_mem it) in
        if st <? 0 then mret (None, it)
        else mret (Some result, it)
    end
  else if (res =? PICOSAT_UNSATISFIABLE) || (res =? PICOSAT_UNKNOWN) then
    mret (None, it)
  else
    PyErr_Format PyExc_SystemError "picosat return value: %d" res;;
    mret (None, it).

End Binding.

(** ** Clause sets and their meaning *)

(** Standard semantics: a literal is a variable or its negation, a clause
    the disjunction of its literals, a clause set the conjunction of its
    clauses. *)
Definition eval_lit (a : Z → bool) (l : Z) : bool :=
  if 0 <? l then a l else negb (a (- l)).

Definition eval_clause (a : Z → bool) (c : list Z) : bool :=
  existsb (eval_lit a) c.

Definition eval_cnf (a : Z → bool) (cs : list (list Z)) : bool :=
  forallb (eval_clause a) cs.

(** The assignment a returned list of signed indices stands for: variable
    [i] is true when [+i] is in the list. *)
Definition assignment_of (sol : list Z) : Z → bool :=
  λ i, bool_decide (i ∈ sol).

(** All total assignments over the variables 1..n, as the binding writes
    them: position k holds [+(k+1)] or [-(k+1)]. *)
Fixpoint all_assignments (n : nat) : list (list Z) :=
  match n with
  | O => [[]]
  | S m =>
      flat_map (λ a, [a ++ [- Z.of_nat n]; a ++ [Z.of_nat n]]) (all_assignments m)
  end.

(** The satisfying assignments of a clause set over the variables 1..n. *)
Definition models (n : nat) (cs : list (list Z)) : list (list Z) :=
  List.filter (λ s, eval_cnf (assignment_of s) cs) (all_assignments n).

(** The clause set an argument denotes, when it is a list of lists of ints. *)
Definition read_int (h : gmap nat pyval) (p : nat) : option Z :=
  match h !! p with Some (PyLongV z) => Some z | _ => None end.

Definition read_clause (h : gmap nat pyval) (p : nat) : option (list Z) :=
  match h !! p with Some (PyListV items) => mapM (read_int h) items | _ => None end.

Definition read_clauses (h : gmap nat pyval) (p : nat) : option (list (list Z)) :=
  match h !! p with Some (PyListV items) => mapM (read_clause h) items | _ => None end.

(** A valid clause set: no literal is 0 and every literal is a C int whose
    negation is one too. *)
Definition valid_lit (l : Z) : bool := negb (l =? 0) && (Z.abs l <=? INT_MAX).

Definition valid_clauses (cs : list (list Z)) : bool :=
  forallb (forallb valid_lit) cs.

(** The largest variable index among literals, and of a clause set. *)
Definition max_abs (ls : list Z) : Z := foldr Z.max 0 (map Z.abs ls).

Definition max_index (cs : list (list Z)) : Z := max_abs (concat cs).


(** ** The engine's contract *)

(** The instances the binding hands to the search: no clause is left open
    and every literal is within the variable range. *)
Definition wf_engine (ps : PicoSAT) : Prop :=
  open_clause ps = [] ∧ 0 ≤ max_var ps ∧
  ∀ c l, c ∈ clauses ps → l ∈ c → l ≠ 0 ∧ Z.abs l ≤ max_var ps.

(** SATISFIABLE: every variable has a value and the values satisfy every
    clause added. *)
Definition sat_contract (e : PicoSAT → Z → Z * (Z → Z)) : Prop :=
  ∀ ps, wf_engine ps → (e ps (-1)).1 = PICOSAT_SATISFIABLE →
    (∀ i, 1 ≤ i ≤ max_var ps → (e ps (-1)).2 i = 1 ∨ (e ps (-1)).2 i = -1) ∧
    eval_cnf (λ i, 0 <? (e ps (-1)).2 i) (clauses ps) = true.

(** UNSATISFIABLE: no assignment satisfies the clauses added. *)
Definition unsat_contract (e : PicoSAT → Z → Z * (Z → Z)) : Prop :=
  ∀ ps, wf_engine ps → (e ps (-1)).1 = PICOSAT_UNSATISFIABLE →
    ∀ a, eval_cnf a (clauses ps) = false.

(** UNKNOWN arises only from an installed propagation limit. *)
Definition unknown_contract (e : PicoSAT → Z → Z * (Z → Z)) : Prop :=
  ∀ ps, (e ps (-1)).1 = PICOSAT_UNKNOWN → proplimit ps ≠ None.

(** The search answers with one of the three result codes. *)
Definition codes_contract (e : PicoSAT → Z → Z * (Z → Z)) : Prop :=
  ∀ ps, (e ps (-1)).1 = PICOSAT_SATISFIABLE ∨
        (e ps (-1)).1 = PICOSAT_UNSATISFIABLE ∨
        (e ps (-1)).1 = PICOSAT_UNKNOWN.

(** ** A reference engine

    Exhaustive search over the variable range, in the order of
    [all_assignments]; an installed propagation limit smaller than the
    number of candidates, or a decision limit that is, ends the search
    undecided. *)
Definition values_of (s : list Z) : Z → Z :=
  λ i, if bool_decide (i ∈ s) then 1 else if bool_decide (- i ∈ s) then -1 else 0.

Definition ref_budget (ps : PicoSAT) (decision_limit : Z) : bool :=
  let work := 2 ^ max_var ps in
  match proplimit ps with Some l => l <? work | None => false end
  || ((0 <=? decision_limit) && (decision_limit <? work)).

Definition ref_search (ps : PicoSAT) (decision_limit : Z) : Z * (Z → Z) :=
  if ref_budget ps decision_limit then (PICOSAT_UNKNOWN, vals ps)
  else
    match List.find (λ s, eval_cnf (assignment_of s) (clauses ps))
                    (all_assignments (Z.to_nat (max_var ps))) with
    | Some s => (PICOSAT_SATISFIABLE, values_of s)
    | None => (PICOSAT_UNSATISFIABLE, vals ps)
    end.

(** ** Running an iterator *)

(** [n] calls of [soliter_next] in a row: the results, oldest first, and
    the iterator they leave. *)
Fixpoint advances (e : PicoSAT → Z → Z * (Z → Z)) (n : nat) (it : soliterobject)
  : M (list (option (list Z)) * soliterobject) :=
  match n with
  | O => mret ([], it)
  | S n =>
      '(r, it) ← soliter_next e it;
      '(rs, it) ← advances e n it;
      mret (r :: rs, it)
  end.

(** A world in which nothing has happened yet. *)
Definition world0 (h : gmap nat pyval) : World := mkWorld h None [] [].

Definition default_args (clauses : nat) : kwargs := mkArgs clauses (-1) 0 0.

(** ** Notions used by the statements and proofs *)

(** A list is a total assignment over 1..n when position k holds +(k+1) or
    -(k+1). *)
Definition total_over (n : nat) (s : list Z) : Prop :=
  length s = n ∧ ∀ k x, s !! k = Some x → Z.abs x = Z.of_nat k + 1.

(** The clauses of a clause set pushed in order, each closed by 0. *)
Definition load_clauses (ps : PicoSAT) (cs : list (list Z)) : PicoSAT :=
  foldl (λ ps c, picosat_add (foldl picosat_add ps c) 0) ps cs.

(** The clause [blocksol] builds from the values [v] of the variables
    1..n: for each variable the literal of the opposite sign. *)
Definition block_clause (v : Z → Z) (n : Z) : list Z :=
  map (λ i, if 0 <? v i then - i else i) (seqZ 1 n).

(** The engine after [blocksol]'s two loops and the terminator. *)
Definition blocked (ps : PicoSAT) : PicoSAT :=
  mkPicoSAT (handle ps) (max_var ps)
            (clauses ps ++ [block_clause (vals ps) (max_var ps)]) []
            (verbosity ps) (proplimit ps) (vals ps) (calls ps) (mm ps).

(** What reaches the engine for the Python int [z]: [PyLong_AsLong]
    followed by the conversion to [int]. *)
Definition int_of_pylong (z : Z) : Z :=
  int_of_long (if bool_decide (in_long z) then z else -1).

(** Two worlds that differ at most in the error indicator. *)
Definition same_objects (w w' : World) : Prop :=
  heap w' = heap w ∧ oom w' = oom w ∧ trace w' = trace w.

(** The error [add_clause] raises for a literal that is 0 as a C int. *)
Definition zero_literal_error : pyexc :=
  mkExc PyExc_ValueError "non-zero interger expected" None.

(** The outcome of loading literals: either all were pushed (status 0), or
    the load stopped at the first one that is not an int or converts to 0. *)
Definition loaded_lits (h : gmap nat pyval) (items : list nat) (ps : PicoSAT)
    (w : World) (st : Z) (ps' : PicoSAT) (w' : World) : Prop :=
  (st = 0 ∧ ∃ zs, mapM (read_int h) items = Some zs ∧
     Forall (λ z, int_of_pylong z ≠ 0) zs ∧
     ps' = foldl picosat_add ps (map int_of_pylong zs) ∧
     (Forall in_long zs → w' = w)) ∨
  (st = -1 ∧ ∀ zs, mapM (read_int h) items = Some zs →
     Exists (λ z, int_of_pylong z = 0) zs ∧ pyerr w' = Some zero_literal_error).

Definition loaded_clause (h : gmap nat pyval) (p : nat) (ps : PicoSAT)
    (w : World) (st : Z) (ps' : PicoSAT) (w' : World) : Prop :=
  (st = 0 ∧ ∃ c, read_clause h p = Some c ∧
     Forall (λ z, int_of_pylong z ≠ 0) c ∧
     ps' = picosat_add (foldl picosat_add ps (map int_of_pylong c)) 0 ∧
     (Forall in_long c → w' = w)) ∨
  (st = -1 ∧ ∀ c, read_clause h p = Some c →
     Exists (λ z, int_of_pylong z = 0) c ∧ pyerr w' = Some zero_literal_error).

Definition loaded_clauses (h : gmap nat pyval) (items : list nat) (ps : PicoSAT)
    (w : World) (st : Z) (ps' : PicoSAT) (w' : World) : Prop :=
  (st = 0 ∧ ∃ cs, mapM (read_clause h) items = Some cs ∧
     Forall (Forall (λ z, int_of_pylong z ≠ 0)) cs ∧
     ps' = load_clauses ps (map (map int_of_pylong) cs) ∧
     (Forall (Forall in_long) cs → w' = w)) ∨
  (st = -1 ∧ ∀ cs, mapM (read_clause h) items = Some cs →
     Exists (Exists (λ z, int_of_pylong z = 0)) cs ∧
     pyerr w' = Some zero_literal_error).

(** The allocator [setup_picosat] creates its instance with. *)
Definition py_allocator : allocator := mkAllocator None py_malloc py_realloc py_free.

(** The new instance after the configuration steps of [setup_picosat]. *)
Definition configured (h : nat) (a : kwargs) : PicoSAT :=
  let picosat := mkPicoSAT h 0 [] [] 0 None (λ _, 0) 0 py_allocator in
  let picosat := picosat_set_verbosity picosat (arg_verbose a) in
  let picosat :=
    if arg_vars a =? -1 then picosat else picosat_adjust picosat (arg_vars a) in
  if arg_prop_limit a =? 0 then picosat
  else picosat_set_propagation_limit picosat (arg_prop_limit a).

(** The session [setup_picosat] returns for the clause set [cs]. *)
Definition session (h : nat) (a : kwargs) (cs : list (list Z)) : PicoSAT :=
  load_clauses (configured h a) (map (map int_of_pylong) cs).

(** The list [get_solution] builds: [v * i] for the variables i = 1..max_idx. *)
Definition decode (ps : PicoSAT) : list Z :=
  map (λ i, vals ps i * i) (seqZ 1 (max_var ps)).

(** The items [get_solution]'s loop stores for the values [zs] when the
    coming host allocations are [o]: an int outside the preallocated range
    needs one allocation, and leaves its slot empty (0) when that fails.
    With the items, the allocations left and whether one failed. *)
Fixpoint store_items (zs : list Z) (o : list bool) : list Z * (list bool * bool) :=
  match zs with
  | [] => ([], (o, false))
  | z :: zs =>
      if small_int z then
        let r := store_items zs o in (z :: r.1, r.2)
      else
        match o with
        | true :: o' => let r := store_items zs o' in (0 :: r.1, (r.2.1, true))
        | _ => let r := store_items zs (tail o) in (z :: r.1, r.2)
        end
  end.

(** The allocations the loop needs for the values [zs]. *)
Definition boxed (zs : list Z) : nat :=
  length (List.filter (λ z, negb (small_int z)) zs).

Definition memory_error : pyexc := mkExc PyExc_MemoryError "" None.

(** The engine after a search: the values and the call count change. *)
Definition searched (e : PicoSAT → Z → Z * (Z → Z)) (ps : PicoSAT) : PicoSAT :=
  mkPicoSAT (handle ps) (max_var ps) (clauses ps) (open_clause ps)
            (verbosity ps) (proplimit ps) (e ps (-1)).2 (S (calls ps)) (mm ps).

(** The events of an engine invocation as [solve] and [soliter_next]
    perform it. *)
Definition invocation (h : nat) (res : Z) : list event :=
  [Ev_gil_release; Ev_sat h res; Ev_gil_acquire].

(** The world after the events [evs]. *)
Definition emit (evs : list event) (w : World) : World :=
  mkWorld (heap w) (pyerr w) (oom w) (trace w ++ evs).

(** An instance on which [get_solution] and [blocksol] can run. *)
Definition ready (ps : PicoSAT) : Prop := 0 ≤ max_var ps ∧ open_clause ps = [].

(** The states an iterator goes through: as [itersolve] returns it, and
    after each call of [soliter_next], whatever the host did in between. *)
Inductive reachable (e : PicoSAT → Z → Z * (Z → Z)) : soliterobject → Prop :=
| reach_new args w it w' :
    itersolve args w = (Some it, w') → reachable e it
| reach_next it w r it' w' :
    reachable e it → soliter_next e it w = ((r, it'), w') → reachable e it'.


(** A computation that neither reads nor writes the caller's objects: run
    on another heap it does the same and leaves that heap as it was. *)
Definition heap_blind {A} (c : M A) : Prop :=
  ∀ h' w, c (set_heap h' w) = ((c w).1, set_heap h' (c w).2).

(** Where the calling thread stands with respect to the GIL. *)
Inductive gil_state := Gil_held | Gil_released | Gil_engine_returned.

(** The lock is given up only to run the engine's search, which is the
    next thing to happen; the lock is taken back as soon as the search
    returns; everything else happens with the lock held. *)
Definition gil_step (s : gil_state) (ev : event) : option gil_state :=
  match s, ev with
  | Gil_held, Ev_gil_release => Some Gil_released
  | Gil_held, Ev_gil_acquire => None
  | Gil_held, Ev_sat _ _ => None
  | Gil_held, _ => Some Gil_held
  | Gil_released, Ev_sat _ _ => Some Gil_engine_returned
  | Gil_released, _ => None
  | Gil_engine_returned, Ev_gil_acquire => Some Gil_held
  | Gil_engine_returned, _ => None
  end.

Fixpoint gil_run (s : gil_state) (evs : list event) : option gil_state :=
  match evs with
  | [] => Some s
  | ev :: evs =>
      match gil_step s ev with
      | Some s' => gil_run s' evs
      | None => None
      end
  end.

(** An event of the binding other than the hand-over of the lock and the
    search. *)
Definition host_event (ev : event) : bool :=
  match ev with
  | Ev_gil_release | Ev_gil_acquire | Ev_sat _ _ => false
  | _ => true
  end.

(** The computation performs host events only. *)
Definition host_only {A} (c : M A) : Prop :=
  ∀ w, ∃ evs, trace (c w).2 = trace w ++ evs ∧ forallb host_event evs = true.

(** The clause sets [[1, 2]], [[2]], [[1], [-1]] and [[1, 0]] as the caller
    holds them: the outer list at address 0. *)
Definition heap_12 : gmap nat pyval :=
  list_to_map [(0%nat, PyListV [1%nat]); (1%nat, PyListV [2%nat; 3%nat]);
               (2%nat, PyLongV 1); (3%nat, PyLongV 2)].


Definition heap_unsat : gmap nat pyval :=
  list_to_map [(0%nat, PyListV [1%nat; 2%nat]); (1%nat, PyListV [3%nat]);
               (2%nat, PyListV [4%nat]); (3%nat, PyLongV 1); (4%nat, PyLongV (-1))].

Definition heap_zero : gmap nat pyval :=
  list_to_map [(0%nat, PyListV [1%nat]); (1%nat, PyListV [2%nat; 3%nat]);
               (2%nat, PyLongV 1); (3%nat, PyLongV 0)].

(** [[4294967297]], that is [[2^32 + 1]]: a literal that fits a C long and
    not a C int; and the iterator [itersolve] returns for it. *)
Definition heap_wide : gmap nat pyval :=
  list_to_map [(0%nat, PyListV [1%nat]); (1%nat, PyListV [2%nat]);
               (2%nat, PyLongV 4294967297)].

Definition it_wide : soliterobject :=
  mkIter (session 1 (default_args 0) [[4294967297]]) None.

(** The iterators [itersolve] returns for [[1, 2]] (by default, and with
    [prop_limit = 1]) and for [[1], [-1]]. *)
Definition it_12 : soliterobject :=
  mkIter (session 1 (default_args 0) [[1; 2]]) None.


Definition it_unsat : soliterobject :=
  mkIter (session 1 (default_args 0) [[1]; [-1]]) None.

(** ** Validation, in list order *)

Definition overflow_error : pyexc :=
  mkExc PyExc_OverflowError "Python int too large to convert to C long" None.

Definition list_expected : pyexc := mkExc PyExc_TypeError "list expected" None.

Definition integer_expected : pyexc := mkExc PyExc_TypeError "interger expected" None.

(** The error of the first element that has one. *)
Fixpoint first_error {A} (f : A → option pyexc) (l : list A) : option pyexc :=
  match l with
  | [] => None
  | x :: l => match f x with Some e => Some e | None => first_error f l end
  end.

(** The checks of [add_clause] on one item, of [add_clause] on a clause and
    of [add_clauses] on the argument, as a scan of the caller's objects. *)
Definition scan_lit (h : gmap nat pyval) (q : nat) : option pyexc :=
  match h !! q with
  | Some (PyLongV z) => if int_of_pylong z =? 0 then Some zero_literal_error else None
  | _ => Some integer_expected
  end.

Definition scan_clause (h : gmap nat pyval) (p : nat) : option pyexc :=
  match h !! p with
  | Some (PyListV items) => first_error (scan_lit h) items
  | _ => Some list_expected
  end.

Definition scan_clauses (h : gmap nat pyval) (p : nat) : option pyexc :=
  match h !! p with
  | Some (PyListV items) => first_error (scan_clause h) items
  | _ => Some list_expected
  end.

(** Whether an int among the items, or among the items of a clause among
    them, does not fit a C long. *)
Definition overflows (h : gmap nat pyval) (q : nat) : bool :=
  match h !! q with
  | Some (PyLongV z) => negb (bool_decide (in_long z))
  | _ => false
  end.

Definition clause_overflows (h : gmap nat pyval) (p : nat) : bool :=
  match h !! p with
  | Some (PyListV items) => existsb (overflows h) items
  | _ => false
  end.

Definition clauses_overflow (h : gmap nat pyval) (p : nat) : bool :=
  match h !! p with
  | Some (PyListV items) => existsb (clause_overflows h) items
  | _ => false
  end.

(** The error indicator after a load that went through. *)
Definition after_load (overflowed : bool) (err : option pyexc) : option pyexc :=
  if overflowed then Some overflow_error else err.

Definition set_pyerr (err : option pyexc) (w : World) : World :=
  mkWorld (heap w) err (oom w) (trace w).

(** [[1, None], 5] as the caller holds it: a clause with an item that is no
    int, followed by an item that is no list. *)
Definition heap_mixed : gmap nat pyval :=
  list_to_map [(0%nat, PyListV [1%nat; 2%nat]); (1%nat, PyListV [3%nat; 4%nat]);
               (2%nat, PyLongV 5); (3%nat, PyLongV 1); (4%nat, PyOtherV)].

(** [[2^64]]: one literal that does not fit a C long. *)
Definition heap_huge : gmap nat pyval :=
  list_to_map [(0%nat, PyListV [1%nat]); (1%nat, PyListV [2%nat]);
               (2%nat, PyLongV (2 ^ 64))].

(** Whether the allocation of a result list failed among the events. *)
Definition list_failed (evs : list event) : bool :=
  existsb (λ ev, match ev with Ev_PyList_New _ false => true | _ => false end) evs.

(** [[]]: the clause set of one clause without literals. *)
Definition heap_empty_clause : gmap nat pyval :=
  list_to_map [(0%nat, PyListV [1%nat]); (1%nat, PyListV [])].

(** An engine state with six variables, all false. *)
Definition engine_neg6 : PicoSAT :=
  mkPicoSAT 0 6 [] [] 0 None (λ _, -1) 1 py_allocator.

(** An engine state with two variables, the first true and the second
    false. *)
Definition engine_10 : PicoSAT :=
  mkPicoSAT 0 2 [] [] 0 None (λ i, if i =? 1 then 1 else -1) 1 py_allocator.

(** Two Python ints that are the same C int: both fit a C long and they
    differ by a multiple of 2^32. *)
Definition same_as_int (x y : Z) : Prop :=
  in_long x ∧ in_long y ∧ x mod 2 ^ 32 = y mod 2 ^ 32.

(** What [solve] returns for a session, by the answer of the engine and
    the next allocation of the host. *)
Definition solve_answer (e : PicoSAT → Z → Z * (Z → Z)) (ps : PicoSAT)
    (o : list bool) : PyObject :=
  let res := (e ps (-1)).1 in
  let made (r : PyObject) := match o with true :: _ => Py_NULL | _ => r end in
  if res =? PICOSAT_SATISFIABLE then
    made (Py_List (store_items (decode (searched e ps)) (tail o)).1)
  else if res =? PICOSAT_UNSATISFIABLE then made (Py_Unicode "UNSAT")
  else if res =? PICOSAT_UNKNOWN then made (Py_Unicode "UNKNOWN")
  else Py_NULL.

(** [[1, 2]] written with other ints: [[2^32 + 1, 2 - 2^32]]. *)
Definition heap_12_shifted : gmap nat pyval :=
  list_to_map [(0%nat, PyListV [1%nat]); (1%nat, PyListV [2%nat; 3%nat]);
               (2%nat, PyLongV 4294967297); (3%nat, PyLongV (-4294967294))].

(** An engine that answers with a code the binding does not know. *)
Definition odd_search (ps : PicoSAT) (decision_limit : Z) : Z * (Z → Z) :=
  (30, vals ps).

(** * Properties *)

(** ** Assignments and clauses *)


Lemma total_over_snoc n s x :
  total_over (S n) (s ++ [x]) ↔ total_over n s ∧ Z.abs x = Z.of_nat n + 1.
Proof.
  unfold total_over. rewrite length_app. simpl. split.
  - intros [Hlen Hpos]. assert (length s = n) as Hn by lia.
    split; [split; [done|]|].
    + intros k y Hk. apply (Hpos k y). rewrite lookup_app_l; [eapply lookup_lt_Some, Hk|done].
    + apply (Hpos n x). rewrite lookup_app_r; [lia|]. by rewrite Hn Nat.sub_diag.
  - intros [[Hn Hpos] Hx]. split; [lia|].
    intros k y Hk. destruct (decide (k < length s)%nat) as [Hlt|Hge].
    + rewrite lookup_app_l in Hk; [done|]. eauto.
    + rewrite lookup_app_r in Hk; [lia|].
      destruct (k - length s)%nat as [|j] eqn:Hj; simpl in Hk; [|done].
      simplify_eq. replace k with (length s) by lia. done.
Qed.

Lemma all_assignments_spec n s : s ∈ all_assignments n ↔ total_over n s.
Proof.
  revert s. induction n as [|n IH]; intros s.
  - simpl. rewrite list_elem_of_singleton. unfold total_over. split.
    + intros ->. split; [done|]. intros k x Hk. done.
    + intros [Hlen _]. by destruct s.
  - cbn [all_assignments]. rewrite list_elem_of_In in_flat_map. split.
    + intros (a & Ha & Hs). apply list_elem_of_In, IH in Ha.
      apply list_elem_of_In in Hs.
      rewrite !elem_of_cons in Hs. destruct Hs as [->| [->|Hs]].
      * apply total_over_snoc. split; [done|lia].
      * apply total_over_snoc. split; [done|lia].
      * by apply elem_of_nil in Hs.
    + intros Hs. destruct s as [|x s _] using rev_ind.
      { destruct Hs as [Hlen _]. done. }
      apply total_over_snoc in Hs as [Hs Hx]. exists s. split.
      * by apply list_elem_of_In, IH.
      * apply list_elem_of_In. rewrite !elem_of_cons.
        destruct (decide (0 ≤ x)); [right; left|left]; f_equal; f_equal; lia.
Qed.


Lemma elem_of_models n cs s :
  s ∈ models n cs ↔ total_over n s ∧ eval_cnf (assignment_of s) cs = true.
Proof.
  unfold models. by rewrite list_elem_of_In filter_In -list_elem_of_In all_assignments_spec.
Qed.


(** In a total assignment, a literal can only sit at the position of its
    variable, and one of the two literals of a variable does. *)
Lemma total_over_elem n s l :
  total_over n s → l ∈ s ↔ s !! Z.to_nat (Z.abs l - 1) = Some l.
Proof.
  intros [Hlen Hpos]. split.
  - intros (k & Hk)%list_elem_of_lookup. pose proof (Hpos _ _ Hk) as Hl.
    by replace (Z.to_nat (Z.abs l - 1)) with k by lia.
  - intros Hk. apply list_elem_of_lookup. eauto.
Qed.

Lemma total_over_lookup n s i :
  total_over n s → 1 ≤ i ≤ Z.of_nat n →
  s !! Z.to_nat (i - 1) = Some i ∨ s !! Z.to_nat (i - 1) = Some (- i).
Proof.
  intros [Hlen Hpos] Hi.
  destruct (lookup_lt_is_Some_2 s (Z.to_nat (i - 1))) as [x Hx]; [lia|].
  pose proof (Hpos _ _ Hx) as Habs. rewrite Hx.
  destruct (decide (0 ≤ x)); [left|right]; f_equal; lia.
Qed.

Lemma total_over_opp n s i :
  total_over n s → 1 ≤ i ≤ Z.of_nat n → - i ∈ s ↔ i ∉ s.
Proof.
  intros Hs Hi. rewrite !(total_over_elem n s) //.
  replace (Z.abs (- i) - 1) with (i - 1) by lia.
  replace (Z.abs i - 1) with (i - 1) by lia.
  destruct (total_over_lookup n s i Hs Hi) as [-> | ->]; split; intros ?;
    simplify_eq; try lia; try done.
  intros ?; simplify_eq; lia.
Qed.


(** The value of a clause depends only on the variables it mentions. *)
Lemma eval_clause_ext (n : Z) a a' c :
  (∀ l, l ∈ c → l ≠ 0 ∧ Z.abs l ≤ n) →
  (∀ i, 1 ≤ i ≤ n → a i = a' i) →
  eval_clause a c = eval_clause a' c.
Proof.
  intros Hc Ha. unfold eval_clause. induction c as [|l c IH]; [done|].
  simpl. rewrite IH; [intros; apply Hc; by right|]. f_equal.
  destruct (Hc l) as [Hl0 Hln]; [by left|]. unfold eval_lit.
  destruct (0 <? l) eqn:Hl; [apply Ha|f_equal; apply Ha]; lia.
Qed.

Lemma eval_cnf_ext (n : Z) a a' cs :
  (∀ c l, c ∈ cs → l ∈ c → l ≠ 0 ∧ Z.abs l ≤ n) →
  (∀ i, 1 ≤ i ≤ n → a i = a' i) →
  eval_cnf a cs = eval_cnf a' cs.
Proof.
  intros Hcs Ha. unfold eval_cnf. induction cs as [|c cs IH]; [done|].
  simpl. rewrite IH; [intros c0 l Hc0 Hl; apply (Hcs c0 l); [by right|done]|]. f_equal.
  apply (eval_clause_ext n); [|done]. intros l Hl. apply (Hcs c l); [by left|done].
Qed.


Lemma eval_cnf_true a cs :
  eval_cnf a cs = true ↔ ∀ c, c ∈ cs → eval_clause a c = true.
Proof.
  unfold eval_cnf. rewrite forallb_forall. by setoid_rewrite list_elem_of_In.
Qed.

(** ** The engine's bookkeeping *)

Lemma max_abs_nonneg ls : 0 ≤ max_abs ls.
Proof. unfold max_abs. induction ls; simpl; lia. Qed.

Lemma max_abs_app ls ks : max_abs (ls ++ ks) = Z.max (max_abs ls) (max_abs ks).
Proof.
  pose proof (max_abs_nonneg ks). unfold max_abs in *.
  induction ls; simpl; lia.
Qed.

Lemma max_abs_bound n ls : 0 ≤ n → (∀ l, l ∈ ls → Z.abs l ≤ n) → max_abs ls ≤ n.
Proof.
  intros Hn Hls. unfold max_abs. induction ls as [|l ls IH]; simpl; [done|].
  assert (Z.abs l ≤ n) by (apply Hls; by left).
  assert (foldr Z.max 0 (map Z.abs ls) ≤ n) by (apply IH; intros; apply Hls; by right).
  lia.
Qed.

Lemma max_abs_elem l ls : l ∈ ls → Z.abs l ≤ max_abs ls.
Proof.
  unfold max_abs. induction 1 as [l ls|l k ls Hin IH]; simpl; lia.
Qed.

Lemma max_index_cons c cs : max_index (c :: cs) = Z.max (max_abs c) (max_index cs).
Proof. unfold max_index. simpl. apply max_abs_app. Qed.

Lemma max_index_elem c l cs : c ∈ cs → l ∈ c → Z.abs l ≤ max_index cs.
Proof.
  intros Hc Hl. apply (max_abs_elem l (concat cs)).
  apply list_elem_of_In, in_concat. exists c. by rewrite -!list_elem_of_In.
Qed.

(** Literals pushed one by one extend the open clause and the variable
    range. *)
Lemma picosat_add_lits ps ls :
  0 ≤ max_var ps → Forall (λ l, l ≠ 0) ls →
  foldl picosat_add ps ls =
  mkPicoSAT (handle ps) (Z.max (max_var ps) (max_abs ls)) (clauses ps)
            (open_clause ps ++ ls) (verbosity ps) (proplimit ps) (vals ps) (calls ps) (mm ps).
Proof.
  intros Hmv Hls. revert ps Hmv. induction Hls as [|l ls Hl Hls IH]; intros ps Hmv.
  - simpl. rewrite app_nil_r Z.max_l; [done|]. by destruct ps.
  - simpl. rewrite IH.
    + unfold picosat_add. destruct (l =? 0) eqn:E; [lia|]. simpl. lia.
    + unfold picosat_add. destruct (l =? 0) eqn:E; [lia|]. simpl.
      f_equal; [|by rewrite -app_assoc].
      change (max_abs (l :: ls)) with (Z.max (Z.abs l) (max_abs ls)). lia.
Qed.

Lemma load_clauses_spec ps cs :
  0 ≤ max_var ps → open_clause ps = [] → Forall (Forall (λ l, l ≠ 0)) cs →
  load_clauses ps cs =
  mkPicoSAT (handle ps) (Z.max (max_var ps) (max_index cs)) (clauses ps ++ cs) []
            (verbosity ps) (proplimit ps) (vals ps) (calls ps) (mm ps).
Proof.
  intros Hmv Hopen Hcs. revert ps Hmv Hopen.
  induction Hcs as [|c cs Hc Hcs IH]; intros ps Hmv Hopen.
  - simpl. rewrite app_nil_r Z.max_l; [done|]. destruct ps; simpl in *; by subst.
  - cbn [load_clauses foldl]. fold (load_clauses (picosat_add (foldl picosat_add ps c) 0) cs).
    rewrite picosat_add_lits // /picosat_add /= Hopen /=.
    pose proof (max_abs_nonneg c). rewrite IH /=; [lia|done|].
    rewrite max_index_cons -app_assoc /=. f_equal. lia.
Qed.

Lemma foldl_ext_Forall {A B} (f g : A → B → A) (l : list B) (a : A) :
  Forall (λ x, ∀ a, f a x = g a x) l → foldl f a l = foldl g a l.
Proof.
  intros Hl. revert a. induction Hl as [|x l Hx Hl IH]; intros a; [done|].
  simpl. by rewrite Hx IH.
Qed.

Lemma foldl_map {A B C} (f : A → B → A) (g : C → B) (l : list C) (a : A) :
  foldl f a (map g l) = foldl (λ a x, f a (g x)) a l.
Proof. revert a. induction l as [|x l IH]; intros a; [done|]. simpl. by rewrite IH. Qed.

Lemma blocksol_fill_spec ps (m : nat) mem i :
  (m < length mem)%nat → 1 ≤ i ≤ Z.of_nat m →
  length (blocksol_fill ps (Z.of_nat m) mem) = length mem ∧
  blocksol_fill ps (Z.of_nat m) mem !!! Z.to_nat i =
    if 0 <? picosat_deref ps i then 1 else -1.
Proof.
  unfold blocksol_fill. revert i. induction m as [|m IH]; intros i Hlen Hi; [lia|].
  rewrite seqZ_S foldl_app /=.
  assert (length (foldl (λ mem i, <[Z.to_nat i := if 0 <? picosat_deref ps i then 1 else -1]> mem)
                   mem (seqZ 1 (Z.of_nat m))) = length mem) as Hl.
  { destruct m; [done|]. apply (IH 1); lia. }
  rewrite length_insert. split; [done|].
  destruct (decide (i = Z.of_nat m + 1)) as [->|Hne].
  - replace (1 + Z.of_nat m) with (Z.of_nat m + 1) by lia.
    rewrite list_lookup_total_insert_eq; [lia|done].
  - rewrite list_lookup_total_insert_ne; [lia|]. apply IH; lia.
Qed.

Lemma blocksol_push_spec ps (n : Z) mem :
  (∀ i, 1 ≤ i ≤ n → mem !!! Z.to_nat i = if 0 <? vals ps i then 1 else -1) →
  blocksol_push ps n mem = foldl picosat_add ps (block_clause (vals ps) n).
Proof.
  intros Hmem. unfold blocksol_push, block_clause. rewrite foldl_map.
  apply foldl_ext_Forall, Forall_forall. intros i Hi%elem_of_seqZ a.
  rewrite Hmem; [lia|]. by destruct (0 <? vals ps i).
Qed.

Lemma block_clause_lits v n l :
  l ∈ block_clause v n → l ≠ 0 ∧ Z.abs l ≤ n.
Proof.
  unfold block_clause. rewrite list_elem_of_fmap. intros (i & -> & Hi%elem_of_seqZ).
  destruct (0 <? v i); lia.
Qed.

Lemma blocksol_engine ps :
  0 ≤ max_var ps → open_clause ps = [] →
  let max_idx := picosat_variables ps in
  picosat_add
    (blocksol_push ps max_idx
       (blocksol_fill ps max_idx (replicate (Z.to_nat (max_idx + 1)) 0))) 0 =
  blocked ps ∧
  blocked ps = foldl picosat_add ps (block_clause (vals ps) (max_var ps) ++ [0]).
Proof.
  intros Hmv Hopen. unfold picosat_variables. simpl.
  rewrite blocksol_push_spec.
  { intros i Hi.
    destruct (blocksol_fill_spec ps (Z.to_nat (max_var ps))
                (replicate (Z.to_nat (max_var ps + 1)) 0) i) as [_ Hfill].
    - rewrite length_replicate. lia.
    - lia.
    - rewrite Z2Nat.id in Hfill; done. }
  rewrite foldl_app /=.
  assert (picosat_add (foldl picosat_add ps (block_clause (vals ps) (max_var ps))) 0
          = blocked ps) as Heq; [|by rewrite Heq].
  rewrite picosat_add_lits //.
  { apply Forall_forall. intros l Hl. by apply block_clause_lits in Hl as [? _]. }
  unfold picosat_add, blocked. simpl. rewrite Hopen. simpl. f_equal.
  pose proof (max_abs_bound (max_var ps) (block_clause (vals ps) (max_var ps)) Hmv) as Hb.
  rewrite Z.max_l; [|done]. apply Hb. intros l Hl. by apply block_clause_lits in Hl as [_ ?].
Qed.

(** The blocking clause is false under exactly the values it was built
    from. *)
Lemma block_clause_false v n a :
  eval_clause a (block_clause v n) = false ↔ ∀ i, 1 ≤ i ≤ n → a i = (0 <? v i).
Proof.
  unfold eval_clause, block_clause. rewrite -not_true_iff_false existsb_exists. split.
  - intros Hno i Hi. destruct (a i) eqn:Hai, (0 <? v i) eqn:Hvi; try done.
    + exfalso. apply Hno. exists i. split.
      * apply list_elem_of_In, list_elem_of_fmap. exists i. rewrite Hvi elem_of_seqZ. split; [done|lia].
      * unfold eval_lit. replace (0 <? i) with true by lia. done.
    + exfalso. apply Hno. exists (- i). split.
      * apply list_elem_of_In, list_elem_of_fmap. exists i. rewrite Hvi elem_of_seqZ. split; [done|lia].
      * unfold eval_lit. replace (0 <? - i) with false by lia.
        rewrite Z.opp_involutive Hai //.
  - intros Hagree (l & Hl & Heval).
    apply list_elem_of_In, list_elem_of_fmap in Hl as (i & -> & Hi%elem_of_seqZ).
    specialize (Hagree i). unfold eval_lit in Heval.
    destruct (0 <? v i) eqn:Hvi.
    + replace (0 <? - i) with false in Heval by lia.
      rewrite Z.opp_involutive Hagree in Heval; [lia|done].
    + replace (0 <? i) with true in Heval by lia. rewrite Hagree in Heval; [lia|done].
Qed.

(** ** Loading the clauses *)

Lemma int_of_pylong_valid z : valid_lit z = true → int_of_pylong z = z ∧ z ≠ 0.
Proof.
  unfold valid_lit, int_of_pylong, int_of_long, INT_MAX.
  intros [Hz Habs]%andb_prop. rewrite bool_decide_eq_true_2; [unfold in_long, LONG_MAX; lia|].
  split; [|lia]. rewrite Z.mod_small; lia.
Qed.

Lemma int_of_pylong_0 : int_of_pylong 0 = 0.
Proof. reflexivity. Qed.

Lemma same_objects_refl w : same_objects w w.
Proof. done. Qed.

Lemma same_objects_trans w1 w2 w3 :
  same_objects w1 w2 → same_objects w2 w3 → same_objects w1 w3.
Proof. unfold same_objects. intros (-> & -> & ->) (-> & -> & ->). done. Qed.

Ltac msimpl :=
  repeat (unfold mbind, M_bind, mret, M_ret, PyList_GetItem, PyList_Check,
            PyList_Size, IS_INT, PyLong_AsLong, deref_obj, PyErr_SetString,
            PyErr_Format, PyErr_NoMemory, PyErr_Set, log, fresh_addr in *;
          simpl in *).

Lemma handle_picosat_add ps l : handle (picosat_add ps l) = handle ps.
Proof. unfold picosat_add. by destruct (l =? 0). Qed.

Lemma PyLong_AsLong_spec w q z :
  heap w !! q = Some (PyLongV z) →
  ∃ w2, PyLong_AsLong q w = (if bool_decide (in_long z) then z else -1, w2) ∧
        same_objects w w2 ∧ (in_long z → w2 = w).
Proof.
  intros Hq. msimpl. rewrite Hq. case_bool_decide.
  - exists w. by repeat split.
  - eexists. split; [done|]. split; [done|]. intros ?. done.
Qed.

Lemma add_clause_loop_spec ps p pre rest w :
  heap w !! p = Some (PyListV (pre ++ rest)) →
  ∃ st ps' w',
    add_clause_loop ps p (seq (length pre) (length rest)) w = ((st, ps'), w') ∧
    same_objects w w' ∧ handle ps' = handle ps ∧
    loaded_lits (heap w) rest ps w st ps' w'.
Proof.
  revert pre ps w. induction rest as [|q rest IH]; intros pre ps w Hp.
  { exists 0, ps, w. split; [done|]. split; [done|]. split; [done|]. left. split; [done|].
    exists []. by repeat split. }
  cbn [length seq add_clause_loop]. unfold mbind, M_bind.
  unfold PyList_GetItem, IS_INT, deref_obj, mbind, M_bind, mret, M_ret.
  rewrite Hp. rewrite lookup_app_r; [lia|]. rewrite Nat.sub_diag. cbn [lookup list_lookup].
  unfold loaded_lits. cbn [mapM].
  pose proof (eq_refl (read_int (heap w) q)) as Hread. unfold read_int at 2 in Hread.
  destruct (heap w !! q) as [[z| |]|] eqn:Hq; rewrite Hread; cbn [negb].
  2-4: eexists _, _, _; split; [done|]; split; [done|]; split; [done|]; right;
       split; [done|]; intros zs Hzs; done.
  destruct (PyLong_AsLong_spec w q z Hq) as (w2 & -> & Hw2 & Hw2').
  fold (int_of_pylong z). destruct (int_of_pylong z =? 0) eqn:Hz.
  { eexists _, _, _. split; [done|]. split; [by destruct Hw2 as (?&?&?)|].
    split; [done|]. right. split; [done|]. intros zs Hzs. split; [|done].
    simpl in Hzs. destruct (mapM _ rest); simplify_option_eq. left. lia. }
  destruct (IH (pre ++ [q]) (picosat_add ps (int_of_pylong z)) w2)
    as (st & ps' & w' & Hrun & Hsame & Hh & Hres).
  { destruct Hw2 as (-> & _). by rewrite -app_assoc. }
  rewrite length_app Nat.add_1_r in Hrun. rewrite Hrun.
  exists st, ps', w'. split; [done|]. split; [exact (same_objects_trans _ _ _ Hw2 Hsame)|].
  split; [by rewrite Hh handle_picosat_add|].
  destruct Hw2 as (Hheap & _). rewrite Hheap in Hres.
  destruct Hres as [(-> & zs & Hzs & Hnz & -> & Hw')|(-> & Hfail)].
  - left. split; [done|]. exists (z :: zs). rewrite Hzs /=. split; [done|].
    split; [constructor; [lia|done]|]. split; [done|].
    intros [Hz1 Hz2]%Forall_cons. rewrite Hw' // Hw2' //.
  - right. split; [done|]. intros zs Hzs. simpl in Hzs.
    destruct (mapM _ rest) as [zs'|]; simplify_option_eq.
    destruct (Hfail zs' eq_refl) as [Hex Herr]. split; [by right|done].
Qed.

Lemma add_clause_spec ps p w :
  ∃ st ps' w',
    add_clause ps p w = ((st, ps'), w') ∧
    same_objects w w' ∧ handle ps' = handle ps ∧
    loaded_clause (heap w) p ps w st ps' w'.
Proof.
  unfold add_clause, loaded_clause, read_clause.
  unfold PyList_Check, PyList_Size, deref_obj, mbind, M_bind, mret, M_ret.
  destruct (heap w !! p) as [[z|items|]|] eqn:Hp; cbn [negb].
  1,3,4: eexists _, _, _; split; [done|]; split; [done|]; split; [done|]; right;
         split; [done|]; intros c Hc; done.
  destruct (add_clause_loop_spec ps p [] items w Hp)
    as (st & ps' & w' & Hrun & Hsame & Hh & Hres).
  change (length (@nil nat)) with 0%nat in Hrun. rewrite ?Hp Hrun.
  destruct Hres as [(-> & zs & Hzs & Hnz & -> & Hw')|(-> & Hfail)]; cbn [Z.ltb Z.compare].
  - eexists _, _, _. split; [done|]. split; [done|].
    split; [by rewrite handle_picosat_add|]. left. split; [done|]. by exists zs.
  - eexists _, _, _. split; [done|]. split; [done|]. split; [done|]. right. by split.
Qed.

Lemma add_clauses_loop_spec ps p pre rest w :
  heap w !! p = Some (PyListV (pre ++ rest)) →
  ∃ st ps' w',
    add_clauses_loop ps p (seq (length pre) (length rest)) w = ((st, ps'), w') ∧
    same_objects w w' ∧ handle ps' = handle ps ∧
    loaded_clauses (heap w) rest ps w st ps' w'.
Proof.
  revert pre ps w. induction rest as [|q rest IH]; intros pre ps w Hp.
  { exists 0, ps, w. split; [done|]. split; [done|]. split; [done|]. left. split; [done|].
    exists []. by repeat split. }
  cbn [length seq add_clauses_loop]. unfold mbind, M_bind.
  unfold PyList_GetItem, deref_obj, mbind, M_bind, mret, M_ret.
  rewrite Hp. rewrite lookup_app_r; [lia|]. rewrite Nat.sub_diag. cbn [lookup list_lookup].
  unfold loaded_clauses. cbn [mapM].
  destruct (add_clause_spec ps q w) as (st1 & ps1 & w1 & -> & Hw1 & Hh1 & Hres1).
  destruct Hres1 as [(-> & c & Hc & Hnz & -> & Hw1')|(-> & Hfail)]; cbn [Z.ltb Z.compare].
  2: { eexists _, _, _. split; [done|]. split; [done|]. split; [done|].
       right. split; [done|].
       intros cs Hcs. simpl in Hcs.
       destruct (read_clause (heap w) q) as [c|]; [|done].
       destruct (Hfail c eq_refl) as [Hex Herr]. split; [|done].
       destruct (mapM _ rest); simplify_option_eq. by left. }
  destruct (IH (pre ++ [q]) (picosat_add (foldl picosat_add ps (map int_of_pylong c)) 0) w1)
    as (st & ps' & w' & Hrun & Hsame & Hh & Hres).
  { destruct Hw1 as (-> & _). by rewrite -app_assoc. }
  rewrite length_app Nat.add_1_r in Hrun. rewrite Hrun.
  exists st, ps', w'. split; [done|]. split; [exact (same_objects_trans _ _ _ Hw1 Hsame)|].
  split; [by rewrite Hh|].
  destruct Hw1 as (Hheap & _). rewrite Hheap in Hres. rewrite Hc.
  destruct Hres as [(-> & cs & Hcs & Hnzs & -> & Hw')|(-> & Hfails)].
  - left. split; [done|]. exists (c :: cs). rewrite Hcs /=. split; [done|].
    split; [by constructor|]. split; [done|].
    intros [Hz1 Hz2]%Forall_cons. rewrite Hw' // Hw1' //.
  - right. split; [done|]. intros cs Hcs. simpl in Hcs.
    destruct (mapM _ rest) as [cs'|]; simplify_option_eq.
    destruct (Hfails cs' eq_refl) as [Hex Herr]. split; [by right|done].
Qed.

(** [add_clauses] on an argument that is a list of lists of ints: either
    every clause went in, or the load stopped at a literal that reaches the
    engine as 0, with the ValueError set. *)
Lemma add_clauses_spec ps p w cs :
  read_clauses (heap w) p = Some cs →
  ∃ st ps' w',
    add_clauses ps p w = ((st, ps'), w') ∧ same_objects w w' ∧
    handle ps' = handle ps ∧
    ((st = 0 ∧ Forall (Forall (λ z, int_of_pylong z ≠ 0)) cs ∧
      ps' = load_clauses ps (map (map int_of_pylong) cs) ∧
      (Forall (Forall in_long) cs → w' = w)) ∨
     (st = -1 ∧ Exists (Exists (λ z, int_of_pylong z = 0)) cs ∧
      pyerr w' = Some zero_literal_error)).
Proof.
  unfold read_clauses, add_clauses.
  unfold PyList_Check, PyList_Size, deref_obj, mbind, M_bind, mret, M_ret.
  destruct (heap w !! p) as [[z|items|]|] eqn:Hp; try done. intros Hcs. cbn [negb].
  destruct (add_clauses_loop_spec ps p [] items w Hp)
    as (st & ps' & w' & Hrun & Hsame & Hh & Hres).
  change (length (@nil nat)) with 0%nat in Hrun. rewrite ?Hp Hrun.
  exists st, ps', w'. split; [done|]. split; [done|]. split; [done|].
  destruct Hres as [(-> & cs' & Hcs' & Hnz & -> & Hw')|(-> & Hfail)].
  - left. rewrite Hcs in Hcs'. by simplify_eq.
  - right. split; [done|]. by apply Hfail.
Qed.

(** Conversely, [add_clauses] only succeeds on a list of lists of ints. *)
Lemma add_clauses_typed ps p w st ps' w' :
  add_clauses ps p w = ((st, ps'), w') → (st <? 0) = false →
  is_Some (read_clauses (heap w) p).
Proof.
  unfold read_clauses, add_clauses.
  unfold PyList_Check, PyList_Size, deref_obj, mbind, M_bind, mret, M_ret.
  destruct (heap w !! p) as [[z|items|]|] eqn:Hp; cbn [negb].
  1,3,4: msimpl; intros ? Hst; simplify_eq; done.
  destruct (add_clauses_loop_spec ps p [] items w Hp)
    as (st1 & ps1 & w1 & Hrun & Hsame & _ & Hres).
  change (length (@nil nat)) with 0%nat in Hrun. rewrite ?Hp Hrun. intros ? Hst; simplify_eq.
  destruct Hres as [(_ & cs' & Hcs' & _)|(? & _)]; [|lia]. rewrite Hcs'. by eexists.
Qed.

(** ** Setting up a session *)

Lemma configured_fields h a :
  handle (configured h a) = h ∧ 0 ≤ max_var (configured h a) ∧
  max_var (configured h a) = (if arg_vars a =? -1 then 0 else Z.max 0 (arg_vars a)) ∧
  clauses (configured h a) = [] ∧ open_clause (configured h a) = [] ∧
  proplimit (configured h a) =
    (if arg_prop_limit a =? 0 then None else Some (arg_prop_limit a)).
Proof.
  unfold configured. destruct (arg_vars a =? -1), (arg_prop_limit a =? 0); simpl;
    repeat split; lia.
Qed.

Lemma Forall_int_of_pylong cs :
  Forall (Forall (λ z, int_of_pylong z ≠ 0)) cs →
  Forall (Forall (λ l, l ≠ 0)) (map (map int_of_pylong) cs).
Proof.
  intros H. apply Forall_fmap. eapply Forall_impl; [exact H|]. intros c Hc.
  by apply Forall_fmap.
Qed.

Lemma session_fields h a cs :
  Forall (Forall (λ z, int_of_pylong z ≠ 0)) cs →
  session h a cs =
  mkPicoSAT h (Z.max (max_var (configured h a)) (max_index (map (map int_of_pylong) cs)))
            (map (map int_of_pylong) cs) [] (arg_verbose a)
            (if arg_prop_limit a =? 0 then None else Some (arg_prop_limit a))
            (λ _, 0) 0 py_allocator.
Proof.
  intros Hnz. unfold session.
  destruct (configured_fields h a) as (Hh & Hmv & _ & Hcl & Hop & Hpl).
  rewrite load_clauses_spec //; [by apply Forall_int_of_pylong|].
  rewrite Hh Hcl Hpl /=.
  f_equal; unfold configured; by destruct (arg_vars a =? -1), (arg_prop_limit a =? 0).
Qed.

Lemma session_wf h a cs :
  Forall (Forall (λ z, int_of_pylong z ≠ 0)) cs → wf_engine (session h a cs).
Proof.
  intros Hnz. rewrite session_fields //. unfold wf_engine. simpl.
  destruct (configured_fields h a) as (_ & Hmv & _).
  pose proof (max_abs_nonneg (concat (map (map int_of_pylong) cs))) as Hidx.
  fold (max_index (map (map int_of_pylong) cs)) in Hidx.
  split; [done|]. split; [lia|]. intros c l Hc Hl. split.
  - apply Forall_int_of_pylong in Hnz.
    rewrite Forall_forall in Hnz. specialize (Hnz c Hc).
    rewrite Forall_forall in Hnz. by apply Hnz.
  - pose proof (max_index_elem c l _ Hc Hl). lia.
Qed.

Lemma valid_clauses_spec cs :
  valid_clauses cs = true →
  map (map int_of_pylong) cs = cs ∧
  Forall (Forall (λ z, int_of_pylong z ≠ 0)) cs ∧ Forall (Forall in_long) cs.
Proof.
  unfold valid_clauses. rewrite forallb_forall. intros Hv.
  assert (∀ c l, c ∈ cs → l ∈ c → valid_lit l = true) as Hlit.
  { intros c l Hc%list_elem_of_In Hl%list_elem_of_In.
    specialize (Hv c Hc). rewrite forallb_forall in Hv. by apply Hv. }
  clear Hv. split; [|split].
  - transitivity (map id cs); [|apply map_id].
    apply map_ext_in. intros c Hc%list_elem_of_In.
    transitivity (map id c); [|apply map_id].
    apply map_ext_in. intros l Hl%list_elem_of_In.
    by apply int_of_pylong_valid, (Hlit c l).
  - apply Forall_forall. intros c Hc. apply Forall_forall. intros l Hl.
    destruct (int_of_pylong_valid l (Hlit c l Hc Hl)) as [-> ?]. done.
  - apply Forall_forall. intros c Hc. apply Forall_forall. intros l Hl.
    pose proof (Hlit c l Hc Hl) as Hvl. unfold valid_lit, INT_MAX in Hvl.
    unfold in_long, LONG_MAX. lia.
Qed.

(** [setup_picosat] on a list of lists of ints: a loaded session, or no
    session, the instance reset and the ValueError set. *)
Lemma setup_picosat_spec a w cs :
  read_clauses (heap w) (arg_clauses a) = Some cs →
  let h := length (trace w) in
  ∃ w', heap w' = heap w ∧ oom w' = oom w ∧
    ((Forall (Forall (λ z, int_of_pylong z ≠ 0)) cs ∧
      setup_picosat (Some a) w = (Some (session h a cs), w') ∧
      trace w' = trace w ++ Ev_minit h :: (if 2 <=? arg_verbose a then [Ev_print h] else []) ∧
      (Forall (Forall in_long) cs → pyerr w' = pyerr w)) ∨
     (Exists (Exists (λ z, int_of_pylong z = 0)) cs ∧
      setup_picosat (Some a) w = (None, w') ∧
      trace w' = trace w ++ [Ev_minit h; Ev_reset h] ∧
      pyerr w' = Some zero_literal_error)).
Proof.
  intros Hcs h. unfold setup_picosat, PyArg_ParseTupleAndKeywords, picosat_minit.
  unfold mbind, M_bind, mret, M_ret, fresh_addr, log. fold h.
  set (w1 := mkWorld (heap w) (pyerr w) (oom w) (trace w ++ [Ev_minit h])).
  fold py_allocator. fold (configured h a).
  destruct (add_clauses_spec (configured h a) (arg_clauses a) w1 cs Hcs)
    as (st & ps' & w2 & -> & (Hheap & Hoom & Htrace) & Hh' & Hres).
  destruct Hres as [(-> & Hnz & -> & Hw2)|(-> & Hex & Herr)]; cbn [Z.ltb Z.compare].
  - fold (session h a cs).
    assert (handle (session h a cs) = h) as Hh by (by rewrite session_fields).
    unfold picosat_print, log. rewrite Hh.
    destruct (2 <=? arg_verbose a); eexists; (split; [|split; [|left; split; [done|]]]);
      [| |split; [reflexivity|]| | |split; [reflexivity|]]; simpl; try done.
    + split; [by rewrite Htrace /= -app_assoc|]. intros Hl. by rewrite Hw2.
    + split; [by rewrite Htrace|]. intros Hl. by rewrite Hw2.
  - unfold picosat_reset, log.
    assert (handle ps' = h) as Hh.
    { rewrite Hh'. by destruct (configured_fields h a) as (? & _). }
    rewrite Hh. eexists. split; [|split; [|right; split; [done|split; [reflexivity|]]]];
      simpl; try done.
    split; [|done]. rewrite Htrace /= -app_assoc //.
Qed.

(** Conversely, a session is only returned for parsed arguments whose
    clauses are a list of lists of ints. *)
Lemma setup_picosat_typed args w ps w' :
  setup_picosat args w = (Some ps, w') →
  ∃ a cs, args = Some a ∧ read_clauses (heap w) (arg_clauses a) = Some cs.
Proof.
  destruct args as [a|]; [|by msimpl]. intros Hrun. exists a.
  unfold setup_picosat, PyArg_ParseTupleAndKeywords, picosat_minit in Hrun.
  unfold mbind, M_bind, mret, M_ret, fresh_addr, log in Hrun.
  match type of Hrun with
  | context [add_clauses ?ps0 ?p ?w1] =>
      destruct (add_clauses ps0 p w1) as [[st ps1] w2] eqn:Hadd
  end.
  destruct (st <? 0) eqn:Hst; [by msimpl|].
  destruct (add_clauses_typed _ _ _ _ _ _ Hadd Hst) as [cs Hcs]. by exists cs.
Qed.

(** ** Decoding a solution and blocking it *)

Lemma store_items_nil zs : store_items zs [] = (zs, ([], false)).
Proof.
  induction zs as [|z zs IH]; [done|]. cbn [store_items tail]. rewrite IH /=.
  by destruct (small_int z).
Qed.

Lemma store_items_length zs o : length (store_items zs o).1 = length zs.
Proof.
  revert o. induction zs as [|z zs IH]; intros o; [done|]. cbn [store_items].
  destruct (small_int z); [by rewrite /= IH|].
  destruct o as [|[] o]; by rewrite /= IH.
Qed.

(** Without a failure every item is stored. *)
Lemma store_items_ok zs o : (store_items zs o).2.2 = false → (store_items zs o).1 = zs.
Proof.
  revert o. induction zs as [|z zs IH]; intros o; [done|]. cbn [store_items].
  destruct (small_int z); [by intros H; rewrite /= IH|].
  destruct o as [|[] o]; simpl; [|done|]; by intros H; rewrite IH.
Qed.

(** A slot holds its int or is empty, and a failure leaves an empty slot. *)
Lemma store_items_lookup zs o k x :
  (store_items zs o).1 !! k = Some x → zs !! k = Some x ∨ x = 0.
Proof.
  revert o k. induction zs as [|z zs IH]; intros o k; [done|]. cbn [store_items].
  destruct (small_int z); [destruct k as [|k]; simpl; [by left|by apply IH]|].
  destruct o as [|[] o]; (destruct k as [|k]; simpl; [|by apply IH]).
  - by left.
  - intros [= <-]. by right.
  - by left.
Qed.

Lemma store_items_failed zs o : (store_items zs o).2.2 = true → 0 ∈ (store_items zs o).1.
Proof.
  revert o. induction zs as [|z zs IH]; intros o; [done|]. cbn [store_items].
  destruct (small_int z); [by intros H; right; apply IH|].
  destruct o as [|[] o]; simpl; [|by left|]; by intros H; right; apply IH.
Qed.

(** With an allocation to spare for every int that needs one, every item
    is stored and exactly these allocations are used. *)
Lemma store_items_spare zs o :
  store_items zs (replicate (boxed zs) false ++ o) = (zs, (o, false)).
Proof.
  unfold boxed. induction zs as [|z zs IH]; [done|]. cbn [store_items List.filter].
  destruct (small_int z); cbn [negb]; [by rewrite IH|].
  cbn [length replicate app tail]. by rewrite IH.
Qed.

Lemma get_solution_loop_spec ps (d : nat) :
  ∀ (k : nat) pre w,
    length pre = k →
    get_solution_loop ps (seqZ (Z.of_nat k + 1) (Z.of_nat d)) (pre ++ replicate d 0) w =
    (let r := store_items (map (λ i, vals ps i * i) (seqZ (Z.of_nat k + 1) (Z.of_nat d)))
                          (oom w) in
     (Some (pre ++ r.1),
      mkWorld (heap w) (if r.2.2 then Some memory_error else pyerr w) r.2.1 (trace w))).
Proof.
  induction d as [|d IH]; intros k pre w Hlen.
  { simpl. unfold mret, M_ret. by destruct w. }
  rewrite seqZ_cons; [lia|]. cbn [get_solution_loop map store_items].
  replace (Z.succ (Z.of_nat k + 1)) with (Z.of_nat (S k) + 1) by lia.
  replace (Z.pred (Z.of_nat (S d))) with (Z.of_nat d) by lia.
  assert (∀ x w', PyList_SetItem (pre ++ replicate (S d) 0) (Z.of_nat k + 1 - 1) x w' =
                  ((0, (pre ++ [default 0 x]) ++ replicate d 0), w')) as Hset.
  { intros x w'. unfold PyList_SetItem. rewrite bool_decide_eq_true_2.
    { rewrite length_app length_replicate. lia. }
    unfold mret, M_ret. do 2 f_equal.
    replace (Z.to_nat (Z.of_nat k + 1 - 1)) with (length pre + 0)%nat by lia.
    by rewrite insert_app_r -app_assoc. }
  assert (length (pre ++ [default 0 (Some (vals ps (Z.of_nat k + 1) * (Z.of_nat k + 1)))])
          = S k) as Hlen1 by (rewrite length_app /=; lia).
  assert (length (pre ++ [default 0 (@None Z)]) = S k) as Hlen0
    by (rewrite length_app /=; lia).
  unfold mbind, M_bind, PyInt_FromLong, picosat_deref.
  destruct (small_int _).
  { unfold mret, M_ret at 1. rewrite Hset. cbn [Z.ltb Z.compare].
    rewrite (IH (S k) _ w Hlen1). cbn zeta. by rewrite /= -app_assoc. }
  unfold host_alloc, mbind, M_bind, mret, M_ret, PyErr_NoMemory, PyErr_Set.
  destruct (oom w) as [|[] o] eqn:Hoom; cbn [negb].
  - rewrite Hset. cbn [Z.ltb Z.compare]. rewrite (IH (S k) _ w Hlen1). cbn zeta.
    by rewrite Hoom /= -app_assoc.
  - rewrite Hset. cbn [Z.ltb Z.compare]. rewrite (IH (S k) _ _ Hlen0). cbn zeta.
    cbn [oom heap pyerr trace]. rewrite /= -app_assoc /=.
    by destruct (store_items _ o).2.2.
  - rewrite Hset. cbn [Z.ltb Z.compare]. rewrite (IH (S k) _ _ Hlen1). cbn zeta.
    by rewrite /= -app_assoc.
Qed.

Lemma get_solution_eq ps w :
  0 ≤ max_var ps →
  get_solution ps w =
  match oom w with
  | true :: o =>
      (None, mkWorld (heap w) (Some (mkExc PyExc_MemoryError "" None)) o
               (trace w ++ [Ev_PyList_New (max_var ps) false; Ev_reset (handle ps)]))
  | _ =>
      let r := store_items (decode ps) (tail (oom w)) in
      (Some r.1,
       mkWorld (heap w) (if r.2.2 then Some memory_error else pyerr w) r.2.1
               (trace w ++ [Ev_PyList_New (max_var ps) true]))
  end.
Proof.
  intros Hmv. unfold get_solution, PyList_New, picosat_variables, host_alloc.
  replace (max_var ps <? 0) with false by lia.
  unfold mbind, M_bind, mret, M_ret, log, PyErr_NoMemory, PyErr_Set, picosat_reset, log.
  assert (∀ w', get_solution_loop ps (seqZ 1 (max_var ps))
                  (replicate (Z.to_nat (max_var ps)) 0) w' =
                (let r := store_items (decode ps) (oom w') in
                 (Some r.1,
                  mkWorld (heap w') (if r.2.2 then Some memory_error else pyerr w') r.2.1
                          (trace w')))) as Hloop.
  { intros w'. pose proof (get_solution_loop_spec ps (Z.to_nat (max_var ps)) 0 [] w' eq_refl)
      as H.
    rewrite Z2Nat.id in H; [done|]. exact H. }
  destruct (oom w) as [|[] o] eqn:Hoom; simpl; rewrite ?Hloop -?app_assoc ?Hoom //.
Qed.

(** With memory for everything the list is the decoded values. *)
Lemma get_solution_mem ps w :
  0 ≤ max_var ps → oom w = [] →
  get_solution ps w =
  (Some (decode ps),
   mkWorld (heap w) (pyerr w) [] (trace w ++ [Ev_PyList_New (max_var ps) true])).
Proof.
  intros Hmv Hoom. rewrite get_solution_eq // Hoom. cbn [tail].
  by rewrite store_items_nil.
Qed.

Lemma blocksol_eq ps mem w :
  0 ≤ max_var ps → open_clause ps = [] →
  blocksol ps mem w =
  match mem with
  | Some p => ((0, blocked ps), w)
  | None =>
      match oom w with
      | true :: o =>
          ((-1, ps),
           mkWorld (heap w) (Some (mkExc PyExc_MemoryError "" None)) o
                   (trace w ++ [Ev_PyMem_Malloc (max_var ps + 1) None]))
      | _ =>
          ((0, blocked ps),
           mkWorld (heap w) (pyerr w) (tail (oom w))
                   (trace w ++ [Ev_PyMem_Malloc (max_var ps + 1) (Some (length (trace w)))]))
      end
  end.
Proof.
  intros Hmv Hopen. destruct (blocksol_engine ps Hmv Hopen) as [Heq _].
  unfold blocksol, PyMem_Malloc, host_alloc, picosat_variables in *.
  unfold mbind, M_bind, mret, M_ret, log, PyErr_NoMemory, PyErr_Set, fresh_addr.
  destruct mem as [p|]; [by rewrite Heq|].
  destruct (oom w) as [|[] o] eqn:Hoom; simpl; rewrite ?Heq ?Hoom //.
Qed.

(** ** One advance of the iterator *)

Lemma soliter_next_unfold e it w :
  soliter_next e it w =
  (let ps := it_picosat it in
   let res := (e ps (-1)).1 in
   let it := mkIter (searched e ps) (it_mem it) in
   if res =? PICOSAT_SATISFIABLE then
     result ← get_solution (it_picosat it);
     match result with
     | None =>
         PyErr_SetString PyExc_SystemError "failed to create list";;
         mret (None, it)
     | Some result =>
         '(st, picosat) ← blocksol (it_picosat it) (it_mem it);
         let it := mkIter picosat (it_mem it) in
         if st <? 0 then mret (None, it)
         else mret (Some result, it)
     end
   else if (res =? PICOSAT_UNSATISFIABLE) || (res =? PICOSAT_UNKNOWN) then
     mret (None, it)
   else
     PyErr_Format PyExc_SystemError "picosat return value: %d" res;;
     mret (None, it))
    (emit (invocation (handle (it_picosat it)) (e (it_picosat it) (-1)).1) w).
Proof.
  unfold soliter_next, picosat_sat, searched, emit, invocation.
  destruct (e (it_picosat it) (-1)) as [res v].
  unfold mbind at 1. unfold M_bind at 1. unfold log at 1.
  unfold mbind at 1. unfold M_bind at 1. unfold mbind at 1. unfold M_bind at 1.
  unfold log at 1. unfold mret at 1. unfold M_ret at 1.
  unfold mbind at 1. unfold M_bind at 1. unfold log at 1.
  cbn [fst snd heap pyerr oom trace]. by rewrite -!app_assoc.
Qed.

Lemma wf_engine_ready ps : wf_engine ps → ready ps.
Proof. intros (? & ? & _). by split. Qed.

Lemma searched_wf e ps : wf_engine ps → wf_engine (searched e ps).
Proof. done. Qed.

Lemma blocked_wf ps : wf_engine ps → wf_engine (blocked ps).
Proof.
  intros (Hopen & Hmv & Hlits). split; [done|]. split; [done|].
  intros c l Hc Hl. simpl in Hc. apply elem_of_app in Hc as [Hc|Hc].
  - exact (Hlits c l Hc Hl).
  - apply list_elem_of_singleton in Hc as ->. by apply block_clause_lits in Hl.
Qed.

(** The engine answers SATISFIABLE: the advance by what the host's
    allocator does.  The result list cannot be had; or it can, its items
    are stored as far as their ints can be allocated, and the buffer of
    [blocksol] (asked for when the iterator has none) can or cannot be
    had. *)
Lemma soliter_next_sat_eq e it w :
  ready (it_picosat it) →
  (e (it_picosat it) (-1)).1 = PICOSAT_SATISFIABLE →
  let ps := searched e (it_picosat it) in
  let h := handle ps in
  let n := max_var ps in
  let called := trace w ++ invocation h PICOSAT_SATISFIABLE in
  soliter_next e it w =
  match oom w with
  | true :: o =>
      ((None, mkIter ps (it_mem it)),
       mkWorld (heap w) (Some (mkExc PyExc_SystemError "failed to create list" None)) o
               (called ++ [Ev_PyList_New n false; Ev_reset h]))
  | _ =>
      let r := store_items (decode ps) (tail (oom w)) in
      let err := if r.2.2 then Some memory_error else pyerr w in
      match it_mem it with
      | Some p =>
          ((Some r.1, mkIter (blocked ps) (it_mem it)),
           mkWorld (heap w) err r.2.1 (called ++ [Ev_PyList_New n true]))
      | None =>
          match r.2.1 with
          | true :: o' =>
              ((None, mkIter ps None),
               mkWorld (heap w) (Some memory_error) o'
                       (called ++ [Ev_PyList_New n true; Ev_PyMem_Malloc (n + 1) None]))
          | _ =>
              ((Some r.1, mkIter (blocked ps) None),
               mkWorld (heap w) err (tail r.2.1)
                       (called ++ [Ev_PyList_New n true;
                                   Ev_PyMem_Malloc (n + 1) (Some (length (trace w) + 4)%nat)]))
          end
      end
  end.
Proof.
  intros [Hmv Hopen] Hres. rewrite soliter_next_unfold. cbn zeta.
  rewrite Hres. cbn [Z.eqb PICOSAT_SATISFIABLE Pos.eqb].
  unfold mbind, M_bind at 1. rewrite get_solution_eq //. cbn [emit oom].
  destruct (oom w) as [|[] o] eqn:Hoom; cbn [it_picosat it_mem tail].
  - cbn zeta. unfold mbind, M_bind, mret, M_ret. rewrite blocksol_eq //.
    cbn [oom tail trace pyerr heap].
    destruct (it_mem it) as [p|]; cbn [Z.ltb Z.compare]; [by rewrite -!app_assoc|].
    rewrite store_items_nil. cbn [fst snd tail].
    by rewrite -!app_assoc /= !length_app /=.
  - msimpl. by rewrite -!app_assoc.
  - cbn zeta. unfold mbind, M_bind, mret, M_ret. rewrite blocksol_eq //.
    cbn [oom tail trace pyerr heap].
    destruct (it_mem it) as [p|]; cbn [Z.ltb Z.compare]; [by rewrite -!app_assoc|].
    destruct (store_items _ o).2.1 as [|[] o']; cbn [Z.ltb Z.compare tail];
      by rewrite -!app_assoc /= ?length_app /=.
Qed.

(** The engine answers SATISFIABLE and the host has memory: the advance
    yields the decoded values and blocks them. *)
Lemma soliter_next_sat e it w :
  ready (it_picosat it) → oom w = [] →
  (e (it_picosat it) (-1)).1 = PICOSAT_SATISFIABLE →
  let ps := searched e (it_picosat it) in
  soliter_next e it w =
  ((Some (decode ps), mkIter (blocked ps) (it_mem it)),
   emit (invocation (handle ps) PICOSAT_SATISFIABLE ++
         Ev_PyList_New (max_var ps) true ::
         match it_mem it with
         | None => [Ev_PyMem_Malloc (max_var ps + 1) (Some (length (trace w) + 4)%nat)]
         | Some _ => []
         end) w).
Proof.
  intros Hready Hoom Hres. rewrite soliter_next_sat_eq //. cbn zeta.
  rewrite Hoom. cbn [tail]. rewrite store_items_nil. cbn [fst snd tail].
  unfold emit. rewrite Hoom.
  destruct (it_mem it) as [p|]; by rewrite -!app_assoc.
Qed.

(** The engine answers UNSATISFIABLE or UNKNOWN: the advance returns
    NULL, sets no error and touches nothing but the engine. *)
Lemma soliter_next_stop e it w :
  (e (it_picosat it) (-1)).1 = PICOSAT_UNSATISFIABLE ∨
  (e (it_picosat it) (-1)).1 = PICOSAT_UNKNOWN →
  soliter_next e it w =
  ((None, mkIter (searched e (it_picosat it)) (it_mem it)),
   emit (invocation (handle (it_picosat it)) (e (it_picosat it) (-1)).1) w).
Proof.
  intros Hres. rewrite soliter_next_unfold. cbn zeta. by destruct Hres as [-> | ->].
Qed.

(** Any other result code: NULL with a SystemError. *)
Lemma soliter_next_other e it w :
  (e (it_picosat it) (-1)).1 ≠ PICOSAT_SATISFIABLE →
  (e (it_picosat it) (-1)).1 ≠ PICOSAT_UNSATISFIABLE →
  (e (it_picosat it) (-1)).1 ≠ PICOSAT_UNKNOWN →
  ∃ w', soliter_next e it w = ((None, mkIter (searched e (it_picosat it)) (it_mem it)), w') ∧
        heap w' = heap w ∧ oom w' = oom w ∧
        trace w' = trace w ++ invocation (handle (it_picosat it)) (e (it_picosat it) (-1)).1.
Proof.
  intros H1 H2 H3. rewrite soliter_next_unfold. cbn zeta.
  apply Z.eqb_neq in H1, H2, H3. rewrite H1 H2 H3. cbn [orb].
  eexists. split; [reflexivity|]. done.
Qed.

(** An advance that yields a list: the engine answered SATISFIABLE, the
    list holds the decoded values as far as their ints could be allocated,
    and the engine has the blocking clause. *)
Lemma soliter_next_yields e it w sol it' w' :
  ready (it_picosat it) →
  soliter_next e it w = ((Some sol, it'), w') →
  (e (it_picosat it) (-1)).1 = PICOSAT_SATISFIABLE ∧
  sol = (store_items (decode (searched e (it_picosat it))) (tail (oom w))).1 ∧
  it' = mkIter (blocked (searched e (it_picosat it))) (it_mem it) ∧
  heap w' = heap w.
Proof.
  intros Hready.
  destruct ((e (it_picosat it) (-1)).1 =? PICOSAT_SATISFIABLE) eqn:Hres.
  2: { rewrite soliter_next_unfold. cbn zeta. rewrite Hres.
       destruct (_ || _); msimpl; intros ?; simplify_eq. }
  apply Z.eqb_eq in Hres. rewrite soliter_next_sat_eq //. cbn zeta.
  destruct (oom w) as [|[] o] eqn:Hoom; cbn [tail]; [|by intros ?; simplify_eq|].
  all: destruct (it_mem it) as [p|]; [by intros ?; simplify_eq|].
  all: destruct (store_items _ _).2.1 as [|[] o']; intros ?; by simplify_eq.
Qed.

(** With memory the yielded list is the decoded values. *)
Lemma soliter_next_yields_mem e it w sol it' w' :
  ready (it_picosat it) → oom w = [] →
  soliter_next e it w = ((Some sol, it'), w') →
  (e (it_picosat it) (-1)).1 = PICOSAT_SATISFIABLE ∧
  sol = decode (searched e (it_picosat it)) ∧
  it' = mkIter (blocked (searched e (it_picosat it))) (it_mem it) ∧
  heap w' = heap w.
Proof.
  intros Hready Hoom Hnext.
  destruct (soliter_next_yields e it w sol it' w' Hready Hnext) as (Hres & -> & -> & Hheap).
  by rewrite Hoom /= store_items_nil.
Qed.

Lemma soliter_next_mem e it w r it' w' :
  ready (it_picosat it) →
  soliter_next e it w = ((r, it'), w') →
  it_mem it' = it_mem it ∧ heap w' = heap w ∧
  (it_picosat it' = searched e (it_picosat it) ∨
   it_picosat it' = blocked (searched e (it_picosat it))).
Proof.
  intros Hready.
  destruct ((e (it_picosat it) (-1)).1 =? PICOSAT_SATISFIABLE) eqn:Hres.
  2: { rewrite soliter_next_unfold. cbn zeta. rewrite Hres.
       destruct (_ || _); msimpl; intros ?; simplify_eq; auto. }
  apply Z.eqb_eq in Hres. rewrite soliter_next_sat_eq //. cbn zeta.
  destruct (oom w) as [|[] o] eqn:Hoom; cbn [tail]; [|by intros ?; simplify_eq; auto|].
  all: destruct (it_mem it) as [p|] eqn:Hmem; [by intros ?; simplify_eq; auto|].
  all: destruct (store_items _ _).2.1 as [|[] o']; intros ?; simplify_eq; auto.
Qed.

(** ** The reference engine honours the contract *)

(** A list of one literal per variable 1..n is a total assignment, and
    gives each variable the sign of its literal. *)
Lemma signed_total (g : Z → Z) (n : nat) :
  (∀ i, 1 ≤ i ≤ Z.of_nat n → g i = i ∨ g i = - i) →
  total_over n (map g (seqZ 1 (Z.of_nat n))) ∧
  ∀ i, 1 ≤ i ≤ Z.of_nat n →
    assignment_of (map g (seqZ 1 (Z.of_nat n))) i = bool_decide (g i = i).
Proof.
  intros Hg.
  assert (total_over n (map g (seqZ 1 (Z.of_nat n)))) as Htot.
  { split; [by rewrite length_map length_seqZ Nat2Z.id|].
    intros k x Hk. rewrite list_lookup_fmap in Hk.
    destruct (seqZ 1 (Z.of_nat n) !! k) as [i|] eqn:Hi; simplify_eq/=.
    apply lookup_seqZ in Hi as [-> Hlt]. destruct (Hg (1 + Z.of_nat k)); lia. }
  split; [done|]. intros i Hi. unfold assignment_of.
  apply bool_decide_ext. rewrite (total_over_elem n) // list_lookup_fmap.
  replace (Z.abs i - 1) with (i - 1) by lia.
  rewrite lookup_seqZ_lt; [lia|]. simpl.
  replace (1 + Z.of_nat (Z.to_nat (i - 1))) with i by lia.
  split; [by intros [= ->]|by intros ->].
Qed.

Lemma values_of_positive s i : (0 <? values_of s i) = assignment_of s i.
Proof.
  unfold values_of, assignment_of. case_bool_decide; [done|]. by case_bool_decide.
Qed.

Lemma eval_cnf_pointwise a a' cs :
  (∀ i, a i = a' i) → eval_cnf a cs = eval_cnf a' cs.
Proof.
  intros Ha. unfold eval_cnf, eval_clause.
  induction cs as [|c cs IH]; [done|]. simpl. rewrite IH. f_equal.
  induction c as [|l c IHc]; [done|]. simpl. rewrite IHc. f_equal.
  unfold eval_lit. by rewrite !Ha.
Qed.

Lemma ref_search_sat : sat_contract ref_search.
Proof.
  intros ps (Hopen & Hmv & Hlits). unfold ref_search.
  destruct (ref_budget ps (-1)); [done|].
  destruct (find _ _) as [s|] eqn:Hfind; [|done]. intros _. simpl.
  apply find_some in Hfind as [Hs%list_elem_of_In%all_assignments_spec Heval]. split.
  - intros i Hi. unfold values_of.
    pose proof (total_over_opp _ s i Hs) as Hopp.
    case_bool_decide; [by left|]. rewrite bool_decide_eq_true_2; [|by right].
    apply Hopp; [lia|done].
  - rewrite -Heval. apply eval_cnf_pointwise, values_of_positive.
Qed.

Lemma ref_search_unsat : unsat_contract ref_search.
Proof.
  intros ps (Hopen & Hmv & Hlits). unfold ref_search.
  destruct (ref_budget ps (-1)); [done|].
  destruct (find _ _) as [s|] eqn:Hfind; [done|]. intros _ a.
  set (n := Z.to_nat (max_var ps)) in *.
  destruct (signed_total (λ i, if a i then i else - i) n) as [Htot Hval].
  { intros i _. destruct (a i); auto. }
  pose proof (find_none _ _ Hfind (map (λ i, if a i then i else - i) (seqZ 1 (Z.of_nat n)))) as Hno.
  simpl in Hno. rewrite -Hno; [by apply list_elem_of_In, all_assignments_spec|].
  apply (eval_cnf_ext (max_var ps)); [done|]. intros i Hi.
  rewrite Hval; [lia|]. destruct (a i) eqn:Hai.
  - by rewrite bool_decide_eq_true_2.
  - rewrite bool_decide_eq_false_2; [lia|done].
Qed.

Lemma ref_search_unknown : unknown_contract ref_search.
Proof.
  intros ps. unfold ref_search, ref_budget.
  destruct (proplimit ps) as [l|]; [done|]. simpl.
  by destruct (find _ _).
Qed.

Lemma ref_search_codes : codes_contract ref_search.
Proof.
  intros ps. unfold ref_search. destruct (ref_budget ps (-1)); [auto|].
  destruct (find _ _); auto.
Qed.

(** ** What [solve] does with a session *)

Lemma setup_picosat_inv args w ps w1 :
  setup_picosat args w = (Some ps, w1) →
  ∃ a cs, args = Some a ∧ read_clauses (heap w) (arg_clauses a) = Some cs ∧
    Forall (Forall (λ z, int_of_pylong z ≠ 0)) cs ∧
    ps = session (length (trace w)) a cs ∧
    heap w1 = heap w ∧ oom w1 = oom w ∧
    trace w1 = trace w ++ Ev_minit (length (trace w)) ::
                 (if 2 <=? arg_verbose a then [Ev_print (length (trace w))] else []).
Proof.
  intros Hrun. destruct (setup_picosat_typed _ _ _ _ Hrun) as (a & cs & -> & Hcs).
  exists a, cs. split; [done|]. split; [done|].
  destruct (setup_picosat_spec a w cs Hcs) as (w' & Hheap & Hoom & Hres).
  destruct Hres as [(Hnz & Hrun' & Htrace & _)|(_ & Hrun' & _)];
    rewrite Hrun in Hrun'; simplify_eq. done.
Qed.

Lemma solve_unfold e args w ps w1 :
  setup_picosat args w = (Some ps, w1) →
  solve e args w =
  (let res := (e ps (-1)).1 in
   let picosat := searched e ps in
   result ←
     (if res =? PICOSAT_SATISFIABLE then
        r ← get_solution picosat; mret (of_list r)
      else if res =? PICOSAT_UNSATISFIABLE then
        r ← PyUnicode_FromString "UNSAT"; mret (of_string r)
      else if res =? PICOSAT_UNKNOWN then
        r ← PyUnicode_FromString "UNKNOWN"; mret (of_string r)
      else
        PyErr_Format PyExc_SystemError "picosat return value: %d" res;;
        mret Py_NULL);
   picosat_reset picosat;;
   mret result)
    (emit (invocation (handle ps) (e ps (-1)).1) w1).
Proof.
  intros Hsetup. unfold solve. unfold mbind at 1. unfold M_bind at 1. rewrite Hsetup.
  unfold picosat_sat, searched, emit, invocation.
  destruct (e ps (-1)) as [res v].
  unfold mbind at 1. unfold M_bind at 1. unfold log at 1.
  unfold mbind at 1. unfold M_bind at 1. unfold mbind at 1. unfold M_bind at 1.
  unfold log at 1. unfold mret at 1. unfold M_ret at 1.
  unfold mbind at 1. unfold M_bind at 1. unfold log at 1.
  cbn [fst snd heap pyerr oom trace]. by rewrite -!app_assoc.
Qed.

Lemma PyUnicode_FromString_eq s w :
  PyUnicode_FromString s w =
  match oom w with
  | true :: o =>
      (None, mkWorld (heap w) (Some (mkExc PyExc_MemoryError "" None)) o
               (trace w ++ [Ev_PyUnicode_FromString s false]))
  | _ =>
      (Some s, mkWorld (heap w) (pyerr w) (tail (oom w))
                 (trace w ++ [Ev_PyUnicode_FromString s true]))
  end.
Proof.
  unfold PyUnicode_FromString, host_alloc.
  unfold mbind, M_bind, mret, M_ret, log, PyErr_NoMemory, PyErr_Set.
  destruct (oom w) as [|[] o] eqn:Hoom; simpl; rewrite ?Hoom //.
Qed.

(** The result of [solve] on a session, by the answer of the engine. *)
Lemma solve_result e args w ps w1 r w' :
  setup_picosat args w = (Some ps, w1) → ready ps →
  solve e args w = (r, w') →
  let res := (e ps (-1)).1 in
  heap w' = heap w1 ∧
  ((res = PICOSAT_SATISFIABLE ∧
    (r = Py_List (store_items (decode (searched e ps)) (tail (oom w1))).1 ∨ r = Py_NULL)) ∨
   (res = PICOSAT_UNSATISFIABLE ∧ (r = Py_Unicode "UNSAT" ∨ r = Py_NULL)) ∨
   (res = PICOSAT_UNKNOWN ∧ (r = Py_Unicode "UNKNOWN" ∨ r = Py_NULL)) ∨
   (res ≠ PICOSAT_SATISFIABLE ∧ res ≠ PICOSAT_UNSATISFIABLE ∧
    res ≠ PICOSAT_UNKNOWN ∧ r = Py_NULL)) ∧
  (oom w1 = [] → r = Py_NULL →
   res ≠ PICOSAT_SATISFIABLE ∧ res ≠ PICOSAT_UNSATISFIABLE ∧ res ≠ PICOSAT_UNKNOWN).
Proof.
  intros Hsetup [Hmv Hopen] Hrun. rewrite (solve_unfold e args w ps w1 Hsetup) in Hrun.
  cbn zeta in *. revert Hrun.
  destruct (_ =? PICOSAT_SATISFIABLE) eqn:H1.
  { apply Z.eqb_eq in H1. unfold mbind, M_bind. rewrite get_solution_eq //.
    cbn [emit oom]. destruct (oom w1) as [|[] o]; msimpl; intros ?; simplify_eq;
      (split; [done|]); (split; [left; auto|]); intros; simplify_eq. }
  destruct (_ =? PICOSAT_UNSATISFIABLE) eqn:H2.
  { apply Z.eqb_eq in H2. unfold mbind, M_bind. rewrite PyUnicode_FromString_eq.
    cbn [emit oom]. destruct (oom w1) as [|[] o]; msimpl; intros ?; simplify_eq;
      (split; [done|]); (split; [right; left; auto|]); intros; simplify_eq. }
  destruct (_ =? PICOSAT_UNKNOWN) eqn:H3.
  { apply Z.eqb_eq in H3. unfold mbind, M_bind. rewrite PyUnicode_FromString_eq.
    cbn [emit oom]. destruct (oom w1) as [|[] o]; msimpl; intros ?; simplify_eq;
      (split; [done|]); (split; [right; right; left; auto|]); intros; simplify_eq. }
  apply Z.eqb_neq in H1, H2, H3. msimpl. intros ?; simplify_eq.
  split; [done|]. split; [right; right; right; auto|]. auto.
Qed.

(** [solve] on a session when the host has memory. *)
Lemma solve_eq e args w ps w1 :
  setup_picosat args w = (Some ps, w1) → ready ps → oom w1 = [] →
  let res := (e ps (-1)).1 in
  let h := handle ps in
  solve e args w =
  if res =? PICOSAT_SATISFIABLE then
    (Py_List (decode (searched e ps)),
     emit (invocation h res ++ [Ev_PyList_New (max_var ps) true; Ev_reset h]) w1)
  else if res =? PICOSAT_UNSATISFIABLE then
    (Py_Unicode "UNSAT",
     emit (invocation h res ++ [Ev_PyUnicode_FromString "UNSAT" true; Ev_reset h]) w1)
  else if res =? PICOSAT_UNKNOWN then
    (Py_Unicode "UNKNOWN",
     emit (invocation h res ++ [Ev_PyUnicode_FromString "UNKNOWN" true; Ev_reset h]) w1)
  else
    (Py_NULL,
     mkWorld (heap w1)
             (Some (mkExc PyExc_SystemError "picosat return value: %d" (Some res)))
             (oom w1) (trace w1 ++ invocation h res ++ [Ev_reset h])).
Proof.
  intros Hsetup [Hmv Hopen] Hoom res h. rewrite (solve_unfold e args w ps w1 Hsetup).
  cbn zeta. fold res.
  destruct (res =? PICOSAT_SATISFIABLE) eqn:H1.
  { unfold mbind, M_bind. rewrite get_solution_mem //.
    msimpl. unfold emit. rewrite Hoom -!app_assoc //. }
  destruct (res =? PICOSAT_UNSATISFIABLE) eqn:H2.
  { unfold mbind, M_bind. rewrite PyUnicode_FromString_eq. cbn [emit oom]. rewrite Hoom.
    msimpl. unfold emit. rewrite Hoom -!app_assoc //. }
  destruct (res =? PICOSAT_UNKNOWN) eqn:H3.
  { unfold mbind, M_bind. rewrite PyUnicode_FromString_eq. cbn [emit oom]. rewrite Hoom.
    msimpl. unfold emit. rewrite Hoom -!app_assoc //. }
  msimpl. unfold emit. rewrite -!app_assoc //.
Qed.

Lemma setup_picosat_ready args w ps w1 :
  setup_picosat args w = (Some ps, w1) → wf_engine ps.
Proof.
  intros Hsetup.
  destruct (setup_picosat_inv _ _ _ _ Hsetup) as (a & cs & _ & _ & Hnz & -> & _).
  by apply session_wf.
Qed.

(** ** Soundness *)

(** The list decoded after a SATISFIABLE answer is a total assignment,
    gives every variable the engine's value, and satisfies every clause of
    the engine. *)
Lemma decode_sound e ps :
  sat_contract e → wf_engine ps → (e ps (-1)).1 = PICOSAT_SATISFIABLE →
  let sol := decode (searched e ps) in
  total_over (Z.to_nat (max_var ps)) sol ∧
  (∀ i, 1 ≤ i ≤ max_var ps → assignment_of sol i = (0 <? (e ps (-1)).2 i)) ∧
  eval_cnf (assignment_of sol) (clauses ps) = true.
Proof.
  intros He Hwf Hres. destruct (He ps Hwf Hres) as [Hvals Heval].
  destruct Hwf as (Hopen & Hmv & Hlits). cbn zeta. unfold decode.
  cbn [searched max_var vals].
  destruct (signed_total (λ i, (e ps (-1)).2 i * i) (Z.to_nat (max_var ps))) as [Htot Hval].
  { intros i Hi. destruct (Hvals i) as [-> | ->]; lia. }
  rewrite Z2Nat.id // in Htot, Hval.
  assert (∀ i, 1 ≤ i ≤ max_var ps →
            assignment_of (map (λ i, (e ps (-1)).2 i * i) (seqZ 1 (max_var ps))) i
            = (0 <? (e ps (-1)).2 i)) as Hagree.
  { intros i Hi. rewrite Hval //. destruct (Hvals i Hi) as [Hv|Hv]; rewrite Hv.
    - rewrite bool_decide_eq_true_2; [lia|done].
    - rewrite bool_decide_eq_false_2; [lia|done]. }
  split; [done|]. split; [done|].
  rewrite -Heval. by apply (eval_cnf_ext (max_var ps)).
Qed.

Lemma eval_cnf_subset a cs cs' :
  (∀ c, c ∈ cs → c ∈ cs') → eval_cnf a cs' = true → eval_cnf a cs = true.
Proof. rewrite !eval_cnf_true. auto. Qed.

(** An advance with memory for everything leaves the host with memory. *)
Lemma soliter_next_oom e it w r it' w' :
  ready (it_picosat it) → oom w = [] →
  soliter_next e it w = ((r, it'), w') → oom w' = [].
Proof.
  intros Hready Hoom.
  destruct ((e (it_picosat it) (-1)).1 =? PICOSAT_SATISFIABLE) eqn:Hres.
  { apply Z.eqb_eq in Hres. rewrite soliter_next_sat //. intros ?; simplify_eq.
    by rewrite /= Hoom. }
  rewrite soliter_next_unfold. cbn zeta. rewrite Hres.
  destruct (_ || _); msimpl; intros ?; by simplify_eq.
Qed.

(** Every list a run of advances yields, the host having memory, satisfies
    the clauses the engine had at its start. *)
Lemma advances_sound e (He : sat_contract e) cs n :
  ∀ it w rs it' w',
    wf_engine (it_picosat it) → (∀ c, c ∈ cs → c ∈ clauses (it_picosat it)) →
    oom w = [] → advances e n it w = ((rs, it'), w') →
    ∀ sol, Some sol ∈ rs → eval_cnf (assignment_of sol) cs = true.
Proof.
  induction n as [|n IH]; intros it w rs it' w' Hwf Hcs Hoom Hrun sol Hsol.
  { msimpl. simplify_eq. by apply elem_of_nil in Hsol. }
  cbn [advances] in Hrun. unfold mbind, M_bind at 1 in Hrun.
  destruct (soliter_next e it w) as [[r it1] w1] eqn:Hnext.
  unfold mbind, M_bind at 1 in Hrun.
  destruct (advances e n it1 w1) as [[rs1 it2] w2] eqn:Hrest.
  unfold mret, M_ret in Hrun. simplify_eq.
  pose proof (wf_engine_ready _ Hwf) as Hready.
  destruct (soliter_next_mem e it w r it1 w1 Hready Hnext) as (_ & _ & Hps).
  pose proof (soliter_next_oom e it w r it1 w1 Hready Hoom Hnext) as Hoom1.
  apply elem_of_cons in Hsol as [Hsol|Hsol].
  - subst r.
    destruct (soliter_next_yields_mem e it w sol it1 w1 Hready Hoom Hnext) as (Hres & -> & _).
    destruct (decode_sound e _ He Hwf Hres) as (_ & _ & Heval).
    exact (eval_cnf_subset _ _ _ Hcs Heval).
  - eapply (IH it1 w1 rs1 _ _); [| |exact Hoom1|exact Hrest|exact Hsol].
    + destruct Hps as [-> | ->]; [by apply searched_wf|by apply blocked_wf, searched_wf].
    + intros c Hc. destruct Hps as [-> | ->]; simpl; [auto|].
      apply elem_of_app. left. auto.
Qed.

Lemma valid_session a w cs :
  read_clauses (heap w) (arg_clauses a) = Some cs → valid_clauses cs = true →
  ∃ w1, setup_picosat (Some a) w = (Some (session (length (trace w)) a cs), w1) ∧
        heap w1 = heap w ∧ oom w1 = oom w ∧ pyerr w1 = pyerr w ∧
        trace w1 = trace w ++ Ev_minit (length (trace w)) ::
                     (if 2 <=? arg_verbose a then [Ev_print (length (trace w))] else []) ∧
        wf_engine (session (length (trace w)) a cs) ∧
        clauses (session (length (trace w)) a cs) = cs.
Proof.
  intros Hcs Hvalid. destruct (valid_clauses_spec cs Hvalid) as (Hid & Hnz & Hlong).
  destruct (setup_picosat_spec a w cs Hcs) as (w1 & Hheap & Hoom & Hres).
  destruct Hres as [(_ & Hrun & Htrace & Herr)|(Hex & _)].
  - exists w1. split; [done|]. split; [done|]. split; [done|]. split; [by apply Herr|].
    split; [done|]. split; [by apply session_wf|]. rewrite session_fields //.
  - exfalso. apply Exists_exists in Hex as (c & Hc & Hex).
    apply Exists_exists in Hex as (l & Hl & Hz).
    rewrite Forall_forall in Hnz. specialize (Hnz c Hc).
    rewrite Forall_forall in Hnz. by apply (Hnz l).
Qed.

(** The setup over [[4294967297]]: the literal arrives as 1. *)
Lemma setup_wide :
  setup_picosat (Some (default_args 0)) (world0 heap_wide) =
  (Some (session 0 (default_args 0) [[4294967297]]),
   mkWorld heap_wide None [] [Ev_minit 0]).
Proof. vm_compute. reflexivity. Qed.

Lemma it_wide_new :
  itersolve (Some (default_args 0)) (world0 heap_wide) =
  (Some it_wide, mkWorld heap_wide None [] [Ev_GC_New true; Ev_minit 1; Ev_GC_Track]).
Proof. vm_compute. reflexivity. Defined.

(** An engine that honours its contract answers SATISFIABLE on a session
    holding the one clause [1] over one variable, with that variable true. *)
Lemma session_wide_answer e h :
  sat_contract e → unsat_contract e → unknown_contract e → codes_contract e →
  let ps := session h (default_args 0) [[4294967297]] in
  wf_engine ps ∧ (e ps (-1)).1 = PICOSAT_SATISFIABLE ∧ decode (searched e ps) = [1].
Proof.
  intros Hsat Hunsat Hunk Hcodes ps.
  assert (Forall (Forall (λ z, int_of_pylong z ≠ 0)) [[4294967297]]) as Hnz
    by (by repeat constructor).
  pose proof (session_wf h (default_args 0) [[4294967297]] Hnz) as Hwf. fold ps in Hwf.
  assert (max_var ps = 1 ∧ clauses ps = [[1]] ∧ proplimit ps = None) as (Hmv & Hcl & Hpl)
    by (subst ps; by rewrite session_fields).
  assert ((e ps (-1)).1 = PICOSAT_SATISFIABLE) as Hres.
  { destruct (Hcodes ps) as [Hr|[Hr|Hr]]; [done| |].
    - pose proof (Hunsat ps Hwf Hr (λ _, true)) as Heval. by rewrite Hcl in Heval.
    - by apply Hunk in Hr. }
  split; [done|]. split; [done|].
  destruct (Hsat ps Hwf Hres) as [Hvals Heval]. rewrite Hcl in Heval.
  unfold decode. cbn [searched max_var vals]. rewrite Hmv.
  change (seqZ 1 1) with [1]. cbn [map].
  unfold eval_cnf, eval_clause, eval_lit in Heval. cbn in Heval.
  destruct (Hvals 1) as [Hv|Hv]; [lia|by rewrite Hv|].
  rewrite Hv in Heval. done.
Qed.

(** C1. The code does not do what the claim says.  The clause set
    [[4294967297]] is a list of lists of non-zero ints, and is accepted;
    [add_clause] converts the long it gets from [PyLong_AsLong] to [int], so
    the literal reaches the engine as 1.  Whatever engine honours its
    contract, [solve] returns [1] and the iterator of [itersolve] yields
    [1], with no error set; this list says nothing of variable 4294967297
    and leaves the input clause false. *)
Theorem narrowed_literal_breaks_soundness e :
  sat_contract e → unsat_contract e → unknown_contract e → codes_contract e →
  read_clauses heap_wide 0 = Some [[4294967297]] ∧
  (∃ w', solve e (Some (default_args 0)) (world0 heap_wide) = (Py_List [1], w') ∧
         pyerr w' = None) ∧
  (∃ it w1 it' w2,
     itersolve (Some (default_args 0)) (world0 heap_wide) = (Some it, w1) ∧
     soliter_next e it w1 = ((Some [1], it'), w2) ∧ pyerr w2 = None) ∧
  eval_cnf (assignment_of [1]) [[4294967297]] = false.
Proof.
  intros Hsat Hunsat Hunk Hcodes. split; [by vm_compute|]. split; [|split; [|done]].
  - destruct (session_wide_answer e 0 Hsat Hunsat Hunk Hcodes) as (Hwf & Hres & Hdec).
    rewrite (solve_eq e _ _ _ _ setup_wide (wf_engine_ready _ Hwf) eq_refl). cbn zeta.
    rewrite Hres Hdec. cbn [Z.eqb Pos.eqb PICOSAT_SATISFIABLE]. by eexists.
  - destruct (session_wide_answer e 1 Hsat Hunsat Hunk Hcodes) as (Hwf & Hres & Hdec).
    set (w1 := mkWorld heap_wide None [] [Ev_GC_New true; Ev_minit 1; Ev_GC_Track]).
    eexists it_wide, w1, _, _. split; [exact it_wide_new|].
    rewrite (soliter_next_sat e it_wide w1 (wf_engine_ready _ Hwf) eq_refl Hres). cbn zeta.
    change (it_picosat it_wide) with (session 1 (default_args 0) [[4294967297]]).
    rewrite Hdec. by split.
Qed.

(** ** The iterators of an enumeration *)

Lemma itersolve_inv args w it w' :
  itersolve args w = (Some it, w') →
  ∃ a cs w0, args = Some a ∧ (host_alloc w = (true, w0)) ∧
    read_clauses (heap w) (arg_clauses a) = Some cs ∧
    Forall (Forall (λ z, int_of_pylong z ≠ 0)) cs ∧
    it = mkIter (session (S (length (trace w))) a cs) None ∧
    heap w' = heap w ∧ oom w' = oom w0 ∧
    trace w' = trace w ++ Ev_GC_New true :: Ev_minit (S (length (trace w))) ::
                 (if 2 <=? arg_verbose a then [Ev_print (S (length (trace w)))] else [])
                 ++ [Ev_GC_Track].
Proof.
  unfold itersolve, PyObject_GC_New. unfold mbind, M_bind, mret, M_ret.
  destruct (host_alloc w) as [[] w0] eqn:Halloc; simpl; [|msimpl; congruence].
  assert (heap w0 = heap w ∧ trace w0 = trace w) as [Hheap Htrace].
  { unfold host_alloc in Halloc. destruct (oom w) as [|[] o]; by simplify_eq. }
  destruct (setup_picosat args _) as [[ps|] w1] eqn:Hsetup; [|congruence].
  intros ?; simplify_eq.
  destruct (setup_picosat_inv _ _ _ _ Hsetup)
    as (a & cs & -> & Hcs & Hnz & -> & Hheap1 & Hoom1 & Htrace1).
  simpl in *. rewrite Hheap in Hcs. rewrite Htrace length_app Nat.add_1_r in Htrace1 |- *.
  exists a, cs, w0. do 5 (split; [done|]). split; [congruence|]. split; [done|].
  rewrite Htrace1 -!app_assoc /=. by destruct (2 <=? arg_verbose a).
Qed.

(** The temporary storage of an iterator is never recorded: [blocksol]
    receives the pointer by value, so [it->mem] stays NULL from [itersolve]
    on.  Its engine always is in a state the search contract covers. *)
Lemma reachable_inv e it :
  reachable e it → wf_engine (it_picosat it) ∧ it_mem it = None.
Proof.
  induction 1 as [args w it w' Hnew|it w r it' w' Hreach [Hwf Hmem] Hnext].
  - destruct (itersolve_inv _ _ _ _ Hnew) as (a & cs & w0 & _ & _ & _ & Hnz & -> & _).
    split; [by apply session_wf|done].
  - destruct (soliter_next_mem e it w r it' w' (wf_engine_ready _ Hwf) Hnext)
      as (Hmem' & _ & Hps).
    split; [|congruence].
    destruct Hps as [-> | ->]; [by apply searched_wf|by apply blocked_wf, searched_wf].
Qed.

Lemma advances_reachable e n :
  ∀ it w rs it' w', reachable e it → advances e n it w = ((rs, it'), w') →
    reachable e it'.
Proof.
  induction n as [|n IH]; intros it w rs it' w' Hreach Hrun.
  { msimpl. by simplify_eq. }
  cbn [advances] in Hrun. unfold mbind, M_bind at 1 in Hrun.
  destruct (soliter_next e it w) as [[r it1] w1] eqn:Hnext.
  unfold mbind, M_bind at 1 in Hrun.
  destruct (advances e n it1 w1) as [[rs1 it2] w2] eqn:Hrest.
  unfold mret, M_ret in Hrun. simplify_eq.
  eapply IH; [|exact Hrest]. exact (reach_next e it w r it1 w1 Hreach Hnext).
Qed.

(** ** The blocking clause *)

(** C3. In an enumeration, every advance in which the engine answers
    SATISFIABLE (the host having memory) yields the decoded values and
    leaves the engine with exactly one more clause: the literals [-i] or
    [+i], opposite to the value of variable [i], for i = 1..N in order,
    followed by the terminator 0.  The variable count stays N, and the
    clause is false under the total assignments that agree with the current
    values on 1..N and true under all others. *)
Theorem blocksol_blocks_current e it w :
  reachable e it →
  (e (it_picosat it) (-1)).1 = PICOSAT_SATISFIABLE → oom w = [] →
  let ps := searched e (it_picosat it) in
  let n := picosat_variables ps in
  let block := map (λ i, if 0 <? picosat_deref ps i then - i else i) (seqZ 1 n) in
  ∃ it' w',
    soliter_next e it w =
      ((Some (map (λ i, picosat_deref ps i * i) (seqZ 1 n)), it'), w') ∧
    it_picosat it' = foldl picosat_add ps (block ++ [0]) ∧
    clauses (it_picosat it') = clauses ps ++ [block] ∧
    open_clause (it_picosat it') = [] ∧
    picosat_variables (it_picosat it') = n ∧
    ∀ a : Z → bool,
      eval_clause a block = false ↔ ∀ i, 1 ≤ i ≤ n → a i = (0 <? picosat_deref ps i).
Proof.
  intros Hreach Hres Hoom. destruct (reachable_inv e it Hreach) as [Hwf _].
  pose proof (wf_engine_ready _ Hwf) as Hready.
  pose proof (soliter_next_sat e it w Hready Hoom Hres) as Hnext.
  cbn zeta in *. destruct Hready as [Hmv Hopen].
  destruct (blocksol_engine (searched e (it_picosat it)) Hmv Hopen) as [_ Heq].
  eexists _, _. split; [exact Hnext|]. split; [exact Heq|]. split; [done|].
  split; [done|]. split; [done|]. intros a. apply block_clause_false.
Qed.

(** ** The shape of a returned assignment *)



(** ** Zero literals *)

Lemma zero_literal_exists cs :
  (∃ c, c ∈ cs ∧ 0 ∈ c) → ¬ Forall (Forall (λ z, int_of_pylong z ≠ 0)) cs.
Proof.
  intros (c & Hc & H0) Hnz. rewrite Forall_forall in Hnz. specialize (Hnz c Hc).
  rewrite Forall_forall in Hnz. by apply (Hnz 0 H0).
Qed.

(** C5. For a list of lists of ints with a literal 0, [solve] and
    [itersolve] (once the iterator object is allocated) return NULL with
    the ValueError "non-zero interger expected" set; by then the engine
    instance has been created and reset, and no search has been run. *)
Theorem zero_literal_rejected e a w cs :
  read_clauses (heap w) (arg_clauses a) = Some cs →
  (∃ c, c ∈ cs ∧ 0 ∈ c) →
  (∃ w', solve e (Some a) w = (Py_NULL, w') ∧
     pyerr w' = Some zero_literal_error ∧
     trace w' = trace w ++ [Ev_minit (length (trace w)); Ev_reset (length (trace w))]) ∧
  (∀ w0, host_alloc w = (true, w0) →
     ∃ w', itersolve (Some a) w = (None, w') ∧
       pyerr w' = Some zero_literal_error ∧
       trace w' = trace w ++ [Ev_GC_New true; Ev_minit (S (length (trace w)));
                              Ev_reset (S (length (trace w)))]).
Proof.
  intros Hcs Hzero%zero_literal_exists. split.
  - destruct (setup_picosat_spec a w cs Hcs) as (w1 & _ & _ & Hres).
    destruct Hres as [(Hnz & _)|(_ & Hrun & Htrace & Herr)]; [done|].
    exists w1. unfold solve. unfold mbind, M_bind. rewrite Hrun. done.
  - intros w0 Halloc.
    assert (heap w0 = heap w ∧ trace w0 = trace w) as [Hheap Htrace0].
    { unfold host_alloc in Halloc. destruct (oom w) as [|[] o]; by simplify_eq. }
    unfold itersolve, PyObject_GC_New. unfold mbind, M_bind, mret, M_ret.
    rewrite Halloc. cbn [negb].
    destruct (setup_picosat_spec a (snd (log (Ev_GC_New true) w0)) cs)
      as (w1 & _ & _ & Hres); [by rewrite /= Hheap|].
    destruct Hres as [(Hnz & _)|(_ & Hrun & Htrace & Herr)]; [done|].
    simpl in Hrun. unfold log. cbn [negb]. rewrite Hrun.
    exists w1. split; [done|]. split; [done|].
    rewrite Htrace /= Htrace0 length_app Nat.add_1_r -app_assoc //.
Qed.

(** ** The undecided answer *)

(** C8. When the engine reports UNKNOWN, [solve] never returns "UNSAT",
    and returns "UNKNOWN" when the host has memory for the string.  Under
    the contract that UNKNOWN arises only from an installed propagation
    limit, "UNKNOWN" is returned only if [prop_limit > 0]: with
    [prop_limit = 0] no limit is installed and, the host having memory,
    [solve] returns a list or "UNSAT". *)
Theorem unknown_only_with_limit e a w ps w1 :
  unknown_contract e → codes_contract e →
  0 ≤ arg_prop_limit a →
  setup_picosat (Some a) w = (Some ps, w1) →
  ((e ps (-1)).1 = PICOSAT_UNKNOWN →
     (solve e (Some a) w).1 ≠ Py_Unicode "UNSAT" ∧
     (oom w = [] → (solve e (Some a) w).1 = Py_Unicode "UNKNOWN")) ∧
  ((solve e (Some a) w).1 = Py_Unicode "UNKNOWN" → 0 < arg_prop_limit a) ∧
  (arg_prop_limit a = 0 →
     proplimit ps = None ∧
     (oom w = [] →
      (∃ sol, (solve e (Some a) w).1 = Py_List sol) ∨
      (solve e (Some a) w).1 = Py_Unicode "UNSAT")).
Proof.
  intros Hunk Hcodes Hlim Hsetup.
  destruct (setup_picosat_inv _ _ _ _ Hsetup)
    as (a' & cs & Ha' & Hcs & Hnz & Hps & _ & Hoom1 & _).
  injection Ha' as <-.
  pose proof (session_wf (length (trace w)) a cs Hnz) as Hwf. rewrite -Hps in Hwf.
  assert (proplimit ps = if arg_prop_limit a =? 0 then None else Some (arg_prop_limit a))
    as Hpl by (by rewrite Hps session_fields).
  destruct (solve e (Some a) w) as [r w'] eqn:Hrun.
  destruct (solve_result e _ _ _ _ _ _ Hsetup (wf_engine_ready _ Hwf) Hrun)
    as (_ & Hres & Hnull).
  rewrite Hoom1 in Hnull. cbn [fst]. split; [|split].
  - intros Heq. rewrite Heq in Hres, Hnull.
    destruct Hres as [(? & _)|[(? & _)|[(_ & [-> | ->])|(_ & _ & ? & _)]]]; try done.
    split; [done|]. intros Hoom. by destruct (Hnull Hoom eq_refl) as (_ & _ & ?).
  - intros ->. destruct (Z.eqb_spec (arg_prop_limit a) 0) as [Hz|Hz]; [|lia].
    destruct Hres as [(_ & [?|?])|[(_ & [?|?])|[(Heq & _)|(_ & _ & _ & ?)]]]; try done.
    by apply Hunk in Heq.
  - intros Hz. rewrite Hz in Hpl. split; [done|]. intros Hoom.
    specialize (Hnull Hoom).
    destruct Hres as [(_ & [-> | ->])|[(_ & [-> | ->])|[(Heq & _)|(H1 & H2 & H3 & _)]]];
      eauto; try (destruct (Hnull eq_refl) as (? & ? & ?); destruct (Hcodes ps); tauto).
    + by apply Hunk in Heq.
    + destruct (Hcodes ps); tauto.
Qed.

(** ** Enumeration *)


Section Enumeration.

Variable e : PicoSAT → Z → Z * (Z → Z).
Hypothesis e_sat : sat_contract e.
Hypothesis e_unsat : unsat_contract e.
Hypothesis e_unknown : unknown_contract e.
Hypothesis e_codes : codes_contract e.

Variable cs : list (list Z).
Variable n : nat.





End Enumeration.


(** ** The life of a session *)

Lemma soliter_next_events e it w r it' w' :
  ready (it_picosat it) → oom w = [] →
  soliter_next e it w = ((r, it'), w') →
  oom w' = [] ∧ handle (it_picosat it') = handle (it_picosat it) ∧
  ∃ evs, trace w' = trace w ++ evs ∧ ∀ h, Ev_reset h ∉ evs.
Proof.
  intros Hready Hoom Hnext.
  destruct (decide ((e (it_picosat it) (-1)).1 = PICOSAT_SATISFIABLE)) as [Hsat|Hsat].
  { rewrite soliter_next_sat // in Hnext. simplify_eq. split; [by rewrite /= Hoom|].
    split; [done|]. eexists. split; [done|]. intros h Hin.
    destruct (it_mem it); repeat (apply elem_of_cons in Hin as [Hin|Hin]; [done|]);
      by apply elem_of_nil in Hin. }
  destruct (decide ((e (it_picosat it) (-1)).1 = PICOSAT_UNSATISFIABLE ∨
                    (e (it_picosat it) (-1)).1 = PICOSAT_UNKNOWN)) as [Hstop|Hother].
  { rewrite soliter_next_stop // in Hnext. simplify_eq. split; [done|].
    split; [done|]. eexists. split; [done|]. intros h Hin.
    repeat (apply elem_of_cons in Hin as [Hin|Hin]; [done|]). by apply elem_of_nil in Hin. }
  destruct (soliter_next_other e it w) as (w1 & Hrun & _ & Hoom1 & Htrace); [tauto..|].
  rewrite Hrun in Hnext. simplify_eq. split; [congruence|]. split; [done|].
  eexists. split; [exact Htrace|]. intros h Hin.
  repeat (apply elem_of_cons in Hin as [Hin|Hin]; [done|]). by apply elem_of_nil in Hin.
Qed.

Lemma advances_events e n :
  ∀ it w rs it' w',
    reachable e it → oom w = [] →
    advances e n it w = ((rs, it'), w') →
    oom w' = [] ∧ handle (it_picosat it') = handle (it_picosat it) ∧
    ∃ evs, trace w' = trace w ++ evs ∧ ∀ h, Ev_reset h ∉ evs.
Proof.
  induction n as [|n IH]; intros it w rs it' w' Hreach Hoom Hrun.
  { msimpl. simplify_eq. split; [done|]. split; [done|]. exists [].
    split; [by rewrite app_nil_r|]. intros h Hin. by apply elem_of_nil in Hin. }
  cbn [advances] in Hrun. unfold mbind, M_bind at 1 in Hrun.
  destruct (soliter_next e it w) as [[r it1] w1] eqn:Hnext.
  unfold mbind, M_bind at 1 in Hrun.
  destruct (advances e n it1 w1) as [[rs1 it2] w2] eqn:Hrest.
  unfold mret, M_ret in Hrun. simplify_eq.
  destruct (reachable_inv e it Hreach) as [Hwf _].
  destruct (soliter_next_events e it w r it1 w1 (wf_engine_ready _ Hwf) Hoom Hnext)
    as (Hoom1 & Hh1 & evs1 & Htr1 & Hno1).
  destruct (IH it1 w1 rs1 it' w' (reach_next e it w r it1 w1 Hreach Hnext) Hoom1 Hrest)
    as (Hoom2 & Hh2 & evs2 & Htr2 & Hno2).
  split; [done|]. split; [congruence|]. exists (evs1 ++ evs2).
  split; [by rewrite Htr2 Htr1 app_assoc|].
  intros h [Hin|Hin]%elem_of_app; [exact (Hno1 h Hin)|exact (Hno2 h Hin)].
Qed.

Lemma count_occ_absent (evs : list event) ev :
  ev ∉ evs → count_occ event_eq_dec evs ev = 0%nat.
Proof. rewrite list_elem_of_In. apply count_occ_not_In. Qed.

(** C6 (amended). When the engine answers UNSATISFIABLE or
    UNKNOWN, the advance returns NULL without setting an error, and keeps
    the session: nothing but the engine invocation happens, the iterator
    still holds the same instance with the same clauses, and a later
    advance invokes the engine again.  The session is released exactly
    once: however often the iterator was advanced (the host having memory),
    the only [picosat_reset] is the one of [soliter_dealloc]. *)
Theorem exhaustion_keeps_session e it w :
  reachable e it →
  let ps := it_picosat it in
  ((e ps (-1)).1 = PICOSAT_UNSATISFIABLE ∨ (e ps (-1)).1 = PICOSAT_UNKNOWN →
     ∃ it' w', soliter_next e it w = ((None, it'), w') ∧ pyerr w' = pyerr w ∧
       trace w' = trace w ++ invocation (handle ps) (e ps (-1)).1 ∧
       handle (it_picosat it') = handle ps ∧
       clauses (it_picosat it') = clauses ps ∧ reachable e it') ∧
  (oom w = [] →
   ∀ n rs it' w' w'',
     advances e n it w = ((rs, it'), w') → soliter_dealloc it' w' = (tt, w'') →
     ∃ evs, trace w'' = trace w ++ evs ∧
            count_occ event_eq_dec evs (Ev_reset (handle ps)) = 1%nat).
Proof.
  intros Hreach. cbn zeta. split.
  - intros Hres. eexists _, _. split; [by apply soliter_next_stop|].
    split; [done|]. split; [done|]. split; [done|]. split; [done|].
    eapply reach_next; [exact Hreach|]. by apply (soliter_next_stop e it w).
  - intros Hoom n rs it' w' w'' Hrun Hdealloc.
    destruct (advances_events e n it w rs it' w' Hreach Hoom Hrun)
      as (_ & Hh & evs & Htr & Hno).
    destruct (reachable_inv e it' (advances_reachable e n _ _ _ _ _ Hreach Hrun)) as [_ Hmem].
    unfold soliter_dealloc in Hdealloc. rewrite Hmem in Hdealloc.
    unfold picosat_reset, mbind, M_bind, mret, M_ret, log in Hdealloc.
    simpl in Hdealloc. simplify_eq.
    exists (evs ++ [Ev_GC_UnTrack; Ev_reset (handle (it_picosat it)); Ev_GC_Del]).
    split; [by rewrite /= Htr Hh -!app_assoc|].
    rewrite count_occ_app count_occ_absent; [apply Hno|].
    cbn [count_occ Nat.add].
    destruct (event_eq_dec Ev_GC_UnTrack (Ev_reset (handle (it_picosat it)))); [done|].
    destruct (event_eq_dec (Ev_reset (handle (it_picosat it)))
                (Ev_reset (handle (it_picosat it)))); [|done].
    by destruct (event_eq_dec Ev_GC_Del (Ev_reset (handle (it_picosat it)))).
Qed.

(** ** The iterator and the caller's objects *)

Lemma heap_blind_ret {A} (a : A) : heap_blind (mret a).
Proof. done. Qed.

Lemma heap_blind_bind {A B} (c : M A) (k : A → M B) :
  heap_blind c → (∀ a, heap_blind (k a)) → heap_blind (c ≫= k).
Proof.
  intros Hc Hk h' w. unfold mbind, M_bind. rewrite Hc.
  destruct (c w) as [a w1]. simpl. by rewrite Hk.
Qed.

Lemma heap_blind_log ev : heap_blind (log ev).
Proof. done. Qed.

Lemma heap_blind_host_alloc : heap_blind host_alloc.
Proof. intros h' w. unfold host_alloc. simpl. by destruct (oom w). Qed.

Lemma heap_blind_fresh_addr : heap_blind fresh_addr.
Proof. done. Qed.

Lemma heap_blind_PyErr_Set ty msg arg : heap_blind (PyErr_Set ty msg arg).
Proof. done. Qed.

Create HintDb blind.

#[local] Hint Resolve heap_blind_ret heap_blind_log heap_blind_host_alloc
  heap_blind_fresh_addr heap_blind_PyErr_Set : blind.

Ltac blind :=
  repeat first
    [ solve [eauto with blind]
    | apply heap_blind_bind; [|intros ?]
    | match goal with
      | |- heap_blind (match ?x with _ => _ end) => destruct x
      end ].

Lemma heap_blind_PyMem_Malloc bytes : heap_blind (PyMem_Malloc bytes).
Proof. unfold PyMem_Malloc. blind. Qed.

Lemma heap_blind_PyList_New n : heap_blind (PyList_New n).
Proof. unfold PyList_New, PyErr_SetString, PyErr_NoMemory. blind. Qed.

Lemma heap_blind_PyList_SetItem lst i item : heap_blind (PyList_SetItem lst i item).
Proof. unfold PyList_SetItem, PyErr_SetString. blind. Qed.

Lemma heap_blind_PyInt_FromLong z : heap_blind (PyInt_FromLong z).
Proof. unfold PyInt_FromLong, PyErr_NoMemory. blind. Qed.

Lemma heap_blind_picosat_reset ps : heap_blind (picosat_reset ps).
Proof. unfold picosat_reset. blind. Qed.

#[local] Hint Resolve heap_blind_PyMem_Malloc heap_blind_PyList_New
  heap_blind_PyList_SetItem heap_blind_PyInt_FromLong heap_blind_picosat_reset : blind.

Lemma heap_blind_get_solution_loop ps idx :
  ∀ lst, heap_blind (get_solution_loop ps idx lst).
Proof. induction idx as [|i idx IH]; intros lst; simpl; blind. Qed.

#[local] Hint Resolve heap_blind_get_solution_loop : blind.

Lemma heap_blind_get_solution ps : heap_blind (get_solution ps).
Proof. unfold get_solution. blind. Qed.

Lemma heap_blind_blocksol ps mem : heap_blind (blocksol ps mem).
Proof. unfold blocksol, PyErr_NoMemory. blind. Qed.

Lemma heap_blind_picosat_sat e ps dl : heap_blind (picosat_sat e ps dl).
Proof. unfold picosat_sat. blind. Qed.

#[local] Hint Resolve heap_blind_get_solution heap_blind_blocksol
  heap_blind_picosat_sat : blind.

Lemma heap_blind_soliter_next e it : heap_blind (soliter_next e it).
Proof. unfold soliter_next, PyErr_SetString, PyErr_Format. blind. Qed.

#[local] Hint Resolve heap_blind_soliter_next : blind.

Lemma heap_blind_advances e n : ∀ it, heap_blind (advances e n it).
Proof. induction n as [|n IH]; intros it; simpl; blind. Qed.

(** C9. A successful [solve] or [itersolve] has read a list of lists of
    ints and has pushed every literal, in order, into the engine by the
    time setup returns (as converted to a C int, which leaves the literals
    of a valid clause set as they are).  The iterator holds an engine and
    a raw pointer and nothing else, and [soliter_traverse] reports no
    reference; whatever the caller's objects have become, the advances of
    the iterator return the same results and leave it in the same state. *)
Theorem iterator_independent_of_caller_list e args w :
  (∀ r w', solve e args w = (r, w') → r ≠ Py_NULL →
     ∃ a cs ps w1, args = Some a ∧
       read_clauses (heap w) (arg_clauses a) = Some cs ∧
       setup_picosat args w = (Some ps, w1) ∧
       clauses ps = map (map int_of_pylong) cs ∧ open_clause ps = [] ∧
       (valid_clauses cs = true → clauses ps = cs)) ∧
  (∀ it w1, itersolve args w = (Some it, w1) →
     ∃ a cs, args = Some a ∧
       read_clauses (heap w) (arg_clauses a) = Some cs ∧
       clauses (it_picosat it) = map (map int_of_pylong) cs ∧
       open_clause (it_picosat it) = [] ∧
       (valid_clauses cs = true → clauses (it_picosat it) = cs) ∧
       soliter_traverse it = ([], 0) ∧
       ∀ h' n w2,
         (advances e n it (set_heap h' w2)).1 = (advances e n it w2).1).
Proof.
  split.
  - intros r w' Hrun Hr. unfold solve in Hrun. unfold mbind, M_bind at 1 in Hrun.
    destruct (setup_picosat args w) as [[ps|] w1] eqn:Hsetup; [|msimpl; congruence].
    destruct (setup_picosat_inv _ _ _ _ Hsetup)
      as (a & cs & -> & Hcs & Hnz & Hps & _).
    exists a, cs, ps, w1. do 3 (split; [done|]).
    rewrite Hps session_fields //=. do 2 (split; [done|]).
    intros Hvalid. by destruct (valid_clauses_spec cs Hvalid) as (-> & _).
  - intros it w1 Hiter.
    destruct (itersolve_inv _ _ _ _ Hiter) as (a & cs & w0 & -> & _ & Hcs & Hnz & -> & _).
    exists a, cs. do 2 (split; [done|]). cbn [it_picosat].
    rewrite session_fields //=. do 2 (split; [done|]).
    split; [intros Hvalid; by destruct (valid_clauses_spec cs Hvalid) as (-> & _)|].
    split; [done|]. intros h' n w2. by rewrite heap_blind_advances.
Qed.

(** ** The interpreter lock *)

Lemma host_only_ret {A} (a : A) : host_only (mret a).
Proof. intros w. exists []. by rewrite app_nil_r. Qed.

Lemma host_only_bind {A B} (c : M A) (k : A → M B) :
  host_only c → (∀ a, host_only (k a)) → host_only (c ≫= k).
Proof.
  intros Hc Hk w. unfold mbind, M_bind. destruct (Hc w) as (evs1 & Htr1 & Hev1).
  destruct (c w) as [a w1]. destruct (Hk a w1) as (evs2 & Htr2 & Hev2).
  exists (evs1 ++ evs2). simpl in *. split; [by rewrite Htr2 Htr1 app_assoc|].
  by rewrite forallb_app Hev1 Hev2.
Qed.

Lemma host_only_log ev : host_event ev = true → host_only (log ev).
Proof. intros Hev w. exists [ev]. simpl. by rewrite Hev. Qed.

Lemma host_only_silent {A} (c : M A) :
  (∀ w, trace (c w).2 = trace w) → host_only c.
Proof. intros Hc w. exists []. by rewrite Hc app_nil_r. Qed.

Lemma host_only_host_alloc : host_only host_alloc.
Proof. apply host_only_silent. intros w. unfold host_alloc. by destruct (oom w). Qed.

Lemma host_only_fresh_addr : host_only fresh_addr.
Proof. by apply host_only_silent. Qed.

Lemma host_only_deref_obj p : host_only (deref_obj p).
Proof. by apply host_only_silent. Qed.

Lemma host_only_PyErr_Set ty msg arg : host_only (PyErr_Set ty msg arg).
Proof. by apply host_only_silent. Qed.

Create HintDb host.

#[local] Hint Resolve host_only_ret host_only_host_alloc host_only_fresh_addr
  host_only_deref_obj host_only_PyErr_Set : host.

Ltac host :=
  repeat first
    [ solve [eauto with host]
    | apply host_only_log; reflexivity
    | apply host_only_bind; [|intros ?]
    | match goal with
      | |- host_only (match ?x with _ => _ end) => destruct x
      end ].

Lemma host_only_add_clause_loop clause idx :
  ∀ ps, host_only (add_clause_loop ps clause idx).
Proof.
  induction idx as [|i idx IH]; intros ps; simpl;
    unfold PyList_GetItem, IS_INT, PyLong_AsLong, PyErr_SetString; host.
Qed.

#[local] Hint Resolve host_only_add_clause_loop : host.

Lemma host_only_add_clause ps clause : host_only (add_clause ps clause).
Proof. unfold add_clause, PyList_Check, PyList_Size, PyErr_SetString. host. Qed.

#[local] Hint Resolve host_only_add_clause : host.

Lemma host_only_add_clauses_loop clauses idx :
  ∀ ps, host_only (add_clauses_loop ps clauses idx).
Proof.
  induction idx as [|i idx IH]; intros ps; simpl; unfold PyList_GetItem; host.
Qed.

#[local] Hint Resolve host_only_add_clauses_loop : host.

Lemma host_only_setup_picosat args : host_only (setup_picosat args).
Proof.
  unfold setup_picosat, PyArg_ParseTupleAndKeywords, picosat_minit, add_clauses,
    PyList_Check, PyList_Size, PyErr_SetString, picosat_reset, picosat_print.
  host.
Qed.

Lemma host_only_get_solution_loop ps idx :
  ∀ lst, host_only (get_solution_loop ps idx lst).
Proof.
  induction idx as [|i idx IH]; intros lst; simpl;
    unfold PyInt_FromLong, PyList_SetItem, PyErr_SetString, PyErr_NoMemory, picosat_reset;
    host.
Qed.

#[local] Hint Resolve host_only_setup_picosat host_only_get_solution_loop : host.

Lemma host_only_get_solution ps : host_only (get_solution ps).
Proof.
  unfold get_solution, PyList_New, PyErr_SetString, PyErr_NoMemory, picosat_reset. host.
Qed.

Lemma host_only_blocksol ps mem : host_only (blocksol ps mem).
Proof. unfold blocksol, PyMem_Malloc, PyErr_NoMemory. host. Qed.

Lemma host_only_PyUnicode_FromString s : host_only (PyUnicode_FromString s).
Proof. unfold PyUnicode_FromString, PyErr_NoMemory. host. Qed.

#[local] Hint Resolve host_only_get_solution host_only_blocksol
  host_only_PyUnicode_FromString : host.

Lemma host_only_itersolve args : host_only (itersolve args).
Proof. unfold itersolve, PyObject_GC_New, PyErr_NoMemory. host. Qed.

Lemma host_only_soliter_dealloc it : host_only (soliter_dealloc it).
Proof. unfold soliter_dealloc, PyMem_Free, picosat_reset. host. Qed.

(** Whatever comes of it, an advance begins by giving up the lock,
    searching the instance the iterator holds and taking the lock back;
    what follows is host-level work. *)
Lemma soliter_next_searches_first e it w :
  ∃ evs, trace (soliter_next e it w).2 =
         trace w ++ invocation (handle (it_picosat it)) (e (it_picosat it) (-1)).1 ++ evs ∧
         forallb host_event evs = true.
Proof.
  rewrite soliter_next_unfold. cbn zeta.
  match goal with
  | |- ∃ evs, trace (?k ?w1).2 = _ ∧ _ => assert (host_only k) as Hk
  end.
  { unfold PyErr_SetString, PyErr_Format. host. }
  match goal with
  | |- ∃ evs, trace (?k ?w1).2 = _ ∧ _ => destruct (Hk w1) as (evs & Htr & Hev)
  end.
  exists evs. by rewrite Htr /= -app_assoc.
Qed.

(** So does [solve] once it has a session. *)
Lemma solve_searches_first e args w ps w1 :
  setup_picosat args w = (Some ps, w1) →
  ∃ evs, trace (solve e args w).2 = trace w1 ++ invocation (handle ps) (e ps (-1)).1 ++ evs ∧
         forallb host_event evs = true.
Proof.
  intros Hsetup. rewrite (solve_unfold e args w ps w1 Hsetup). cbn zeta.
  match goal with
  | |- ∃ evs, trace (?k ?w1).2 = _ ∧ _ => assert (host_only k) as Hk
  end.
  { unfold PyErr_Format, picosat_reset. host. }
  match goal with
  | |- ∃ evs, trace (?k ?w1).2 = _ ∧ _ => destruct (Hk w1) as (evs & Htr & Hev)
  end.
  exists evs. by rewrite Htr /= -app_assoc.
Qed.

(** A session has no allocator but the adapters of the binding. *)
Lemma setup_picosat_allocator args w ps w1 :
  setup_picosat args w = (Some ps, w1) → mm ps = py_allocator.
Proof.
  intros Hsetup.
  destruct (setup_picosat_inv _ _ _ _ Hsetup) as (a & cs & _ & _ & Hnz & -> & _).
  by rewrite session_fields.
Qed.

(** C10. The code does not do what the claim says.  [solve] and
    [soliter_next] give up the GIL, run the search and take the GIL back
    before any host-level work of their own, and nothing else in the
    binding gives it up.  But the engine they search was created with
    [py_malloc], [py_realloc] and [py_free] as its only allocator, and these
    call [PyMem_Malloc], [PyMem_Realloc] and [PyMem_Free]: whatever memory
    the engine asks for during the search reaches the host's memory manager
    with the lock released, which the discipline of [gil_step] refuses. *)
Theorem allocator_called_without_gil e args w ps w1 :
  setup_picosat args w = (Some ps, w1) →
  let res := (e ps (-1)).1 in
  let h := handle ps in
  mm ps = mkAllocator None py_malloc py_realloc py_free ∧
  (∃ evs, trace (solve e args w).2 = trace w1 ++ invocation h res ++ evs ∧
          forallb host_event evs = true) ∧
  (∀ mem w2, ∃ evs,
     trace (soliter_next e (mkIter ps mem) w2).2 = trace w2 ++ invocation h res ++ evs ∧
     forallb host_event evs = true) ∧
  (∀ args', host_only (setup_picosat args') ∧ host_only (itersolve args')) ∧
  (∀ it, host_only (soliter_dealloc it)) ∧
  gil_run Gil_held (invocation h res) = Some Gil_held ∧
  ∀ c w2, ∃ ev,
    trace (engine_mm_call ps c w2).2 = trace w2 ++ [ev] ∧
    gil_step Gil_held ev = Some Gil_held ∧
    gil_step Gil_released ev = None ∧
    gil_run Gil_held [Ev_gil_release; ev; Ev_sat h res; Ev_gil_acquire] = None.
Proof.
  intros Hsetup res h. pose proof (setup_picosat_allocator _ _ _ _ Hsetup) as Hmm.
  split; [exact Hmm|]. split; [exact (solve_searches_first e args w ps w1 Hsetup)|].
  split; [intros mem w2; exact (soliter_next_searches_first e (mkIter ps mem) w2)|].
  split; [intros args'; split; [apply host_only_setup_picosat|apply host_only_itersolve]|].
  split; [apply host_only_soliter_dealloc|].
  split; [done|]. intros c w2. unfold engine_mm_call. rewrite Hmm. cbn zeta.
  unfold py_allocator. cbn [mmgr enew eresize edelete].
  unfold py_malloc, py_realloc, py_free, PyMem_Malloc, PyMem_Realloc, PyMem_Free.
  unfold host_alloc, fresh_addr, log, mbind, M_bind, mret, M_ret.
  destruct c as [bytes|ptr old new|ptr bytes]; [destruct (oom w2) as [|[] o]..|];
    eexists; (split; [reflexivity|]); done.
Qed.

(** * Further properties of the binding *)

(** ** Validation in list order *)

Lemma world_eq w w' :
  heap w' = heap w → oom w' = oom w → trace w' = trace w →
  w' = set_pyerr (pyerr w') w.
Proof. destruct w, w'. unfold set_pyerr. simpl. by intros -> -> ->. Qed.

Lemma PyLong_AsLong_eq w q z :
  heap w !! q = Some (PyLongV z) →
  PyLong_AsLong q w =
  (if bool_decide (in_long z) then z else -1,
   if bool_decide (in_long z) then w else set_pyerr (Some overflow_error) w).
Proof.
  intros Hq. unfold PyLong_AsLong, deref_obj, mbind, M_bind, mret, M_ret. rewrite Hq.
  by case_bool_decide.
Qed.

Lemma after_load_or b1 b2 err :
  after_load b2 (after_load b1 err) = after_load (b1 || b2) err.
Proof. by destruct b1, b2. Qed.

Lemma add_clause_loop_scan ps p pre rest w :
  heap w !! p = Some (PyListV (pre ++ rest)) →
  ∃ st ps' w',
    add_clause_loop ps p (seq (length pre) (length rest)) w = ((st, ps'), w') ∧
    same_objects w w' ∧ handle ps' = handle ps ∧
    match first_error (scan_lit (heap w)) rest with
    | Some err => st = -1 ∧ pyerr w' = Some err
    | None => st = 0 ∧ pyerr w' = after_load (existsb (overflows (heap w)) rest) (pyerr w)
    end.
Proof.
  revert pre ps w. induction rest as [|q rest IH]; intros pre ps w Hp.
  { exists 0, ps, w. by repeat split. }
  cbn [length seq add_clause_loop first_error existsb]. unfold mbind, M_bind.
  unfold PyList_GetItem, IS_INT, deref_obj, mbind, M_bind, mret, M_ret.
  rewrite Hp. rewrite lookup_app_r; [lia|]. rewrite Nat.sub_diag. cbn [lookup list_lookup].
  unfold scan_lit at 1. unfold overflows at 1.
  destruct (heap w !! q) as [[z| |]|] eqn:Hq; cbn [negb].
  2-4: eexists _, _, _; split; [done|]; split; [done|]; split; [done|]; by split.
  rewrite (PyLong_AsLong_eq w q z Hq). fold (int_of_pylong z).
  destruct (int_of_pylong z =? 0) eqn:Hz.
  { eexists _, _, _. split; [done|]. split; [by case_bool_decide|]. split; [done|].
    by split. }
  set (w2 := if bool_decide (in_long z) then w else set_pyerr (Some overflow_error) w).
  assert (same_objects w w2) as Hw2 by (subst w2; by case_bool_decide).
  assert (pyerr w2 = after_load (negb (bool_decide (in_long z))) (pyerr w)) as Herr2
    by (subst w2; by case_bool_decide).
  destruct (IH (pre ++ [q]) (picosat_add ps (int_of_pylong z)) w2)
    as (st & ps' & w' & Hrun & Hsame & Hh & Hres).
  { destruct Hw2 as (-> & _). by rewrite -app_assoc. }
  rewrite length_app Nat.add_1_r in Hrun. rewrite Hrun.
  exists st, ps', w'. split; [done|]. split; [exact (same_objects_trans _ _ _ Hw2 Hsame)|].
  split; [by rewrite Hh handle_picosat_add|].
  destruct Hw2 as (Hheap & _). rewrite Hheap in Hres.
  destruct (first_error _ rest); [done|].
  destruct Hres as [-> ->]. split; [done|]. by rewrite Herr2 after_load_or.
Qed.

Lemma add_clause_scan ps p w :
  ∃ st ps' w',
    add_clause ps p w = ((st, ps'), w') ∧
    same_objects w w' ∧ handle ps' = handle ps ∧
    match scan_clause (heap w) p with
    | Some err => st = -1 ∧ pyerr w' = Some err
    | None => st = 0 ∧ pyerr w' = after_load (clause_overflows (heap w) p) (pyerr w)
    end.
Proof.
  unfold add_clause, scan_clause, clause_overflows.
  unfold PyList_Check, PyList_Size, deref_obj, mbind, M_bind, mret, M_ret.
  destruct (heap w !! p) as [[z|items|]|] eqn:Hp; cbn [negb].
  1,3,4: eexists _, _, _; split; [done|]; split; [done|]; split; [done|]; by split.
  destruct (add_clause_loop_scan ps p [] items w Hp)
    as (st & ps' & w' & Hrun & Hsame & Hh & Hres).
  change (length (@nil nat)) with 0%nat in Hrun. rewrite ?Hp Hrun.
  destruct (first_error _ items).
  - destruct Hres as [-> Herr]. cbn [Z.ltb Z.compare].
    eexists _, _, _. split; [done|]. split; [done|]. split; [done|]. by split.
  - destruct Hres as [-> Herr]. cbn [Z.ltb Z.compare].
    eexists _, _, _. split; [done|]. split; [done|].
    split; [by rewrite handle_picosat_add|]. by split.
Qed.

Lemma add_clauses_loop_scan ps p pre rest w :
  heap w !! p = Some (PyListV (pre ++ rest)) →
  ∃ st ps' w',
    add_clauses_loop ps p (seq (length pre) (length rest)) w = ((st, ps'), w') ∧
    same_objects w w' ∧ handle ps' = handle ps ∧
    match first_error (scan_clause (heap w)) rest with
    | Some err => st = -1 ∧ pyerr w' = Some err
    | None =>
        st = 0 ∧
        pyerr w' = after_load (existsb (clause_overflows (heap w)) rest) (pyerr w)
    end.
Proof.
  revert pre ps w. induction rest as [|q rest IH]; intros pre ps w Hp.
  { exists 0, ps, w. by repeat split. }
  cbn [length seq add_clauses_loop first_error existsb]. unfold mbind, M_bind.
  unfold PyList_GetItem, deref_obj, mbind, M_bind, mret, M_ret.
  rewrite Hp. rewrite lookup_app_r; [lia|]. rewrite Nat.sub_diag. cbn [lookup list_lookup].
  destruct (add_clause_scan ps q w) as (st1 & ps1 & w1 & -> & Hw1 & Hh1 & Hres1).
  destruct (scan_clause (heap w) q) as [err|].
  { destruct Hres1 as [-> Herr]. cbn [Z.ltb Z.compare].
    eexists _, _, _. split; [done|]. split; [done|]. split; [done|]. by split. }
  destruct Hres1 as [-> Herr1]. cbn [Z.ltb Z.compare].
  destruct (IH (pre ++ [q]) ps1 w1) as (st & ps' & w' & Hrun & Hsame & Hh & Hres).
  { destruct Hw1 as (-> & _). by rewrite -app_assoc. }
  rewrite length_app Nat.add_1_r in Hrun. rewrite Hrun.
  exists st, ps', w'. split; [done|]. split; [exact (same_objects_trans _ _ _ Hw1 Hsame)|].
  split; [congruence|].
  destruct Hw1 as (Hheap & _). rewrite Hheap in Hres.
  destruct (first_error _ rest); [done|].
  destruct Hres as [-> ->]. split; [done|]. by rewrite Herr1 after_load_or.
Qed.

Lemma add_clauses_scan ps p w :
  ∃ st ps' w',
    add_clauses ps p w = ((st, ps'), w') ∧
    same_objects w w' ∧ handle ps' = handle ps ∧
    match scan_clauses (heap w) p with
    | Some err => st = -1 ∧ pyerr w' = Some err
    | None => st = 0 ∧ pyerr w' = after_load (clauses_overflow (heap w) p) (pyerr w)
    end.
Proof.
  unfold add_clauses, scan_clauses, clauses_overflow.
  unfold PyList_Check, PyList_Size, deref_obj, mbind, M_bind, mret, M_ret.
  destruct (heap w !! p) as [[z|items|]|] eqn:Hp; cbn [negb].
  1,3,4: eexists _, _, _; split; [done|]; split; [done|]; split; [done|]; by split.
  destruct (add_clauses_loop_scan ps p [] items w Hp)
    as (st & ps' & w' & Hrun & Hsame & Hh & Hres).
  change (length (@nil nat)) with 0%nat in Hrun. rewrite ?Hp Hrun.
  by exists st, ps', w'.
Qed.

Lemma setup_picosat_scan a w :
  let h := length (trace w) in
  ∃ r w', setup_picosat (Some a) w = (r, w') ∧ heap w' = heap w ∧ oom w' = oom w ∧
    match scan_clauses (heap w) (arg_clauses a) with
    | Some err =>
        r = None ∧ pyerr w' = Some err ∧ trace w' = trace w ++ [Ev_minit h; Ev_reset h]
    | None =>
        (∃ ps, r = Some ps ∧ handle ps = h) ∧
        pyerr w' = after_load (clauses_overflow (heap w) (arg_clauses a)) (pyerr w) ∧
        trace w' = trace w ++ Ev_minit h ::
                     (if 2 <=? arg_verbose a then [Ev_print h] else [])
    end.
Proof.
  intros h. unfold setup_picosat, PyArg_ParseTupleAndKeywords, picosat_minit.
  unfold mbind, M_bind, mret, M_ret, fresh_addr, log. fold h.
  set (w1 := mkWorld (heap w) (pyerr w) (oom w) (trace w ++ [Ev_minit h])).
  fold py_allocator. fold (configured h a).
  destruct (add_clauses_scan (configured h a) (arg_clauses a) w1)
    as (st & ps' & w2 & -> & (Hheap & Hoom & Htrace) & Hh' & Hres).
  assert (handle ps' = h) as Hh.
  { rewrite Hh'. by destruct (configured_fields h a) as (? & _). }
  change (heap w1) with (heap w) in Hres. change (pyerr w1) with (pyerr w) in Hres.
  destruct (scan_clauses (heap w) (arg_clauses a)) as [err|].
  - destruct Hres as [-> Herr]. cbn [Z.ltb Z.compare]. unfold picosat_reset, log.
    rewrite Hh. eexists _, _. split; [reflexivity|]. simpl.
    split; [done|]. split; [done|]. split; [done|]. split; [done|].
    by rewrite Htrace /= -app_assoc.
  - destruct Hres as [-> Herr]. cbn [Z.ltb Z.compare]. unfold picosat_print, log.
    rewrite Hh.
    destruct (2 <=? arg_verbose a); eexists _, _; (split; [reflexivity|]); simpl;
      (split; [done|]); (split; [done|]); (split; [by exists ps'|]); (split; [done|]).
    + by rewrite Htrace /= -app_assoc.
    + by rewrite Htrace.
Qed.

Lemma int_of_long_0 z : int_of_long z = 0 ↔ z mod 2 ^ 32 = 0.
Proof.
  unfold int_of_long.
  change (2 ^ 32) with 4294967296. change (2 ^ 31) with 2147483648.
  pose proof (Z.div_mod (z + 2147483648) 4294967296 ltac:(lia)) as H1.
  pose proof (Z.mod_pos_bound (z + 2147483648) 4294967296 ltac:(lia)) as H2.
  pose proof (Z.div_mod z 4294967296 ltac:(lia)) as H3.
  pose proof (Z.mod_pos_bound z 4294967296 ltac:(lia)) as H4.
  lia.
Qed.
Lemma int_of_pylong_0_iff z : int_of_pylong z = 0 ↔ in_long z ∧ z mod 2 ^ 32 = 0.
Proof.
  unfold int_of_pylong. case_bool_decide as Hl.
  - rewrite int_of_long_0. tauto.
  - change (int_of_long (-1)) with (-1). split; [lia|tauto].
Qed.
(** X1. A clause argument with a malformed item makes [solve] return NULL
    with the error of the first offending item in list order (of a clause
    before those of the clauses after it); the engine instance was created
    and is released, and nothing else happened: no search and no print. *)
Theorem solve_reports_first_error e a w err :
  scan_clauses (heap w) (arg_clauses a) = Some err →
  let h := length (trace w) in
  ∃ w', solve e (Some a) w = (Py_NULL, w') ∧ pyerr w' = Some err ∧
        heap w' = heap w ∧ oom w' = oom w ∧
        trace w' = trace w ++ [Ev_minit h; Ev_reset h].
Proof.
  intros Hscan h.
  destruct (setup_picosat_scan a w) as (r & w' & Hsetup & Hheap & Hoom & Hres).
  rewrite Hscan in Hres. destruct Hres as (-> & Herr & Htrace).
  exists w'. unfold solve, mbind, M_bind. rewrite Hsetup. by repeat split.
Qed.

(** X2. The clause sets [setup_picosat] accepts, hence [solve] and
    [itersolve] work on: the lists of lists of ints none of which is, as a C
    long, a multiple of 2^32.  So 4294967296 is refused like 0, while an int
    beyond the range of a C long is let through. *)
Theorem accepted_clause_sets a w :
  (∃ ps w', setup_picosat (Some a) w = (Some ps, w')) ↔
  (∃ cs, read_clauses (heap w) (arg_clauses a) = Some cs ∧
         Forall (Forall (λ z, ¬ (in_long z ∧ z mod 2 ^ 32 = 0))) cs).
Proof.
  split.
  - intros (ps & w' & Hsetup).
    destruct (setup_picosat_inv _ _ _ _ Hsetup) as (a' & cs & [= <-] & Hcs & Hnz & _).
    exists cs. split; [done|]. eapply Forall_impl; [exact Hnz|]. intros c Hc.
    eapply Forall_impl; [exact Hc|]. intros z Hz. by rewrite -int_of_pylong_0_iff.
  - intros (cs & Hcs & Hnz).
    destruct (setup_picosat_spec a w cs Hcs) as (w' & _ & _ & Hres).
    destruct Hres as [(_ & Hrun & _)|(Hex & _)]; [by eauto|]. exfalso.
    apply Exists_exists in Hex as (c & Hc & Hex).
    apply Exists_exists in Hex as (z & Hz & Hzero).
    rewrite Forall_forall in Hnz. specialize (Hnz c Hc).
    rewrite Forall_forall in Hnz. apply (Hnz z Hz). by apply int_of_pylong_0_iff.
Qed.

(** ** The outcomes of [solve] *)

(** X3. An int that does not fit a C long does not stop [solve]:
    [PyLong_AsLong] fails with OverflowError, [add_clause] does not look at
    the error indicator and takes the -1 it got as the literal.  The call
    then hands back a result (not NULL) while the OverflowError is still
    set. *)
Theorem overflow_literal_leaves_error e a w :
  codes_contract e →
  scan_clauses (heap w) (arg_clauses a) = None →
  clauses_overflow (heap w) (arg_clauses a) = true →
  oom w = [] →
  ∃ r w', solve e (Some a) w = (r, w') ∧ r ≠ Py_NULL ∧ pyerr w' = Some overflow_error.
Proof.
  intros Hcodes Hscan Hov Hoom.
  destruct (setup_picosat_scan a w) as (r & w1 & Hsetup & Hheap & Hoom1 & Hres).
  rewrite Hscan Hov in Hres. destruct Hres as ((ps & -> & Hh) & Herr & Htrace).
  pose proof (wf_engine_ready _ (setup_picosat_ready _ _ _ _ Hsetup)) as Hready.
  rewrite Hoom in Hoom1.
  rewrite (solve_eq e _ w ps w1 Hsetup Hready Hoom1). cbn zeta.
  destruct (Hcodes ps) as [Hr|[Hr|Hr]]; rewrite Hr; cbn [Z.eqb Pos.eqb
    PICOSAT_SATISFIABLE PICOSAT_UNSATISFIABLE PICOSAT_UNKNOWN];
    eexists _, _; (split; [reflexivity|]); by split.
Qed.

(** X4. [solve] never returns NULL without an exception set, whatever the
    arguments, the answer of the engine and the failures of the host's
    allocator. *)
Theorem solve_null_sets_error e args w :
  (solve e args w).1 = Py_NULL → pyerr (solve e args w).2 ≠ None.
Proof.
  destruct args as [a|]; [|by msimpl].
  destruct (setup_picosat_scan a w) as (r & w1 & Hsetup & _ & _ & Hres).
  destruct (scan_clauses (heap w) (arg_clauses a)) as [err|].
  { destruct Hres as (-> & Herr & _). unfold solve, mbind, M_bind. rewrite Hsetup /=.
    by rewrite Herr. }
  destruct Hres as ((ps & -> & _) & _).
  destruct (wf_engine_ready _ (setup_picosat_ready _ _ _ _ Hsetup)) as [Hmv Hopen].
  rewrite (solve_unfold e _ w ps w1 Hsetup). cbn zeta.
  destruct (_ =? PICOSAT_SATISFIABLE).
  { unfold mbind, M_bind. rewrite get_solution_eq //. cbn [emit oom].
    destruct (oom w1) as [|[] o]; by msimpl. }
  destruct (_ =? PICOSAT_UNSATISFIABLE).
  { unfold mbind, M_bind. rewrite PyUnicode_FromString_eq. cbn [emit oom].
    destruct (oom w1) as [|[] o]; by msimpl. }
  destruct (_ =? PICOSAT_UNKNOWN).
  { unfold mbind, M_bind. rewrite PyUnicode_FromString_eq. cbn [emit oom].
    destruct (oom w1) as [|[] o]; by msimpl. }
  by msimpl.
Qed.

Ltac count_events :=
  unfold list_failed; cbn [count_occ app existsb orb];
  repeat match goal with
         | |- context [event_eq_dec ?a ?b] => destruct (event_eq_dec a b); try congruence
         end.

(** X5. Every engine instance [solve] creates is released before the call
    returns, on every path, and the release is the last thing the call
    does.  It is released exactly once, except when the allocation of the
    result list fails: then [get_solution] has released it already and
    [solve] releases it a second time. *)
Theorem solve_releases_engine e a w :
  let h := length (trace w) in
  ∃ evs, trace (solve e (Some a) w).2 = trace w ++ Ev_minit h :: evs ∧
    last evs = Some (Ev_reset h) ∧
    count_occ event_eq_dec evs (Ev_reset h) = (if list_failed evs then 2 else 1)%nat.
Proof.
  intros h.
  destruct (setup_picosat_scan a w) as (r & w1 & Hsetup & _ & _ & Hres). fold h in Hres.
  destruct (scan_clauses (heap w) (arg_clauses a)) as [err|].
  { destruct Hres as (-> & _ & Htrace). unfold solve, mbind, M_bind. rewrite Hsetup /=.
    exists [Ev_reset h]. split; [done|]. split; [done|]. by count_events. }
  destruct Hres as ((ps & -> & Hh) & _ & Htrace).
  destruct (wf_engine_ready _ (setup_picosat_ready _ _ _ _ Hsetup)) as [Hmv Hopen].
  rewrite (solve_unfold e _ w ps w1 Hsetup). cbn zeta. rewrite Hh.
  set (res := (e ps (-1)).1). set (pr := if 2 <=? arg_verbose a then _ else _) in Htrace.
  assert (pr = [] ∨ pr = [Ev_print h]) as Hpr
    by (subst pr; destruct (2 <=? arg_verbose a); auto).
  destruct (res =? PICOSAT_SATISFIABLE).
  { unfold mbind, M_bind. rewrite get_solution_eq //. cbn [emit oom]. rewrite Hh.
    destruct (oom w1) as [|[] o]; msimpl; rewrite ?Hh Htrace -!app_assoc /=;
      (eexists; split; [reflexivity|]);
      destruct Hpr as [-> | ->]; (split; [done|]); by count_events. }
  destruct (res =? PICOSAT_UNSATISFIABLE).
  { unfold mbind, M_bind. rewrite PyUnicode_FromString_eq. cbn [emit oom].
    destruct (oom w1) as [|[] o]; msimpl; rewrite ?Hh Htrace -!app_assoc /=;
      (eexists; split; [reflexivity|]);
      destruct Hpr as [-> | ->]; (split; [done|]); by count_events. }
  destruct (res =? PICOSAT_UNKNOWN).
  { unfold mbind, M_bind. rewrite PyUnicode_FromString_eq. cbn [emit oom].
    destruct (oom w1) as [|[] o]; msimpl; rewrite ?Hh Htrace -!app_assoc /=;
      (eexists; split; [reflexivity|]);
      destruct Hpr as [-> | ->]; (split; [done|]); by count_events. }
  msimpl. rewrite ?Hh Htrace -!app_assoc /=. eexists. split; [reflexivity|].
  destruct Hpr as [-> | ->]; (split; [done|]); by count_events.
Qed.

(** X6. What a rejected clause argument is never subjected to: the engine
    writes its clauses (verbosity 2 and above) only once all of them were
    accepted, as the last step of the setup. *)
Theorem print_only_after_load a w :
  let h := length (trace w) in
  ∃ evs, trace (setup_picosat (Some a) w).2 = trace w ++ Ev_minit h :: evs ∧
    (Ev_print h ∈ evs ↔ 2 ≤ arg_verbose a ∧ (setup_picosat (Some a) w).1 ≠ None) ∧
    (Ev_print h ∈ evs → evs = [Ev_print h]).
Proof.
  intros h.
  destruct (setup_picosat_scan a w) as (r & w1 & Hsetup & _ & _ & Hres). fold h in Hres.
  rewrite Hsetup. cbn [fst snd].
  destruct (scan_clauses (heap w) (arg_clauses a)) as [err|].
  - destruct Hres as (-> & _ & Htrace). exists [Ev_reset h]. split; [done|].
    split; [|by intros [=]%list_elem_of_singleton].
    split; [by intros [=]%list_elem_of_singleton|by intros [_ ?]].
  - destruct Hres as ((ps & -> & Hh) & _ & Htrace). eexists. split; [exact Htrace|].
    destruct (2 <=? arg_verbose a) eqn:Hv.
    + split; [|done]. split; [intros _; split; [lia|done]|intros _; apply list_elem_of_here].
    + split; [|by intros ?%elem_of_nil].
      split; [by intros ?%elem_of_nil|intros [? _]; lia].
Qed.

(** ** Advances under memory pressure *)


(** X8. When the result list cannot be allocated during an advance, the
    MemoryError is replaced by SystemError "failed to create list", and the
    session has been released by [get_solution] while the iterator still
    holds it: deallocating the iterator releases the same instance again,
    and another advance would search it. *)
Theorem failed_list_releases_session_early e it w o :
  reachable e it →
  (e (it_picosat it) (-1)).1 = PICOSAT_SATISFIABLE → oom w = true :: o →
  let ps := searched e (it_picosat it) in
  let h := handle (it_picosat it) in
  ∃ it' w',
    soliter_next e it w = ((None, it'), w') ∧
    pyerr w' = Some (mkExc PyExc_SystemError "failed to create list" None) ∧
    trace w' = trace w ++ invocation h PICOSAT_SATISFIABLE ++
                 [Ev_PyList_New (max_var ps) false; Ev_reset h] ∧
    (∀ w2, trace (soliter_dealloc it' w2).2 =
             trace w2 ++ [Ev_GC_UnTrack; Ev_reset h; Ev_GC_Del]) ∧
    (∀ w2, ∃ res evs, trace (soliter_next e it' w2).2 =
                        trace w2 ++ invocation h res ++ evs).
Proof.
  intros Hreach Hsat Hoom. cbn zeta. destruct (reachable_inv e it Hreach) as [Hwf Hmem].
  pose proof (wf_engine_ready _ Hwf) as Hready.
  eexists _, _. split.
  { rewrite soliter_next_sat_eq // Hoom Hmem. reflexivity. }
  split; [done|]. split; [by rewrite /= -!app_assoc|]. split.
  - intros w2. unfold soliter_dealloc. by msimpl; rewrite -!app_assoc.
  - intros w2.
    destruct (soliter_next_searches_first e (mkIter (searched e (it_picosat it)) None) w2)
      as (evs & Htr & _).
    eexists _, evs. exact Htr.
Qed.

(** X9. When the list and its items can be allocated but the buffer of
    [blocksol] cannot, the advance fails with MemoryError after the solution
    was decoded: the solution is not yielded, and it is not blocked either,
    the clauses of the engine being those it had. *)
Theorem failed_buffer_loses_solution e it w o :
  reachable e it →
  (e (it_picosat it) (-1)).1 = PICOSAT_SATISFIABLE →
  let ps := searched e (it_picosat it) in
  oom w = false :: replicate (boxed (decode ps)) false ++ true :: o →
  ∃ it' w',
    soliter_next e it w = ((None, it'), w') ∧
    pyerr w' = Some (mkExc PyExc_MemoryError "" None) ∧
    clauses (it_picosat it') = clauses (it_picosat it) ∧
    trace w' = trace w ++ invocation (handle ps) PICOSAT_SATISFIABLE ++
                 [Ev_PyList_New (max_var ps) true; Ev_PyMem_Malloc (max_var ps + 1) None].
Proof.
  intros Hreach Hsat. cbn zeta. intros Hoom.
  destruct (reachable_inv e it Hreach) as [Hwf Hmem].
  pose proof (wf_engine_ready _ Hwf) as Hready.
  eexists _, _. split.
  { rewrite soliter_next_sat_eq // Hoom Hmem. cbn [tail]. rewrite store_items_spare.
    reflexivity. }
  split; [done|]. split; [done|]. by rewrite /= -!app_assoc.
Qed.

(** X10. [itersolve] allocates the iterator object before it looks at its
    arguments.  When the setup then fails (arguments that do not parse, or a
    malformed clause argument), it returns NULL with the error set and the
    object is neither tracked nor freed: it leaks. *)
Theorem itersolve_failure_leaks_object args w w0 w' :
  host_alloc w = (true, w0) →
  itersolve args w = (None, w') →
  pyerr w' ≠ None ∧
  ∃ evs, trace w' = trace w ++ Ev_GC_New true :: evs ∧
         (Ev_GC_Track ∉ evs) ∧ (Ev_GC_Del ∉ evs).
Proof.
  intros Halloc. unfold itersolve, PyObject_GC_New, mbind, M_bind, mret, M_ret.
  rewrite Halloc. unfold log at 1. cbn [negb].
  assert (trace w0 = trace w) as Htr0.
  { unfold host_alloc in Halloc. destruct (oom w) as [|[] o]; by simplify_eq. }
  destruct args as [a|].
  { match goal with |- context [setup_picosat _ ?w1] =>
      destruct (setup_picosat_scan a w1) as (r & w2 & Hsetup & _ & _ & Hres);
      rewrite Hsetup end.
    cbn [heap trace] in Hres.
    destruct (scan_clauses (heap w0) (arg_clauses a)) as [err|].
    - destruct Hres as (-> & Herr & Htrace). intros [= <-]. split; [by rewrite Herr|].
      eexists. split; [by rewrite Htrace Htr0 -app_assoc|].
      split; intros Hin; repeat (apply elem_of_cons in Hin as [Hin|Hin]; [done|]);
        by apply elem_of_nil in Hin.
    - destruct Hres as ((ps & -> & _) & _). by msimpl. }
  msimpl. intros [= <-]. split; [done|]. exists []. rewrite /= Htr0.
  split; [done|]. split; by intros ?%elem_of_nil.
Qed.

(** ** What an enumeration yields *)

Lemma block_clause_decode v n :
  (∀ i, 1 ≤ i ≤ n → v i = 1 ∨ v i = -1) →
  block_clause v n = map Z.opp (map (λ i, v i * i) (seqZ 1 n)).
Proof.
  intros Hv. unfold block_clause. rewrite map_map. apply map_ext_in.
  intros i Hi%list_elem_of_In%elem_of_seqZ. destruct (Hv i) as [-> | ->]; [lia|..].
  - replace (0 <? 1) with true by lia. lia.
  - replace (0 <? -1) with false by lia. lia.
Qed.

(** X11. When an advance yields a list, the host having memory, the clause
    the advance adds is that list with every element negated, and nothing
    else changes what the engine will be asked: its clauses are the ones it
    had followed by that one, over the same variables. *)
Theorem blocking_clause_negates_yielded e it w sol it' w' :
  sat_contract e → reachable e it → oom w = [] →
  soliter_next e it w = ((Some sol, it'), w') →
  clauses (it_picosat it') = clauses (it_picosat it) ++ [map Z.opp sol] ∧
  max_var (it_picosat it') = max_var (it_picosat it) ∧
  proplimit (it_picosat it') = proplimit (it_picosat it).
Proof.
  intros He Hreach Hoom Hnext. destruct (reachable_inv e it Hreach) as [Hwf _].
  destruct (soliter_next_yields_mem e it w sol it' w' (wf_engine_ready _ Hwf) Hoom Hnext)
    as (Hres & -> & -> & _).
  destruct (He _ Hwf Hres) as [Hvals _].
  split; [|done]. cbn [it_picosat blocked clauses searched max_var vals]. unfold decode.
  cbn [max_var vals]. by rewrite block_clause_decode.
Qed.

(** The iterator [itersolve] returns holds an instance the contract of the
    search speaks of. *)
Lemma itersolve_wf args w it w1 :
  itersolve args w = (Some it, w1) → wf_engine (it_picosat it).
Proof.
  intros Hiter.
  destruct (itersolve_inv _ _ _ _ Hiter) as (a & cs & w0 & _ & _ & _ & Hnz & -> & _).
  by apply session_wf.
Qed.

Lemma advances_wf e it w r it1 w1 :
  wf_engine (it_picosat it) → soliter_next e it w = ((r, it1), w1) →
  wf_engine (it_picosat it1) ∧ max_var (it_picosat it1) = max_var (it_picosat it) ∧
  ∀ c, c ∈ clauses (it_picosat it) → c ∈ clauses (it_picosat it1).
Proof.
  intros Hwf Hnext.
  destruct (soliter_next_mem e it w r it1 w1 (wf_engine_ready _ Hwf) Hnext) as (_ & _ & Hps).
  destruct Hps as [-> | ->].
  - split; [by apply searched_wf|done].
  - split; [by apply blocked_wf, searched_wf|]. split; [done|].
    intros c Hc. simpl. apply elem_of_app. by left.
Qed.

Lemma advances_length e n :
  ∀ it w rs it' w',
    wf_engine (it_picosat it) → oom w = [] → advances e n it w = ((rs, it'), w') →
    max_var (it_picosat it') = max_var (it_picosat it) ∧
    ∀ sol, Some sol ∈ rs → length sol = Z.to_nat (max_var (it_picosat it)).
Proof.
  induction n as [|n IH]; intros it w rs it' w' Hwf Hoom Hrun.
  { msimpl. simplify_eq. split; [done|]. by intros sol ?%elem_of_nil. }
  cbn [advances] in Hrun. unfold mbind, M_bind at 1 in Hrun.
  destruct (soliter_next e it w) as [[r it1] w1] eqn:Hnext.
  unfold mbind, M_bind at 1 in Hrun.
  destruct (advances e n it1 w1) as [[rs1 it2] w2] eqn:Hrest.
  unfold mret, M_ret in Hrun. simplify_eq.
  pose proof (wf_engine_ready _ Hwf) as Hready.
  destruct (advances_wf e it w r it1 w1 Hwf Hnext) as (Hwf1 & Hmv & _).
  pose proof (soliter_next_oom e it w r it1 w1 Hready Hoom Hnext) as Hoom1.
  destruct (IH it1 w1 rs1 it' w' Hwf1 Hoom1 Hrest) as [Hmv' Hlen].
  split; [congruence|]. intros sol [Hsol|Hsol]%elem_of_cons.
  - subst r.
    destruct (soliter_next_yields_mem e it w sol it1 w1 Hready Hoom Hnext) as (_ & -> & _).
    unfold decode. by rewrite length_map length_seqZ.
  - rewrite -Hmv. by apply Hlen.
Qed.

(** X12. All the lists one iterator yields, the host having memory, have
    the same length, the number of variables of the session [itersolve] set
    up: the blocking clauses never extend the variable range. *)
Theorem yielded_lists_same_length e args w it w1 :
  itersolve args w = (Some it, w1) →
  ∀ n w2 rs it' w3, oom w2 = [] → advances e n it w2 = ((rs, it'), w3) →
    picosat_variables (it_picosat it') = picosat_variables (it_picosat it) ∧
    ∀ sol, Some sol ∈ rs → length sol = Z.to_nat (picosat_variables (it_picosat it)).
Proof.
  intros Hiter n w2 rs it' w3 Hoom Hrun.
  exact (advances_length e n it w2 rs it' w3 (itersolve_wf _ _ _ _ Hiter) Hoom Hrun).
Qed.

(** A yielded list contradicts the clause that blocks it. *)
Lemma yielded_is_blocked e it w sol it' w' :
  sat_contract e → wf_engine (it_picosat it) → oom w = [] →
  soliter_next e it w = ((Some sol, it'), w') →
  ∃ c, c ∈ clauses (it_picosat it') ∧ eval_clause (assignment_of sol) c = false.
Proof.
  intros He Hwf Hoom Hnext.
  destruct (soliter_next_yields_mem e it w sol it' w' (wf_engine_ready _ Hwf) Hoom Hnext)
    as (Hres & -> & -> & _).
  destruct (decode_sound e _ He Hwf Hres) as (_ & Hagree & _).
  exists (block_clause ((e (it_picosat it) (-1)).2) (max_var (it_picosat it))). split.
  - cbn [it_picosat blocked clauses searched max_var vals]. apply elem_of_app. right.
    apply list_elem_of_here.
  - by apply block_clause_false.
Qed.

Lemma advances_distinct e (He : sat_contract e) n :
  ∀ it w rs it' w',
    wf_engine (it_picosat it) → oom w = [] → advances e n it w = ((rs, it'), w') →
    NoDup (omap id rs).
Proof.
  induction n as [|n IH]; intros it w rs it' w' Hwf Hoom Hrun.
  { msimpl. simplify_eq. constructor. }
  cbn [advances] in Hrun. unfold mbind, M_bind at 1 in Hrun.
  destruct (soliter_next e it w) as [[r it1] w1] eqn:Hnext.
  unfold mbind, M_bind at 1 in Hrun.
  destruct (advances e n it1 w1) as [[rs1 it2] w2] eqn:Hrest.
  unfold mret, M_ret in Hrun. simplify_eq.
  destruct (advances_wf e it w r it1 w1 Hwf Hnext) as [Hwf1 _].
  pose proof (soliter_next_oom e it w r it1 w1 (wf_engine_ready _ Hwf) Hoom Hnext) as Hoom1.
  pose proof (IH it1 w1 rs1 it' w' Hwf1 Hoom1 Hrest) as Hnd.
  destruct r as [sol|]; [|exact Hnd]. cbn [omap id]. simpl. constructor; [|exact Hnd].
  intros Hin. apply list_elem_of_omap in Hin as (r & Hr & Heq). simpl in Heq. subst r.
  destruct (yielded_is_blocked e it w sol it1 w1 He Hwf Hoom Hnext) as (c & Hc & Hfalse).
  pose proof (advances_sound e He (clauses (it_picosat it1)) n it1 w1 rs1 it' w' Hwf1
                (λ _ H, H) Hoom1 Hrest sol Hr) as Heval.
  rewrite eval_cnf_true in Heval. specialize (Heval c Hc). congruence.
Qed.

(** X13. An iterator never yields the same list twice, whatever the
    propagation limit, as long as the host has memory: a list is only
    yielded once its blocking clause is in the engine, and the engine's
    later answers satisfy that clause. *)
Theorem yielded_solutions_distinct e args w it w1 :
  sat_contract e → itersolve args w = (Some it, w1) →
  ∀ n w2 rs it' w3, oom w2 = [] → advances e n it w2 = ((rs, it'), w3) →
    NoDup (omap id rs).
Proof.
  intros He Hiter n w2 rs it' w3 Hoom Hrun.
  exact (advances_distinct e He n it w2 rs it' w3 (itersolve_wf _ _ _ _ Hiter) Hoom Hrun).
Qed.

(** ** Degenerate clause sets *)

Lemma empty_clause_answer e ps :
  sat_contract e → unknown_contract e → codes_contract e →
  wf_engine ps → [] ∈ clauses ps → proplimit ps = None →
  (e ps (-1)).1 = PICOSAT_UNSATISFIABLE.
Proof.
  intros Hsat Hunk Hcodes Hwf Hin Hlim. destruct (Hcodes ps) as [Hr|[Hr|Hr]]; [|done|].
  - destruct (Hsat ps Hwf Hr) as [_ Heval]. rewrite eval_cnf_true in Heval.
    by specialize (Heval [] Hin).
  - by destruct (Hunk ps Hr).
Qed.

(** X14. A clause without literals makes the clause set unsatisfiable for
    the binding too: [add_clause] pushes only the terminator, the engine
    holds an empty clause, and (no propagation limit being set) [solve]
    returns "UNSAT" and the first advance of an iterator yields nothing. *)
Theorem empty_clause_is_unsat e a w cs :
  sat_contract e → unknown_contract e → codes_contract e →
  read_clauses (heap w) (arg_clauses a) = Some cs → valid_clauses cs = true →
  [] ∈ cs → arg_prop_limit a = 0 → oom w = [] →
  (∃ w', solve e (Some a) w = (Py_Unicode "UNSAT", w')) ∧
  (∀ it w1, itersolve (Some a) w = (Some it, w1) →
     ∀ w2, (soliter_next e it w2).1.1 = None ∧ pyerr (soliter_next e it w2).2 = pyerr w2).
Proof.
  intros Hsat Hunk Hcodes Hcs Hvalid Hin Hlim Hoom.
  destruct (valid_clauses_spec cs Hvalid) as (Hid & Hnz & _).
  assert (∀ h, wf_engine (session h a cs) ∧ [] ∈ clauses (session h a cs) ∧
               proplimit (session h a cs) = None) as Hsession.
  { intros h. split; [by apply session_wf|]. rewrite session_fields //. simpl.
    rewrite Hid Hlim. by split. }
  split.
  - destruct (valid_session a w cs Hcs Hvalid) as (w1 & Hsetup & _ & Hoom1 & _ & _ & Hwf & _).
    destruct (Hsession (length (trace w))) as (_ & Hin' & Hlim').
    rewrite Hoom in Hoom1.
    rewrite (solve_eq e _ w _ w1 Hsetup (wf_engine_ready _ Hwf) Hoom1). cbn zeta.
    rewrite (empty_clause_answer e _ Hsat Hunk Hcodes Hwf Hin' Hlim'). by eexists.
  - intros it w1 Hiter w2.
    destruct (itersolve_inv _ _ _ _ Hiter) as (a' & cs' & w0 & [= <-] & _ & Hcs' & _ & -> & _).
    rewrite Hcs in Hcs'. injection Hcs' as <-.
    destruct (Hsession (S (length (trace w)))) as (Hwf & Hin' & Hlim').
    rewrite soliter_next_stop; [|done].
    left. exact (empty_clause_answer e _ Hsat Hunk Hcodes Hwf Hin' Hlim').
Qed.

(** X15. The empty clause set is satisfiable: with no propagation limit,
    [solve] returns a list, never "UNSAT" or "UNKNOWN" or NULL, and the list
    is a total assignment over as many variables as the [vars] argument
    asks for (none by default). *)
Theorem empty_clause_set_is_satisfiable e a w :
  sat_contract e → unsat_contract e → unknown_contract e → codes_contract e →
  read_clauses (heap w) (arg_clauses a) = Some [] → -1 ≤ arg_vars a →
  arg_prop_limit a = 0 → oom w = [] →
  ∃ sol w', solve e (Some a) w = (Py_List sol, w') ∧
            total_over (Z.to_nat (Z.max 0 (arg_vars a))) sol.
Proof.
  intros Hsat Hunsat Hunk Hcodes Hcs Hvars Hlim Hoom.
  destruct (valid_session a w [] Hcs eq_refl)
    as (w1 & Hsetup & _ & Hoom1 & _ & _ & Hwf & Hcl).
  set (ps := session (length (trace w)) a []) in *.
  assert (proplimit ps = None ∧ max_var ps = Z.max 0 (arg_vars a)) as [Hlim' Hmv].
  { subst ps. rewrite session_fields //. simpl. rewrite Hlim. split; [done|].
    destruct (configured_fields (length (trace w)) a) as (_ & _ & -> & _).
    unfold max_index, max_abs. simpl. destruct (arg_vars a =? -1) eqn:Hv; lia. }
  assert ((e ps (-1)).1 = PICOSAT_SATISFIABLE) as Hres.
  { destruct (Hcodes ps) as [Hr|[Hr|Hr]]; [done| |].
    - pose proof (Hunsat ps Hwf Hr (λ _, true)) as Heval. by rewrite Hcl in Heval.
    - by destruct (Hunk ps Hr). }
  rewrite Hoom in Hoom1.
  rewrite (solve_eq e _ w _ w1 Hsetup (wf_engine_ready _ Hwf) Hoom1). cbn zeta.
  rewrite Hres. cbn [Z.eqb Pos.eqb PICOSAT_SATISFIABLE]. eexists _, _. split; [done|].
  destruct (decode_sound e ps Hsat Hwf Hres) as (Htot & _). by rewrite -Hmv.
Qed.

(** ** Reading a solution back *)

(** A list without an empty slot holds every item. *)
Lemma store_items_full zs o : 0 ∉ (store_items zs o).1 → (store_items zs o).1 = zs.
Proof.
  revert o. induction zs as [|z zs IH]; intros o; [done|]. cbn [store_items].
  destruct (small_int z).
  { simpl. intros Hno. rewrite IH //. intros Hin. apply Hno. by right. }
  destruct o as [|[] o]; simpl; intros Hno.
  - rewrite IH //. intros Hin. apply Hno. by right.
  - exfalso. apply Hno. by left.
  - rewrite IH //. intros Hin. apply Hno. by right.
Qed.

(** The decoded values have no 0 and give back the values. *)
Lemma decode_values ps :
  0 ≤ max_var ps → (∀ i, 1 ≤ i ≤ max_var ps → vals ps i = 1 ∨ vals ps i = -1) →
  (0 ∉ decode ps) ∧ ∀ i, 1 ≤ i ≤ max_var ps → values_of (decode ps) i = vals ps i.
Proof.
  intros Hmv Hvals. unfold decode. split.
  { intros (i & Hz & Hi%elem_of_seqZ)%list_elem_of_fmap.
    destruct (Hvals i) as [Hv|Hv]; [lia|rewrite Hv in Hz; lia..]. }
  intros i Hi.
  destruct (signed_total (λ i, vals ps i * i) (Z.to_nat (max_var ps))) as [_ Hval].
  { intros j Hj. destruct (Hvals j) as [-> | ->]; lia. }
  rewrite Z2Nat.id // in Hval. specialize (Hval i Hi). unfold assignment_of in Hval.
  unfold values_of. rewrite Hval. destruct (Hvals i Hi) as [Hv|Hv]; rewrite Hv.
  - rewrite bool_decide_eq_true_2; [lia|done].
  - rewrite bool_decide_eq_false_2; [lia|]. rewrite bool_decide_eq_true_2; [|done].
    apply list_elem_of_fmap. exists i. rewrite Hv elem_of_seqZ. split; lia.
Qed.

(** X16. The list [get_solution] builds has one slot per engine variable.
    The slot of variable [i] holds [+i] or [-i] by the value of the
    variable, or is empty when the int for it could not be allocated.  A
    list without an empty slot, as every list is when the host has memory,
    determines the engine's values: variable [i] is true exactly when [+i]
    is in the list and false exactly when [-i] is. *)
Theorem solution_list_determines_values ps w sol w' :
  0 ≤ max_var ps →
  (∀ i, 1 ≤ i ≤ max_var ps → picosat_deref ps i = 1 ∨ picosat_deref ps i = -1) →
  get_solution ps w = (Some sol, w') →
  length sol = Z.to_nat (picosat_variables ps) ∧
  (∀ i, 1 ≤ i ≤ max_var ps →
     sol !! Z.to_nat (i - 1) = Some (picosat_deref ps i * i) ∨
     sol !! Z.to_nat (i - 1) = Some 0) ∧
  (0 ∉ sol → ∀ i, 1 ≤ i ≤ max_var ps → values_of sol i = picosat_deref ps i) ∧
  (oom w = [] → 0 ∉ sol).
Proof.
  intros Hmv Hvals. rewrite get_solution_eq //. intros Hrun.
  assert (sol = (store_items (decode ps) (tail (oom w))).1) as ->
    by (destruct (oom w) as [|[] o]; cbn zeta in Hrun; by simplify_eq).
  unfold picosat_variables, picosat_deref in *.
  destruct (decode_values ps Hmv Hvals) as [Hnz Hback].
  assert (length (decode ps) = Z.to_nat (max_var ps)) as Hlen
    by (unfold decode; by rewrite length_map length_seqZ).
  split; [by rewrite store_items_length|]. split; [|split].
  - intros i Hi.
    destruct (lookup_lt_is_Some_2 (store_items (decode ps) (tail (oom w))).1
                (Z.to_nat (i - 1))) as [x Hx]; [rewrite store_items_length; lia|].
    rewrite Hx. destruct (store_items_lookup _ _ _ _ Hx) as [Hd | ->]; [|by right].
    left. unfold decode in Hd. rewrite list_lookup_fmap lookup_seqZ_lt in Hd; [lia|].
    simpl in Hd. replace (1 + Z.of_nat (Z.to_nat (i - 1))) with i in Hd by lia. done.
  - intros Hfull i Hi. rewrite store_items_full //. by apply Hback.
  - intros ->. by rewrite /= store_items_nil.
Qed.

(** ** The literals as the engine sees them *)

Lemma same_as_int_int_of_pylong x y : same_as_int x y → int_of_pylong x = int_of_pylong y.
Proof.
  intros (Hx & Hy & Hmod). unfold int_of_pylong.
  rewrite !bool_decide_eq_true_2 //. unfold int_of_long.
  by rewrite (Z.add_mod x) // (Z.add_mod y) // Hmod.
Qed.

Lemma same_as_int_clauses cs1 cs2 :
  Forall2 (Forall2 same_as_int) cs1 cs2 →
  map (map int_of_pylong) cs1 = map (map int_of_pylong) cs2.
Proof.
  induction 1 as [|c1 c2 cs1 cs2 Hc _ IH]; [done|]. simpl. rewrite IH. f_equal.
  induction Hc as [|x y c1 c2 Hxy _ IHc]; [done|]. simpl.
  by rewrite IHc (same_as_int_int_of_pylong x y Hxy).
Qed.

Lemma solve_value e args w ps w1 :
  setup_picosat args w = (Some ps, w1) →
  (solve e args w).1 = solve_answer e ps (oom w1).
Proof.
  intros Hsetup.
  destruct (wf_engine_ready _ (setup_picosat_ready _ _ _ _ Hsetup)) as [Hmv Hopen].
  rewrite (solve_unfold e args w ps w1 Hsetup). unfold solve_answer. cbn zeta.
  destruct (_ =? PICOSAT_SATISFIABLE).
  { unfold mbind, M_bind. rewrite get_solution_eq //. cbn [emit oom].
    destruct (oom w1) as [|[] o]; by msimpl. }
  destruct (_ =? PICOSAT_UNSATISFIABLE).
  { unfold mbind, M_bind. rewrite PyUnicode_FromString_eq. cbn [emit oom].
    destruct (oom w1) as [|[] o]; by msimpl. }
  destruct (_ =? PICOSAT_UNKNOWN).
  { unfold mbind, M_bind. rewrite PyUnicode_FromString_eq. cbn [emit oom].
    destruct (oom w1) as [|[] o]; by msimpl. }
  by msimpl.
Qed.

(** X17. Literals are taken modulo 2^32: [solve] gives the same result for
    two clause arguments whose literals, position by position, fit a C long
    and differ by multiples of 2^32 (same keyword arguments, same state of
    the host).  So [[2^32 + 1]] is solved as [[1]]. *)
Theorem literals_taken_modulo_2_32 e a w1 w2 cs1 cs2 :
  read_clauses (heap w1) (arg_clauses a) = Some cs1 →
  read_clauses (heap w2) (arg_clauses a) = Some cs2 →
  Forall2 (Forall2 same_as_int) cs1 cs2 →
  oom w1 = oom w2 → length (trace w1) = length (trace w2) →
  (solve e (Some a) w1).1 = (solve e (Some a) w2).1.
Proof.
  intros Hcs1 Hcs2 Hsame Hoom Hlen.
  pose proof (same_as_int_clauses cs1 cs2 Hsame) as Hmap.
  destruct (setup_picosat_spec a w1 cs1 Hcs1) as (w1' & _ & Hoom1 & Hres1).
  destruct (setup_picosat_spec a w2 cs2 Hcs2) as (w2' & _ & Hoom2 & Hres2).
  assert (Exists (Exists (λ z, int_of_pylong z = 0)) cs1 →
          Forall (Forall (λ z, int_of_pylong z ≠ 0)) cs2 → False) as Hno.
  { intros Hex Hall. apply Forall_int_of_pylong in Hall. rewrite -Hmap in Hall.
    apply Exists_exists in Hex as (c & Hc & Hex).
    apply Exists_exists in Hex as (z & Hz & Hzero).
    rewrite Forall_forall in Hall.
    specialize (Hall (map int_of_pylong c) (list_elem_of_fmap_2 _ _ _ Hc)).
    rewrite Forall_forall in Hall.
    by apply (Hall (int_of_pylong z) (list_elem_of_fmap_2 _ _ _ Hz)). }
  assert (Exists (Exists (λ z, int_of_pylong z = 0)) cs2 →
          Forall (Forall (λ z, int_of_pylong z ≠ 0)) cs1 → False) as Hno'.
  { intros Hex Hall. apply Forall_int_of_pylong in Hall. rewrite Hmap in Hall.
    apply Exists_exists in Hex as (c & Hc & Hex).
    apply Exists_exists in Hex as (z & Hz & Hzero).
    rewrite Forall_forall in Hall.
    specialize (Hall (map int_of_pylong c) (list_elem_of_fmap_2 _ _ _ Hc)).
    rewrite Forall_forall in Hall.
    by apply (Hall (int_of_pylong z) (list_elem_of_fmap_2 _ _ _ Hz)). }
  destruct Hres1 as [(Hnz1 & Hrun1 & _)|(Hex1 & Hrun1 & _)];
    destruct Hres2 as [(Hnz2 & Hrun2 & _)|(Hex2 & Hrun2 & _)].
  - rewrite (solve_value e _ w1 _ w1' Hrun1) (solve_value e _ w2 _ w2' Hrun2).
    unfold session. by rewrite Hmap Hlen Hoom1 Hoom2 Hoom.
  - destruct (Hno' Hex2 Hnz1).
  - destruct (Hno Hex1 Hnz2).
  - unfold solve, mbind, M_bind. by rewrite Hrun1 Hrun2.
Qed.

(** ** Answers of the engine and results of [solve] *)

(** X18. A result code other than the three the binding knows surfaces as
    SystemError carrying the code, from [solve] (NULL is returned, the
    session released) and from an advance of an iterator (NULL, the session
    kept and not blocked); it is never taken for an answer. *)
Theorem unexpected_code_raises e args w ps w1 :
  setup_picosat args w = (Some ps, w1) →
  let res := (e ps (-1)).1 in
  res ≠ PICOSAT_SATISFIABLE → res ≠ PICOSAT_UNSATISFIABLE → res ≠ PICOSAT_UNKNOWN →
  let err := Some (mkExc PyExc_SystemError "picosat return value: %d" (Some res)) in
  solve e args w =
    (Py_NULL, mkWorld (heap w1) err (oom w1)
                (trace w1 ++ invocation (handle ps) res ++ [Ev_reset (handle ps)])) ∧
  ∀ mem w2,
    soliter_next e (mkIter ps mem) w2 =
      ((None, mkIter (searched e ps) mem),
       mkWorld (heap w2) err (oom w2) (trace w2 ++ invocation (handle ps) res)).
Proof.
  intros Hsetup res H1 H2 H3 err. apply Z.eqb_neq in H1, H2, H3. split.
  - rewrite (solve_unfold e args w ps w1 Hsetup). cbn zeta. fold res.
    rewrite H1 H2 H3. msimpl. by rewrite -!app_assoc.
  - intros mem w2. rewrite soliter_next_unfold. cbn zeta. cbn [it_picosat it_mem].
    fold res. rewrite H1 H2 H3. cbn [orb]. by msimpl.
Qed.

(** X19. [get_solution] fails only when the list cannot be allocated: then
    it returns NULL with MemoryError after releasing the engine.  Storing
    an item never fails, the list having one slot per variable, so the
    error path of the loop is never taken; but the int to store can fail to
    be allocated, and the loop does not look: the list is then returned
    with an empty slot and MemoryError set.  Otherwise the list holds the
    decoded values and the error indicator is left alone. *)
Theorem get_solution_fails_only_on_allocation ps w :
  0 ≤ picosat_variables ps →
  ((get_solution ps w).1 = None ↔ head (oom w) = Some true) ∧
  ((get_solution ps w).1 = None →
     pyerr (get_solution ps w).2 = Some (mkExc PyExc_MemoryError "" None) ∧
     trace (get_solution ps w).2 =
       trace w ++ [Ev_PyList_New (picosat_variables ps) false; Ev_reset (handle ps)]) ∧
  (∀ sol, (get_solution ps w).1 = Some sol →
     trace (get_solution ps w).2 = trace w ++ [Ev_PyList_New (picosat_variables ps) true] ∧
     ((sol = decode ps ∧ pyerr (get_solution ps w).2 = pyerr w) ∨
      (0 ∈ sol ∧ pyerr (get_solution ps w).2 = Some (mkExc PyExc_MemoryError "" None)))).
Proof.
  unfold picosat_variables. intros Hmv. rewrite get_solution_eq //.
  assert (∀ o sol, (store_items (decode ps) o).1 = sol →
            (sol = decode ps ∧
             (if (store_items (decode ps) o).2.2 then Some memory_error else pyerr w)
             = pyerr w) ∨
            (0 ∈ sol ∧
             (if (store_items (decode ps) o).2.2 then Some memory_error else pyerr w)
             = Some (mkExc PyExc_MemoryError "" None))) as Hitems.
  { intros o sol <-. destruct (store_items (decode ps) o).2.2 eqn:Hfail.
    - right. split; [by apply store_items_failed|done].
    - left. split; [by apply store_items_ok|done]. }
  destruct (oom w) as [|[] o]; cbn [tail fst snd head trace pyerr].
  - split; [done|]. split; [done|]. intros sol [= Hsol]. split; [done|]. by apply Hitems.
  - split; [done|]. split; [done|]. by intros sol [=].
  - split; [split; [done|by intros [=]]|]. split; [done|].
    intros sol [= Hsol]. split; [done|]. by apply Hitems.
Qed.



(** ** A bound on what an enumeration yields *)

Lemma advances_total e (He : sat_contract e) n :
  ∀ it w rs it' w',
    wf_engine (it_picosat it) → oom w = [] → advances e n it w = ((rs, it'), w') →
    ∀ sol, Some sol ∈ rs → total_over (Z.to_nat (max_var (it_picosat it))) sol.
Proof.
  induction n as [|n IH]; intros it w rs it' w' Hwf Hoom Hrun sol Hsol.
  { msimpl. simplify_eq. by apply elem_of_nil in Hsol. }
  cbn [advances] in Hrun. unfold mbind, M_bind at 1 in Hrun.
  destruct (soliter_next e it w) as [[r it1] w1] eqn:Hnext.
  unfold mbind, M_bind at 1 in Hrun.
  destruct (advances e n it1 w1) as [[rs1 it2] w2] eqn:Hrest.
  unfold mret, M_ret in Hrun. simplify_eq.
  pose proof (wf_engine_ready _ Hwf) as Hready.
  destruct (advances_wf e it w r it1 w1 Hwf Hnext) as (Hwf1 & Hmv & _).
  pose proof (soliter_next_oom e it w r it1 w1 Hready Hoom Hnext) as Hoom1.
  apply elem_of_cons in Hsol as [Hsol|Hsol].
  - subst r.
    destruct (soliter_next_yields_mem e it w sol it1 w1 Hready Hoom Hnext) as (Hres & -> & _).
    by destruct (decode_sound e _ He Hwf Hres) as (Htot & _).
  - rewrite -Hmv. exact (IH it1 w1 rs1 it' w' Hwf1 Hoom1 Hrest sol Hsol).
Qed.

(** X22. For a valid clause set (no literal 0, every literal a C int) and
    a host that has memory, an iterator never yields more lists than the
    clause set has satisfying assignments over the variables of the
    session, whatever the propagation limit: every yielded list is one of
    these assignments, and none is yielded twice. *)
Theorem yields_at_most_the_models e a w cs it w1 :
  sat_contract e →
  read_clauses (heap w) (arg_clauses a) = Some cs → valid_clauses cs = true →
  itersolve (Some a) w = (Some it, w1) →
  let N := Z.to_nat (picosat_variables (it_picosat it)) in
  ∀ n w2 rs it' w3, oom w2 = [] → advances e n it w2 = ((rs, it'), w3) →
    (∀ sol, Some sol ∈ rs → sol ∈ models N cs) ∧
    (length (omap id rs) ≤ length (models N cs))%nat.
Proof.
  intros He Hcs Hvalid Hiter N n w2 rs it' w3 Hoom Hrun.
  destruct (valid_clauses_spec cs Hvalid) as (Hid & Hnz & _).
  destruct (itersolve_inv _ _ _ _ Hiter) as (a' & cs' & w0 & [= <-] & _ & Hcs' & _ & Hit & _).
  rewrite Hcs in Hcs'. injection Hcs' as <-.
  assert (wf_engine (it_picosat it)) as Hwf by (subst it; by apply session_wf).
  assert (clauses (it_picosat it) = cs) as Hcl.
  { subst it. cbn [it_picosat]. rewrite session_fields //. }
  assert (∀ sol, Some sol ∈ rs → sol ∈ models N cs) as Hmodels.
  { intros sol Hsol. apply elem_of_models. split.
    - exact (advances_total e He n it w2 rs it' w3 Hwf Hoom Hrun sol Hsol).
    - eapply (advances_sound e He cs n it w2 rs it' w3 Hwf); [|exact Hoom|exact Hrun|exact Hsol].
      by rewrite Hcl. }
  split; [exact Hmodels|].
  apply submseteq_length, NoDup_submseteq.
  - exact (advances_distinct e He n it w2 rs it' w3 Hwf Hoom Hrun).
  - intros sol (r & Hr & Heq)%list_elem_of_omap. simpl in Heq. subst r. by apply Hmodels.
Qed.

(** ** Soundness within the range of C ints *)

(** X24. For a clause set whose literals are non-zero C ints, an engine
    that honours the SATISFIABLE contract and a host that has memory, the
    list [solve] returns and every list the iterator of [itersolve] yields
    makes every input clause true. *)
Theorem sound_within_int_range e a w cs :
  sat_contract e →
  read_clauses (heap w) (arg_clauses a) = Some cs →
  valid_clauses cs = true →
  (∀ sol w', oom w = [] → solve e (Some a) w = (Py_List sol, w') →
     eval_cnf (assignment_of sol) cs = true) ∧
  (∀ it w1, itersolve (Some a) w = (Some it, w1) →
     ∀ n w2 rs it' w3, oom w2 = [] → advances e n it w2 = ((rs, it'), w3) →
       ∀ sol, Some sol ∈ rs → eval_cnf (assignment_of sol) cs = true).
Proof.
  intros He Hcs Hvalid. destruct (valid_clauses_spec cs Hvalid) as (Hid & Hnz & _). split.
  - intros sol w' Hoom Hrun.
    destruct (valid_session a w cs Hcs Hvalid)
      as (w1 & Hsetup & _ & Hoom1 & _ & _ & Hwf & Hcl).
    rewrite Hoom in Hoom1.
    rewrite (solve_eq e _ w _ w1 Hsetup (wf_engine_ready _ Hwf) Hoom1) in Hrun.
    cbn zeta in Hrun.
    destruct (_ =? PICOSAT_SATISFIABLE) eqn:Hres.
    + apply Z.eqb_eq in Hres. injection Hrun as <- _.
      destruct (decode_sound e _ He Hwf Hres) as (_ & _ & Heval). by rewrite Hcl in Heval.
    + destruct (_ =? PICOSAT_UNSATISFIABLE); [done|]. by destruct (_ =? PICOSAT_UNKNOWN).
  - intros it w1 Hiter n w2 rs it' w3 Hoom Hrun sol Hsol.
    destruct (itersolve_inv _ _ _ _ Hiter) as (a' & cs' & w0 & [= <-] & _ & Hcs' & _ & Hit & _).
    rewrite Hcs in Hcs'. injection Hcs' as <-.
    eapply (advances_sound e He cs n it w2 rs it' w3); [| |exact Hoom|exact Hrun|exact Hsol].
    + subst it. by apply session_wf.
    + subst it. cbn [it_picosat]. by rewrite session_fields // Hid.
Qed.

(** ** What the engine is fed *)

Lemma load_clauses_flat ps cs :
  load_clauses ps cs = foldl picosat_add ps (concat (map (λ c, c ++ [0]) cs)).
Proof.
  unfold load_clauses. revert ps. induction cs as [|c cs IH]; intros ps; [done|].
  simpl. by rewrite IH !foldl_app.
Qed.

(** X23. When the setup succeeds, the engine has been fed, literal by
    literal through [picosat_add], the clauses of the argument in list
    order: the ints of each clause in order, each narrowed to a C int, and a
    0 after each clause, starting from the freshly configured instance. *)
Theorem clauses_fed_in_order a w ps w1 :
  setup_picosat (Some a) w = (Some ps, w1) →
  ∃ cs, read_clauses (heap w) (arg_clauses a) = Some cs ∧
    ps = foldl picosat_add (configured (length (trace w)) a)
           (concat (map (λ c, map int_of_pylong c ++ [0]) cs)) ∧
    clauses ps = map (map int_of_pylong) cs ∧ open_clause ps = [].
Proof.
  intros Hsetup.
  destruct (setup_picosat_inv _ _ _ _ Hsetup) as (a' & cs & [= <-] & Hcs & Hnz & -> & _).
  exists cs. split; [done|]. split.
  - unfold session. by rewrite load_clauses_flat map_map.
  - by rewrite session_fields.
Qed.

(** * The properties at concrete inputs *)

Lemma it_12_new :
  itersolve (Some (default_args 0)) (world0 heap_12) =
  (Some it_12, (itersolve (Some (default_args 0)) (world0 heap_12)).2).
Proof. vm_compute. reflexivity. Defined.

Lemma it_unsat_new :
  itersolve (Some (default_args 0)) (world0 heap_unsat) =
  (Some it_unsat, (itersolve (Some (default_args 0)) (world0 heap_unsat)).2).
Proof. vm_compute. reflexivity. Defined.

(** The scenarios of the specification, on the reference engine. *)
Example solve_1_2 :
  (solve ref_search (Some (default_args 0)) (world0 heap_12)).1 = Py_List [-1; 2].
Proof. vm_compute. reflexivity. Qed.

Example solve_unsat :
  (solve ref_search (Some (default_args 0)) (world0 heap_unsat)).1 = Py_Unicode "UNSAT".
Proof. vm_compute. reflexivity. Qed.

Example enumerate_1_2 :
  (advances ref_search 5 it_12 (world0 heap_12)).1.1 =
  [Some [-1; 2]; Some [1; -2]; Some [1; 2]; None; None].
Proof. vm_compute. reflexivity. Qed.

(** Outside the int range a literal is narrowed on its way to the engine:
    2^32 + 1 arrives as 1. *)
Example literal_narrowed_to_int : int_of_pylong 4294967297 = 1.
Proof. reflexivity. Qed.

Example solve_empty_vars_3 :
  (solve ref_search (Some (mkArgs 0 3 0 0)) (world0 {[ 0%nat := PyListV [] ]})).1 =
  Py_List [-1; -2; -3].
Proof. vm_compute. reflexivity. Qed.

(** C1 at the reference engine. *)
Lemma narrowed_literal_breaks_soundness_witness :
  sat_contract ref_search ∧ unsat_contract ref_search ∧
  unknown_contract ref_search ∧ codes_contract ref_search ∧
  read_clauses heap_wide 0 = Some [[4294967297]] ∧
  (solve ref_search (Some (default_args 0)) (world0 heap_wide)).1 = Py_List [1] ∧
  (∃ w', solve ref_search (Some (default_args 0)) (world0 heap_wide) = (Py_List [1], w') ∧
         pyerr w' = None) ∧
  eval_cnf (assignment_of [1]) [[4294967297]] = false.
Proof.
  destruct (narrowed_literal_breaks_soundness ref_search ref_search_sat ref_search_unsat
              ref_search_unknown ref_search_codes) as (Hread & Hsolve & _ & Heval).
  split; [exact ref_search_sat|]. split; [exact ref_search_unsat|].
  split; [exact ref_search_unknown|]. split; [exact ref_search_codes|].
  split; [exact Hread|]. split; [vm_compute; reflexivity|]. by split.
Defined.



(** C3 at the first advance over [[1, 2]]: the values (false, true) are
    blocked by the clause [1, -2]. *)
Lemma blocksol_blocks_current_witness :
  reachable ref_search it_12 ∧
  (ref_search (it_picosat it_12) (-1)).1 = PICOSAT_SATISFIABLE ∧
  oom (world0 heap_12) = [] ∧
  ∃ it' w',
    soliter_next ref_search it_12 (world0 heap_12) = ((Some [-1; 2], it'), w') ∧
    clauses (it_picosat it') = [[1; 2]; [1; -2]] ∧
    eval_clause (assignment_of [-1; 2]) [1; -2] = false.
Proof.
  assert (reachable ref_search it_12) as Hreach by exact (reach_new _ _ _ _ _ it_12_new).
  split; [done|]. split; [reflexivity|]. split; [reflexivity|].
  destruct (blocksol_blocks_current ref_search it_12 (world0 heap_12) Hreach eq_refl eq_refl)
    as (it' & w' & Hnext & _ & Hcl & _).
  exists it', w'. split; [exact Hnext|]. split; [exact Hcl|]. reflexivity.
Defined.


(** A list with as many entries as [[2]] has variable indices (one) does
    not even mention variable 2, and cannot make the clause true. *)
Example index_count_length_unsound sol :
  total_over 1 sol → eval_cnf (assignment_of sol) [[2]] = false.
Proof.
  intros [Hlen Hpos]. destruct sol as [|x [|y sol]]; try done.
  pose proof (Hpos 0%nat x eq_refl) as Hx. simpl in Hx.
  unfold eval_cnf, eval_clause, eval_lit, assignment_of. simpl.
  rewrite bool_decide_eq_false_2; [|done].
  intros Hin%list_elem_of_singleton. lia.
Qed.


(** C5 at [[1, 0]]. *)
Lemma zero_literal_rejected_witness :
  read_clauses heap_zero 0 = Some [[1; 0]] ∧ (∃ c, c ∈ [[1; 0]] ∧ 0 ∈ c) ∧
  (solve ref_search (Some (default_args 0)) (world0 heap_zero)).1 = Py_NULL ∧
  trace (solve ref_search (Some (default_args 0)) (world0 heap_zero)).2 =
    [Ev_minit 0; Ev_reset 0] ∧
  (itersolve (Some (default_args 0)) (world0 heap_zero)).1 = None ∧
  trace (itersolve (Some (default_args 0)) (world0 heap_zero)).2 =
    [Ev_GC_New true; Ev_minit 1; Ev_reset 1].
Proof.
  assert (∃ c, c ∈ [[1; 0]] ∧ 0 ∈ c) as Hzero.
  { exists [1; 0]. split; [by left|]. right. by left. }
  split; [vm_compute; reflexivity|]. split; [done|].
  destruct (zero_literal_rejected ref_search (default_args 0) (world0 heap_zero) [[1; 0]]
              eq_refl Hzero) as [(w' & Hsolve & _ & Htrace) Hiter].
  destruct (Hiter (world0 heap_zero) eq_refl) as (w'' & Hrun & _ & Htrace').
  rewrite Hsolve Hrun. done.
Defined.

(** C6 as stated fails on [[1], [-1]]: the engine answers UNSATISFIABLE,
    the advance returns NULL, and the session has not been reset; a second
    advance invokes the engine once more. *)
Lemma exhausted_session_not_released :
  (itersolve (Some (default_args 0)) (world0 heap_unsat)).1 = Some it_unsat ∧
  (ref_search (it_picosat it_unsat) (-1)).1 = PICOSAT_UNSATISFIABLE ∧
  (soliter_next ref_search it_unsat (world0 heap_unsat)).1.1 = None ∧
  trace (soliter_next ref_search it_unsat (world0 heap_unsat)).2 =
    [Ev_gil_release; Ev_sat 1 PICOSAT_UNSATISFIABLE; Ev_gil_acquire] ∧
  count_occ event_eq_dec (trace (soliter_next ref_search it_unsat (world0 heap_unsat)).2)
    (Ev_reset 1) = 0%nat ∧
  count_occ event_eq_dec (trace (advances ref_search 2 it_unsat (world0 heap_unsat)).2)
    (Ev_sat 1 PICOSAT_UNSATISFIABLE) = 2%nat.
Proof. vm_compute. repeat split; reflexivity. Qed.

(** When the host cannot allocate the result list, [get_solution] resets
    the engine and [soliter_dealloc] resets it once more. *)
Example failed_list_allocation_resets_twice :
  let w := mkWorld heap_12 None [true] [] in
  let run := '(r, it) ← soliter_next ref_search it_12; soliter_dealloc it;; mret r in
  (run w).1 = None ∧
  count_occ event_eq_dec (trace (run w).2) (Ev_reset 1) = 2%nat.
Proof. vm_compute. split; reflexivity. Qed.

(** C6 (amended) at [[1], [-1]]. *)
Lemma exhaustion_keeps_session_witness :
  reachable ref_search it_unsat ∧
  (ref_search (it_picosat it_unsat) (-1)).1 = PICOSAT_UNSATISFIABLE ∧
  (∃ it' w', soliter_next ref_search it_unsat (world0 heap_unsat) = ((None, it'), w') ∧
     trace w' = [Ev_gil_release; Ev_sat 1 PICOSAT_UNSATISFIABLE; Ev_gil_acquire] ∧
     handle (it_picosat it') = 1%nat) ∧
  (∀ n rs it' w' w'',
     advances ref_search n it_unsat (world0 heap_unsat) = ((rs, it'), w') →
     soliter_dealloc it' w' = (tt, w'') →
     count_occ event_eq_dec (trace w'') (Ev_reset 1) = 1%nat).
Proof.
  assert (reachable ref_search it_unsat) as Hreach
    by exact (reach_new _ _ _ _ _ it_unsat_new).
  destruct (exhaustion_keeps_session ref_search it_unsat (world0 heap_unsat) Hreach)
    as [Hstop Honce].
  split; [done|]. split; [reflexivity|]. split.
  - destruct (Hstop (or_introl eq_refl)) as (it' & w' & Hnext & _ & Htrace & Hh & _).
    by exists it', w'.
  - intros n rs it' w' w'' Hrun Hdealloc.
    destruct (Honce eq_refl n rs it' w' w'' Hrun Hdealloc) as (evs & -> & Hcount). done.
Defined.

(** C7: the code does not do what the claim says.  Over [[1, 2]] each of
    the three successful advances allocates a buffer, the iterator's [mem]
    is NULL after every one of them, and deallocation frees nothing. *)
Theorem scratch_buffer_allocated_per_advance :
  let run :=
    '(rs, it) ← advances ref_search 3 it_12;
    soliter_dealloc it;;
    mret (rs, it_mem it) in
  (run (world0 heap_12)).1 = ([Some [-1; 2]; Some [1; -2]; Some [1; 2]], None) ∧
  List.filter (λ ev, match ev with
                     | Ev_PyMem_Malloc _ _ | Ev_PyMem_Free _ => true
                     | _ => false
                     end) (trace (run (world0 heap_12)).2) =
  [Ev_PyMem_Malloc 3 (Some 4%nat); Ev_PyMem_Malloc 3 (Some 9%nat);
   Ev_PyMem_Malloc 3 (Some 14%nat)].
Proof. vm_compute. split; reflexivity. Qed.

(** C8 at [[1, 2]] with [prop_limit = 1]. *)
Lemma unknown_only_with_limit_witness :
  unknown_contract ref_search ∧ codes_contract ref_search ∧ 0 ≤ 1 ∧
  (setup_picosat (Some (mkArgs 0 (-1) 0 1)) (world0 heap_12)).1 =
    Some (session 0 (mkArgs 0 (-1) 0 1) [[1; 2]]) ∧
  (ref_search (session 0 (mkArgs 0 (-1) 0 1) [[1; 2]]) (-1)).1 = PICOSAT_UNKNOWN ∧
  (solve ref_search (Some (mkArgs 0 (-1) 0 1)) (world0 heap_12)).1 = Py_Unicode "UNKNOWN" ∧
  0 < arg_prop_limit (mkArgs 0 (-1) 0 1).
Proof.
  split; [exact ref_search_unknown|]. split; [exact ref_search_codes|]. split; [lia|].
  split; [vm_compute; reflexivity|]. split; [reflexivity|].
  assert (setup_picosat (Some (mkArgs 0 (-1) 0 1)) (world0 heap_12) =
          (Some (session 0 (mkArgs 0 (-1) 0 1) [[1; 2]]),
           (setup_picosat (Some (mkArgs 0 (-1) 0 1)) (world0 heap_12)).2)) as Hsetup
    by (vm_compute; reflexivity).
  destruct (unknown_only_with_limit ref_search (mkArgs 0 (-1) 0 1) (world0 heap_12) _ _
              ref_search_unknown ref_search_codes ltac:(simpl; lia) Hsetup)
    as (Hunk & Hlim & _).
  destruct (Hunk eq_refl) as [_ Hret]. specialize (Hret eq_refl).
  split; [exact Hret|]. exact (Hlim Hret).
Defined.

(** C9 at [[1, 2]]: the engine has the clause, and the advances are the
    same after the caller's objects are gone. *)
Lemma iterator_independent_of_caller_list_witness :
  (itersolve (Some (default_args 0)) (world0 heap_12)).1 = Some it_12 ∧
  clauses (it_picosat it_12) = [[1; 2]] ∧
  (advances ref_search 4 it_12 (set_heap ∅ (world0 heap_12))).1 =
  (advances ref_search 4 it_12 (world0 heap_12)).1.
Proof.
  split; [vm_compute; reflexivity|].
  destruct (proj2 (iterator_independent_of_caller_list ref_search
                     (Some (default_args 0)) (world0 heap_12)) it_12 _ it_12_new)
    as (a & cs & Ha & Hcs & _ & _ & Hvalid & _ & Hindep).
  injection Ha as <-. vm_compute in Hcs. injection Hcs as <-.
  split; [by apply Hvalid|]. apply Hindep.
Defined.

(** C10 at [[1, 2]], the engine asking for 16 bytes during the search. *)
Lemma allocator_called_without_gil_witness :
  (setup_picosat (Some (default_args 0)) (world0 heap_12)).1 =
    Some (session 0 (default_args 0) [[1; 2]]) ∧
  trace (solve ref_search (Some (default_args 0)) (world0 heap_12)).2 =
    [Ev_minit 0; Ev_gil_release; Ev_sat 0 PICOSAT_SATISFIABLE; Ev_gil_acquire;
     Ev_PyList_New 2 true; Ev_reset 0] ∧
  trace (engine_mm_call (session 0 (default_args 0) [[1; 2]]) (Mm_new 16)
           (mkWorld heap_12 None [] [Ev_minit 0; Ev_gil_release])).2 =
    [Ev_minit 0; Ev_gil_release; Ev_PyMem_Malloc 16 (Some 2%nat)] ∧
  gil_run Gil_held [Ev_gil_release; Ev_PyMem_Malloc 16 (Some 2%nat);
                    Ev_sat 0 PICOSAT_SATISFIABLE; Ev_gil_acquire] = None ∧
  ∃ ev,
    trace (engine_mm_call (session 0 (default_args 0) [[1; 2]]) (Mm_new 16)
             (mkWorld heap_12 None [] [Ev_minit 0; Ev_gil_release])).2 =
      [Ev_minit 0; Ev_gil_release] ++ [ev] ∧
    gil_step Gil_held ev = Some Gil_held ∧
    gil_step Gil_released ev = None ∧
    gil_run Gil_held [Ev_gil_release; ev; Ev_sat 0 PICOSAT_SATISFIABLE; Ev_gil_acquire]
      = None.
Proof.
  assert (setup_picosat (Some (default_args 0)) (world0 heap_12) =
          (Some (session 0 (default_args 0) [[1; 2]]),
           (setup_picosat (Some (default_args 0)) (world0 heap_12)).2)) as Hsetup
    by (vm_compute; reflexivity).
  split; [vm_compute; reflexivity|]. split; [vm_compute; reflexivity|].
  split; [vm_compute; reflexivity|]. split; [reflexivity|].
  destruct (allocator_called_without_gil ref_search (Some (default_args 0))
              (world0 heap_12) _ _ Hsetup) as (_ & _ & _ & _ & _ & _ & Hcall).
  exact (Hcall (Mm_new 16) (mkWorld heap_12 None [] [Ev_minit 0; Ev_gil_release])).
Defined.

(** ** Further properties at concrete inputs *)

(** X1 at [[1, None], 5]: the item that is no int is reported, not the clause
    that is no list. *)
Lemma solve_reports_first_error_witness :
  scan_clauses (heap (world0 heap_mixed)) (arg_clauses (default_args 0)) =
    Some integer_expected ∧
  ∃ w', solve ref_search (Some (default_args 0)) (world0 heap_mixed) = (Py_NULL, w') ∧
        pyerr w' = Some integer_expected ∧
        heap w' = heap (world0 heap_mixed) ∧ oom w' = oom (world0 heap_mixed) ∧
        trace w' = trace (world0 heap_mixed) ++ [Ev_minit 0%nat; Ev_reset 0%nat].
Proof.
  split; [reflexivity|].
  exact (solve_reports_first_error ref_search (default_args 0) (world0 heap_mixed)
           integer_expected eq_refl).
Defined.

(** X2 at [[2^64]]: accepted. *)
Lemma accepted_clause_sets_witness :
  read_clauses (heap (world0 heap_huge)) (arg_clauses (default_args 0)) =
    Some [[2 ^ 64]] ∧
  ∃ ps w', setup_picosat (Some (default_args 0)) (world0 heap_huge) = (Some ps, w').
Proof.
  split; [vm_compute; reflexivity|].
  apply (proj2 (accepted_clause_sets (default_args 0) (world0 heap_huge))).
  exists [[2 ^ 64]]. split; [vm_compute; reflexivity|].
  repeat constructor. unfold in_long, LONG_MAX. intros [[_ Hle] _]. revert Hle.
  by vm_compute.
Defined.

(** X3 at [[2^64]]: the result is [-1], with OverflowError set. *)
Lemma overflow_literal_leaves_error_witness :
  codes_contract ref_search ∧
  scan_clauses (heap (world0 heap_huge)) (arg_clauses (default_args 0)) = None ∧
  clauses_overflow (heap (world0 heap_huge)) (arg_clauses (default_args 0)) = true ∧
  oom (world0 heap_huge) = [] ∧
  (solve ref_search (Some (default_args 0)) (world0 heap_huge)).1 = Py_List [-1] ∧
  ∃ r w', solve ref_search (Some (default_args 0)) (world0 heap_huge) = (r, w') ∧
          r ≠ Py_NULL ∧ pyerr w' = Some overflow_error.
Proof.
  split; [exact ref_search_codes|]. split; [vm_compute; reflexivity|].
  split; [vm_compute; reflexivity|]. split; [reflexivity|].
  split; [vm_compute; reflexivity|].
  apply (overflow_literal_leaves_error ref_search (default_args 0) (world0 heap_huge)
           ref_search_codes); vm_compute; reflexivity.
Defined.

(** X4 at [[1, 0]]. *)
Lemma solve_null_sets_error_witness :
  (solve ref_search (Some (default_args 0)) (world0 heap_zero)).1 = Py_NULL ∧
  pyerr (solve ref_search (Some (default_args 0)) (world0 heap_zero)).2 ≠ None.
Proof.
  split; [vm_compute; reflexivity|].
  apply (solve_null_sets_error ref_search (Some (default_args 0)) (world0 heap_zero)).
  vm_compute. reflexivity.
Defined.

(** X5 at [[1, 2]] when the result list cannot be allocated: two releases. *)
Lemma solve_releases_engine_witness :
  trace (solve ref_search (Some (default_args 0)) (mkWorld heap_12 None [true] [])).2 =
    [Ev_minit 0; Ev_gil_release; Ev_sat 0 PICOSAT_SATISFIABLE; Ev_gil_acquire;
     Ev_PyList_New 2 false; Ev_reset 0; Ev_reset 0] ∧
  ∃ evs,
    trace (solve ref_search (Some (default_args 0)) (mkWorld heap_12 None [true] [])).2 =
      [] ++ Ev_minit 0 :: evs ∧
    last evs = Some (Ev_reset 0%nat) ∧
    count_occ event_eq_dec evs (Ev_reset 0) = (if list_failed evs then 2 else 1)%nat.
Proof.
  split; [vm_compute; reflexivity|].
  exact (solve_releases_engine ref_search (default_args 0) (mkWorld heap_12 None [true] [])).
Defined.

(** X6 at [[1, 0]] with verbosity 2: nothing is printed. *)
Lemma print_only_after_load_witness :
  (setup_picosat (Some (mkArgs 0 (-1) 2 0)) (world0 heap_zero)).1 = None ∧
  ∃ evs,
    trace (setup_picosat (Some (mkArgs 0 (-1) 2 0)) (world0 heap_zero)).2 =
      [] ++ Ev_minit 0 :: evs ∧
    (Ev_print 0%nat ∈ evs ↔
       2 ≤ 2 ∧ (setup_picosat (Some (mkArgs 0 (-1) 2 0)) (world0 heap_zero)).1 ≠ None) ∧
    (Ev_print 0%nat ∈ evs → evs = [Ev_print 0%nat]).
Proof.
  split; [vm_compute; reflexivity|].
  exact (print_only_after_load (mkArgs 0 (-1) 2 0) (world0 heap_zero)).
Defined.


(** X8 at the first advance over [[1, 2]], the first allocation failing. *)
Lemma failed_list_releases_session_early_witness :
  reachable ref_search it_12 ∧
  (ref_search (it_picosat it_12) (-1)).1 = PICOSAT_SATISFIABLE ∧
  oom (mkWorld heap_12 None [true] []) = [true] ∧
  ∃ it' w',
    soliter_next ref_search it_12 (mkWorld heap_12 None [true] []) = ((None, it'), w') ∧
    pyerr w' = Some (mkExc PyExc_SystemError "failed to create list" None) ∧
    trace w' = [Ev_gil_release; Ev_sat 1 PICOSAT_SATISFIABLE; Ev_gil_acquire;
                Ev_PyList_New 2 false; Ev_reset 1] ∧
    trace (soliter_dealloc it' w').2 = trace w' ++ [Ev_GC_UnTrack; Ev_reset 1; Ev_GC_Del].
Proof.
  assert (reachable ref_search it_12) as Hreach
    by exact (reach_new _ _ _ _ _ it_12_new).
  split; [done|]. split; [vm_compute; reflexivity|]. split; [reflexivity|].
  destruct (failed_list_releases_session_early ref_search it_12
              (mkWorld heap_12 None [true] []) [] Hreach eq_refl eq_refl)
    as (it' & w' & Hnext & Herr & Htrace & Hdealloc & _).
  exists it', w'. split; [done|]. split; [done|]. split; [exact Htrace|].
  exact (Hdealloc w').
Defined.

(** X9 at the first advance over [[1, 2]], the second allocation failing. *)
Lemma failed_buffer_loses_solution_witness :
  reachable ref_search it_12 ∧
  (ref_search (it_picosat it_12) (-1)).1 = PICOSAT_SATISFIABLE ∧
  oom (mkWorld heap_12 None [false; true] []) =
    false :: replicate (boxed (decode (searched ref_search (it_picosat it_12)))) false ++
    [true] ∧
  ∃ it' w',
    soliter_next ref_search it_12 (mkWorld heap_12 None [false; true] []) =
      ((None, it'), w') ∧
    pyerr w' = Some (mkExc PyExc_MemoryError "" None) ∧
    clauses (it_picosat it') = [[1; 2]] ∧
    trace w' = [Ev_gil_release; Ev_sat 1 PICOSAT_SATISFIABLE; Ev_gil_acquire;
                Ev_PyList_New 2 true; Ev_PyMem_Malloc 3 None].
Proof.
  assert (reachable ref_search it_12) as Hreach
    by exact (reach_new _ _ _ _ _ it_12_new).
  split; [done|]. split; [vm_compute; reflexivity|]. split; [vm_compute; reflexivity|].
  refine (failed_buffer_loses_solution ref_search it_12
            (mkWorld heap_12 None [false; true] []) [] Hreach eq_refl _).
  vm_compute. reflexivity.
Defined.

(** X10 at [[1, 0]]. *)
Lemma itersolve_failure_leaks_object_witness :
  host_alloc (world0 heap_zero) = (true, world0 heap_zero) ∧
  (itersolve (Some (default_args 0)) (world0 heap_zero)).1 = None ∧
  pyerr (itersolve (Some (default_args 0)) (world0 heap_zero)).2 ≠ None ∧
  ∃ evs, trace (itersolve (Some (default_args 0)) (world0 heap_zero)).2 =
           trace (world0 heap_zero) ++ Ev_GC_New true :: evs ∧
         (Ev_GC_Track ∉ evs) ∧ (Ev_GC_Del ∉ evs).
Proof.
  split; [reflexivity|]. split; [vm_compute; reflexivity|].
  apply (itersolve_failure_leaks_object (Some (default_args 0)) (world0 heap_zero)
           (world0 heap_zero)); [reflexivity|].
  vm_compute. reflexivity.
Defined.

(** X11 at the first advance over [[1, 2]]: [-1, 2] is yielded, [1, -2] added. *)
Lemma blocking_clause_negates_yielded_witness :
  sat_contract ref_search ∧ reachable ref_search it_12 ∧ oom (world0 heap_12) = [] ∧
  (soliter_next ref_search it_12 (world0 heap_12)).1.1 = Some [-1; 2] ∧
  clauses (it_picosat (soliter_next ref_search it_12 (world0 heap_12)).1.2) =
    [[1; 2]; [1; -2]].
Proof.
  assert (reachable ref_search it_12) as Hreach
    by exact (reach_new _ _ _ _ _ it_12_new).
  split; [exact ref_search_sat|]. split; [done|]. split; [reflexivity|].
  split; [vm_compute; reflexivity|].
  refine (proj1 (blocking_clause_negates_yielded ref_search it_12 (world0 heap_12)
                   [-1; 2] _ (soliter_next ref_search it_12 (world0 heap_12)).2
                   ref_search_sat Hreach eq_refl _)).
  vm_compute. reflexivity.
Defined.

(** X12 at three advances over [[1, 2]]. *)
Lemma yielded_lists_same_length_witness :
  (itersolve (Some (default_args 0)) (world0 heap_12)).1 = Some it_12 ∧
  oom (world0 heap_12) = [] ∧
  (advances ref_search 3 it_12 (world0 heap_12)).1.1 =
    [Some [-1; 2]; Some [1; -2]; Some [1; 2]] ∧
  ∀ sol, Some sol ∈ [Some [-1; 2]; Some [1; -2]; Some [1; 2]] → length sol = 2%nat.
Proof.
  split; [vm_compute; reflexivity|]. split; [reflexivity|].
  split; [vm_compute; reflexivity|].
  refine (proj2 (yielded_lists_same_length ref_search (Some (default_args 0))
                   (world0 heap_12) it_12 _ it_12_new 3 (world0 heap_12) _
                   (advances ref_search 3 it_12 (world0 heap_12)).1.2
                   (advances ref_search 3 it_12 (world0 heap_12)).2 eq_refl _)).
  vm_compute. reflexivity.
Defined.

(** X13 at five advances over [[1, 2]]. *)
Lemma yielded_solutions_distinct_witness :
  sat_contract ref_search ∧
  (itersolve (Some (default_args 0)) (world0 heap_12)).1 = Some it_12 ∧
  oom (world0 heap_12) = [] ∧
  (advances ref_search 5 it_12 (world0 heap_12)).1.1 =
    [Some [-1; 2]; Some [1; -2]; Some [1; 2]; None; None] ∧
  NoDup (omap id [Some [-1; 2]; Some [1; -2]; Some [1; 2]; None; None]).
Proof.
  split; [exact ref_search_sat|]. split; [vm_compute; reflexivity|].
  split; [reflexivity|]. split; [vm_compute; reflexivity|].
  refine (yielded_solutions_distinct ref_search (Some (default_args 0)) (world0 heap_12)
            it_12 _ ref_search_sat it_12_new 5 (world0 heap_12) _
            (advances ref_search 5 it_12 (world0 heap_12)).1.2
            (advances ref_search 5 it_12 (world0 heap_12)).2 eq_refl _).
  vm_compute. reflexivity.
Defined.

(** X14 at [[]]. *)
Lemma empty_clause_is_unsat_witness :
  sat_contract ref_search ∧ unknown_contract ref_search ∧ codes_contract ref_search ∧
  read_clauses (heap (world0 heap_empty_clause)) (arg_clauses (default_args 0)) =
    Some [[]] ∧
  valid_clauses [[]] = true ∧ [] ∈ [[] : list Z] ∧
  arg_prop_limit (default_args 0) = 0 ∧ oom (world0 heap_empty_clause) = [] ∧
  ∃ w', solve ref_search (Some (default_args 0)) (world0 heap_empty_clause) =
          (Py_Unicode "UNSAT", w').
Proof.
  split; [exact ref_search_sat|]. split; [exact ref_search_unknown|].
  split; [exact ref_search_codes|]. split; [vm_compute; reflexivity|].
  split; [reflexivity|]. split; [apply list_elem_of_here|].
  split; [reflexivity|]. split; [reflexivity|].
  exact (proj1 (empty_clause_is_unsat ref_search (default_args 0)
                  (world0 heap_empty_clause) [[]]
                  ref_search_sat ref_search_unknown ref_search_codes
                  eq_refl eq_refl (list_elem_of_here _ _) eq_refl eq_refl)).
Defined.

(** X15 at [] with [vars = 3]. *)
Lemma empty_clause_set_is_satisfiable_witness :
  sat_contract ref_search ∧ unsat_contract ref_search ∧
  unknown_contract ref_search ∧ codes_contract ref_search ∧
  read_clauses (heap (world0 {[ 0%nat := PyListV [] ]})) (arg_clauses (mkArgs 0 3 0 0)) =
    Some [] ∧
  -1 ≤ arg_vars (mkArgs 0 3 0 0) ∧ arg_prop_limit (mkArgs 0 3 0 0) = 0 ∧
  oom (world0 {[ 0%nat := PyListV [] ]}) = [] ∧
  ∃ sol w', solve ref_search (Some (mkArgs 0 3 0 0)) (world0 {[ 0%nat := PyListV [] ]}) =
              (Py_List sol, w') ∧
            total_over 3 sol.
Proof.
  split; [exact ref_search_sat|]. split; [exact ref_search_unsat|].
  split; [exact ref_search_unknown|]. split; [exact ref_search_codes|].
  split; [vm_compute; reflexivity|]. split; [simpl; lia|].
  split; [reflexivity|]. split; [reflexivity|].
  refine (empty_clause_set_is_satisfiable ref_search (mkArgs 0 3 0 0)
            (world0 {[ 0%nat := PyListV [] ]})
            ref_search_sat ref_search_unsat ref_search_unknown ref_search_codes
            _ _ eq_refl eq_refl); [vm_compute; reflexivity|simpl; lia].
Defined.

(** X16 at an engine with the values (true, false). *)
Lemma solution_list_determines_values_witness :
  0 ≤ max_var engine_10 ∧
  (∀ i, 1 ≤ i ≤ max_var engine_10 →
        picosat_deref engine_10 i = 1 ∨ picosat_deref engine_10 i = -1) ∧
  (get_solution engine_10 (world0 ∅)).1 = Some [1; -2] ∧
  length [1; -2] = Z.to_nat (picosat_variables engine_10) ∧
  ∀ i, 1 ≤ i ≤ max_var engine_10 → values_of [1; -2] i = picosat_deref engine_10 i.
Proof.
  assert (∀ i, 1 ≤ i ≤ max_var engine_10 →
               picosat_deref engine_10 i = 1 ∨ picosat_deref engine_10 i = -1) as Hvals.
  { intros i _. unfold picosat_deref. simpl. destruct (i =? 1); auto. }
  assert (0 ≤ max_var engine_10) as Hmv by (simpl; lia).
  assert (get_solution engine_10 (world0 ∅) =
          (Some [1; -2], (get_solution engine_10 (world0 ∅)).2)) as Hrun
    by (vm_compute; reflexivity).
  destruct (solution_list_determines_values engine_10 (world0 ∅) [1; -2] _ Hmv Hvals Hrun)
    as (Hlen & _ & Hback & Hfull).
  split; [exact Hmv|]. split; [exact Hvals|]. split; [vm_compute; reflexivity|].
  split; [exact Hlen|]. exact (Hback (Hfull eq_refl)).
Defined.

(** X17 at [[1, 2]] and [[2^32 + 1, 2 - 2^32]]. *)
Lemma literals_taken_modulo_2_32_witness :
  read_clauses heap_12 0 = Some [[1; 2]] ∧
  read_clauses heap_12_shifted 0 = Some [[4294967297; -4294967294]] ∧
  Forall2 (Forall2 same_as_int) [[1; 2]] [[4294967297; -4294967294]] ∧
  (solve ref_search (Some (default_args 0)) (world0 heap_12)).1 = Py_List [-1; 2] ∧
  (solve ref_search (Some (default_args 0)) (world0 heap_12)).1 =
  (solve ref_search (Some (default_args 0)) (world0 heap_12_shifted)).1.
Proof.
  assert (Forall2 (Forall2 same_as_int) [[1; 2]] [[4294967297; -4294967294]]) as Hsame.
  { repeat constructor; unfold in_long, LONG_MAX; lia. }
  split; [vm_compute; reflexivity|]. split; [vm_compute; reflexivity|].
  split; [exact Hsame|]. split; [vm_compute; reflexivity|].
  refine (literals_taken_modulo_2_32 ref_search (default_args 0) (world0 heap_12)
            (world0 heap_12_shifted) [[1; 2]] [[4294967297; -4294967294]]
            _ _ Hsame eq_refl eq_refl); vm_compute; reflexivity.
Defined.

(** X18 at [[1, 2]] and an engine answering 30. *)
Lemma unexpected_code_raises_witness :
  (setup_picosat (Some (default_args 0)) (world0 heap_12)).1 =
    Some (session 0 (default_args 0) [[1; 2]]) ∧
  (odd_search (session 0 (default_args 0) [[1; 2]]) (-1)).1 = 30 ∧
  (solve odd_search (Some (default_args 0)) (world0 heap_12)).1 = Py_NULL ∧
  pyerr (solve odd_search (Some (default_args 0)) (world0 heap_12)).2 =
    Some (mkExc PyExc_SystemError "picosat return value: %d" (Some 30)).
Proof.
  split; [vm_compute; reflexivity|]. split; [reflexivity|].
  assert (setup_picosat (Some (default_args 0)) (world0 heap_12) =
          (Some (session 0 (default_args 0) [[1; 2]]),
           (setup_picosat (Some (default_args 0)) (world0 heap_12)).2)) as Hsetup
    by (vm_compute; reflexivity).
  destruct (unexpected_code_raises odd_search (Some (default_args 0)) (world0 heap_12)
              _ _ Hsetup) as [Hsolve _]; [done..|].
  rewrite Hsolve. split; reflexivity.
Defined.

(** X19 at an engine with six variables, all false, when the list can be
    allocated and the int -6 cannot: the last slot stays empty. *)
Lemma get_solution_fails_only_on_allocation_witness :
  0 ≤ picosat_variables engine_neg6 ∧
  (get_solution engine_neg6 (mkWorld ∅ None [false; true] [])).1 =
    Some [-1; -2; -3; -4; -5; 0] ∧
  decode engine_neg6 = [-1; -2; -3; -4; -5; -6] ∧
  trace (get_solution engine_neg6 (mkWorld ∅ None [false; true] [])).2 =
    [] ++ [Ev_PyList_New (picosat_variables engine_neg6) true] ∧
  (([-1; -2; -3; -4; -5; 0] = decode engine_neg6 ∧
    pyerr (get_solution engine_neg6 (mkWorld ∅ None [false; true] [])).2 = None) ∨
   (0 ∈ [-1; -2; -3; -4; -5; 0] ∧
    pyerr (get_solution engine_neg6 (mkWorld ∅ None [false; true] [])).2 =
      Some (mkExc PyExc_MemoryError "" None))).
Proof.
  assert (0 ≤ picosat_variables engine_neg6) as Hmv by (simpl; lia).
  assert ((get_solution engine_neg6 (mkWorld ∅ None [false; true] [])).1 =
          Some [-1; -2; -3; -4; -5; 0]) as Hrun by (vm_compute; reflexivity).
  split; [exact Hmv|]. split; [exact Hrun|]. split; [vm_compute; reflexivity|].
  destruct (get_solution_fails_only_on_allocation engine_neg6
              (mkWorld ∅ None [false; true] []) Hmv) as (_ & _ & Hlist).
  exact (Hlist _ Hrun).
Defined.



(** X22 at five advances over [[1, 2]], which has three satisfying
    assignments. *)
Lemma yields_at_most_the_models_witness :
  sat_contract ref_search ∧
  read_clauses (heap (world0 heap_12)) (arg_clauses (default_args 0)) = Some [[1; 2]] ∧
  valid_clauses [[1; 2]] = true ∧
  (itersolve (Some (default_args 0)) (world0 heap_12)).1 = Some it_12 ∧
  oom (world0 heap_12) = [] ∧
  length (models 2 [[1; 2]]) = 3%nat ∧
  (length (omap id (advances ref_search 5 it_12 (world0 heap_12)).1.1) ≤ 3)%nat.
Proof.
  split; [exact ref_search_sat|]. split; [vm_compute; reflexivity|].
  split; [reflexivity|]. split; [vm_compute; reflexivity|]. split; [reflexivity|].
  split; [reflexivity|].
  refine (proj2 (yields_at_most_the_models ref_search (default_args 0) (world0 heap_12)
                   [[1; 2]] it_12 _ ref_search_sat _ eq_refl it_12_new
                   5 (world0 heap_12)
                   (advances ref_search 5 it_12 (world0 heap_12)).1.1
                   (advances ref_search 5 it_12 (world0 heap_12)).1.2
                   (advances ref_search 5 it_12 (world0 heap_12)).2 eq_refl _));
    vm_compute; reflexivity.
Defined.

(** X23 at [[1], [-1]]: the engine is fed 1, 0, -1, 0. *)
Lemma clauses_fed_in_order_witness :
  (setup_picosat (Some (default_args 0)) (world0 heap_unsat)).1 =
    Some (foldl picosat_add (configured 0 (default_args 0)) [1; 0; -1; 0]) ∧
  ∃ cs, read_clauses (heap (world0 heap_unsat)) (arg_clauses (default_args 0)) = Some cs ∧
    foldl picosat_add (configured 0 (default_args 0)) [1; 0; -1; 0] =
    foldl picosat_add (configured (length (trace (world0 heap_unsat))) (default_args 0))
      (concat (map (λ c, map int_of_pylong c ++ [0]) cs)) ∧
    clauses (foldl picosat_add (configured 0 (default_args 0)) [1; 0; -1; 0]) =
      map (map int_of_pylong) cs ∧
    open_clause (foldl picosat_add (configured 0 (default_args 0)) [1; 0; -1; 0]) = [].
Proof.
  split; [vm_compute; reflexivity|].
  refine (clauses_fed_in_order (default_args 0) (world0 heap_unsat) _
            (setup_picosat (Some (default_args 0)) (world0 heap_unsat)).2 _).
  vm_compute. reflexivity.
Defined.

(** X24 at [[1, 2]]. *)
Lemma sound_within_int_range_witness :
  sat_contract ref_search ∧
  read_clauses heap_12 0 = Some [[1; 2]] ∧ valid_clauses [[1; 2]] = true ∧
  oom (world0 heap_12) = [] ∧
  (solve ref_search (Some (default_args 0)) (world0 heap_12)).1 = Py_List [-1; 2] ∧
  eval_cnf (assignment_of [-1; 2]) [[1; 2]] = true.
Proof.
  split; [exact ref_search_sat|]. split; [vm_compute; reflexivity|].
  split; [reflexivity|]. split; [reflexivity|]. split; [vm_compute; reflexivity|].
  eapply (proj1 (sound_within_int_range ref_search (default_args 0) (world0 heap_12)
                   [[1; 2]] ref_search_sat eq_refl eq_refl)); [reflexivity|].
  vm_compute. reflexivity.
Defined.
